(** * Signaling server of the calling application: registries, handlers, teardown

    A shallow embedding of the socket.io / mediasoup signaling server: the
    three module-level [Map]s ([transports], [producers], [consumers]), the
    per-connection handlers registered in [io.on('connection', ...)], and
    the disconnect cascade.

    Conventions of the embedding
    - A handler body is a program in the monad [M]: it threads the server
      state, may complete abruptly with a thrown message (JavaScript
      [throw] / a rejected [await]), and appends to a log of the actions it
      performed, in program order.  Mutations made before a [throw] stay
      (JavaScript has no rollback).
    - The media engine (mediasoup) is external: the result of the engine
      call a request may make is part of the request ([Outcome]); the calls
      the server makes on engine handles are logged as [Engine] actions.
    - Requests are well-formed for the protocol: the payload object and the
      acknowledgement callback are present where the handler expects them.
    - In [step] each handler runs as one atomic step.  [Async.step] cuts
      the handlers at their [await] and lets other events come in between;
      the atomic loop is the schedule of it in which every engine call
      settles at once. *)

From stdpp Require Import base option list strings gmap fin_maps.

Open Scope string_scope.
Open Scope list_scope.

(** ** JavaScript values and truthiness *)

(** The value a client sends with [setRtpCapabilities]; the server stores it
    as is and only ever tests it for truthiness. *)
Inductive JsValue :=
| JsUndefined
| JsNull
| JsBool (b : bool)
| JsNumber (n : Z)
| JsString (s : string)
| JsObject (json : string).

Definition truthy (v : JsValue) : bool :=
  match v with
  | JsUndefined | JsNull => false
  | JsBool b => b
  | JsNumber n => negb (n =? 0)%Z
  | JsString s => negb (bool_decide (s = ""))
  | JsObject _ => true
  end.

(** ** Insertion-ordered [Map] with string keys

    [producers] and [consumers] are iterated ([forEach], [values]), so their
    order is observable; [set] on a present key keeps its position. *)
Module JsMap.
Section JsMap.
Context {V : Type}.

Abbreviation t := (list (string * V)).

Definition empty : t := [].

Fixpoint get (key : string) (m : t) : option V :=
  match m with
  | [] => None
  | (k, v) :: rest => if decide (k = key) then Some v else get key rest
  end.

Definition has (key : string) (m : t) : bool :=
  match get key m with Some _ => true | None => false end.

Fixpoint set (key : string) (value : V) (m : t) : t :=
  match m with
  | [] => [(key, value)]
  | (k, v) :: rest =>
      if decide (k = key) then (k, value) :: rest
      else (k, v) :: set key value rest
  end.

Fixpoint delete (key : string) (m : t) : t :=
  match m with
  | [] => []
  | (k, v) :: rest =>
      if decide (k = key) then delete key rest
      else (k, v) :: delete key rest
  end.

Definition keys (m : t) : list string := m.*1.
Definition values (m : t) : list V := m.*2.

(** Keys are pairwise distinct. *)
Definition wf (m : t) : Prop := NoDup (keys m).
End JsMap.
Abbreviation t V := (list (string * V)) (only parsing).
End JsMap.

(** ** Engine handles and registry records *)

Record Transport := {
  transport_id : string;
  iceParameters : string;
  iceCandidates : string;
  dtlsParameters : string;
}.

Record Producer := {
  producer_id : string;
  producer_kind : string;
}.

Record Consumer := {
  consumer_id : string;
  consumer_producerId : string;
  consumer_kind : string;
  consumer_rtpParameters : string;
}.

(** [{ producer, socketId }] *)
Record ProducerData := {
  pd_producer : Producer;
  pd_socketId : string;
}.

(** [{ consumer, socketId }] *)
Record ConsumerData := {
  cd_consumer : Consumer;
  cd_socketId : string;
}.

(** ** Server state *)

Record Server := {
  (** connected sockets, each with its [rtpCapabilities] property *)
  sockets : gmap string JsValue;
  transports : gmap string Transport;
  producers : JsMap.t ProducerData;
  consumers : JsMap.t ConsumerData;
}.

Definition init : Server :=
  {| sockets := ∅; transports := ∅;
     producers := JsMap.empty; consumers := JsMap.empty |}.

Definition with_sockets (f : gmap string JsValue → gmap string JsValue)
    (st : Server) : Server :=
  {| sockets := f (sockets st); transports := transports st;
     producers := producers st; consumers := consumers st |}.

Definition with_transports (f : gmap string Transport → gmap string Transport)
    (st : Server) : Server :=
  {| sockets := sockets st; transports := f (transports st);
     producers := producers st; consumers := consumers st |}.

Definition with_producers
    (f : JsMap.t ProducerData → JsMap.t ProducerData) (st : Server) : Server :=
  {| sockets := sockets st; transports := transports st;
     producers := f (producers st); consumers := consumers st |}.

Definition with_consumers
    (f : JsMap.t ConsumerData → JsMap.t ConsumerData) (st : Server) : Server :=
  {| sockets := sockets st; transports := transports st;
     producers := producers st; consumers := f (consumers st) |}.

(** ** Messages and actions *)

(** What a callback is called with. *)
Inductive Response :=
| RouterRtpCapabilities (descriptor : string)
| TransportOptions (id ice candidates dtls : string)
| Success
| Produced (id : string)
| Consumed (id producerId kind rtpParameters : string)
| ProducerList (l : list (string * string))
| Error (message : string).

(** Server-to-client events sent with [socket.broadcast.emit]. *)
Inductive Broadcast :=
| newProducer (producerId socketId : string)
| producerClosed (producerId : string).

(** Calls made on the media engine or on one of its handles. *)
Inductive EngineCall :=
| router_createWebRtcTransport
| transport_connect (transportId dtls : string)
| transport_produce (transportId kind rtpParameters : string)
| transport_consume (transportId producerId : string)
                    (rtpCapabilities : JsValue) (paused : bool)
| consumer_resume (consumerId : string)
| transport_close (transportId : string)
| producer_close (producerId : string)
| consumer_close (consumerId : string).

Inductive Action :=
| Engine (call : EngineCall)
| TransportsSet (key : string) (transport : Transport)
| TransportsDelete (key : string)
| ProducersSet (producerId : string) (data : ProducerData)
| ProducersDelete (producerId : string)
| ConsumersSet (consumerId : string) (data : ConsumerData)
| ConsumersDelete (consumerId : string)
| Emit (recipient : string) (event : Broadcast)
| Callback (socketId : string) (response : Response).

(** Result of an awaited engine call. *)
Inductive Outcome (A : Type) :=
| Resolves (a : A)
| Rejects (message : string).
Arguments Resolves {A} a.
Arguments Rejects {A} message.

(** ** The handler monad *)

Inductive Completion (A : Type) :=
| Normal (a : A)
| Throw (message : string).
Arguments Normal {A} a.
Arguments Throw {A} message.

Definition M (A : Type) : Type := Server → Completion A * Server * list Action.

Global Instance M_ret : MRet M := λ A a st, (Normal a, st, []).

Global Instance M_bind : MBind M := λ A B k m st,
  match m st with
  | (Normal a, st1, l1) =>
      match k a st1 with (r, st2, l2) => (r, st2, l1 ++ l2) end
  | (Throw e, st1, l1) => (Throw e, st1, l1)
  end.

Definition throw {A} (message : string) : M A := λ st, (Throw message, st, []).

Definition try_catch {A} (body : M A) (handler : string → M A) : M A := λ st,
  match body st with
  | (Normal a, st1, l1) => (Normal a, st1, l1)
  | (Throw e, st1, l1) =>
      match handler e st1 with (r, st2, l2) => (r, st2, l1 ++ l2) end
  end.

Definition gets {A} (f : Server → A) : M A := λ st, (Normal (f st), st, []).

Definition act (f : Server → Server) (a : Action) : M unit :=
  λ st, (Normal (), f st, [a]).

Definition perform (l : list Action) : M unit := λ st, (Normal (), st, l).

(** Runs a handler; a throw that escapes it is an unhandled rejection. *)
Definition exec (m : M unit) (st : Server) : Server * list Action :=
  match m st with (_, st', l) => (st', l) end.

(** *** Primitive operations *)

Definition transports_get (key : string) : M (option Transport) :=
  gets (λ st, transports st !! key).
Definition transports_set (key : string) (transport : Transport) : M unit :=
  act (with_transports (<[key := transport]>)) (TransportsSet key transport).
Definition transports_delete (key : string) : M unit :=
  act (with_transports (delete key)) (TransportsDelete key).

Definition producers_get (producerId : string) : M (option ProducerData) :=
  gets (λ st, JsMap.get producerId (producers st)).
Definition producers_set (producerId : string) (data : ProducerData) : M unit :=
  act (with_producers (JsMap.set producerId data)) (ProducersSet producerId data).
Definition producers_delete (producerId : string) : M unit :=
  act (with_producers (JsMap.delete producerId)) (ProducersDelete producerId).

Definition consumers_get (consumerId : string) : M (option ConsumerData) :=
  gets (λ st, JsMap.get consumerId (consumers st)).
Definition consumers_set (consumerId : string) (data : ConsumerData) : M unit :=
  act (with_consumers (JsMap.set consumerId data)) (ConsumersSet consumerId data).
Definition consumers_delete (consumerId : string) : M unit :=
  act (with_consumers (JsMap.delete consumerId)) (ConsumersDelete consumerId).

(** [Map.prototype.forEach]: visits the entries in insertion order; an entry
    deleted before it is reached is skipped.  (No callback here adds
    entries.) *)
Fixpoint forEach {V} (live : Server → JsMap.t V) (entries : list (string * V))
    (callbackfn : V → string → M unit) : M unit :=
  match entries with
  | [] => mret ()
  | (key, value) :: rest =>
      present ← gets (λ st, JsMap.has key (live st));
      (if present : bool then callbackfn value key else mret ());;
      forEach live rest callbackfn
  end.

Definition producers_forEach (callbackfn : ProducerData → string → M unit)
    : M unit :=
  entries ← gets producers; forEach producers entries callbackfn.

Definition consumers_forEach (callbackfn : ConsumerData → string → M unit)
    : M unit :=
  entries ← gets consumers; forEach consumers entries callbackfn.

(** [await engine.call(...)]: the call is made, then resolves or rejects. *)
Definition await {A} (call : EngineCall) (result : Outcome A) : M A :=
  perform [Engine call];;
  match result with
  | Resolves a => mret a
  | Rejects message => throw message
  end.

(** A call on an engine handle that returns nothing and does not throw
    ([close]). *)
Definition engine (call : EngineCall) : M unit := perform [Engine call].

Definition callback (socketId : string) (response : Response) : M unit :=
  perform [Callback socketId response].

(** The sockets [socket.broadcast.emit] reaches: every connected socket but
    the sender.  Each recipient has its own channel, so the order among
    recipients is not observable; the log lists them in the order of the
    map. *)
Definition recipients (socketId : string) (st : Server) : list string :=
  filter (λ r, r ≠ socketId) (map_to_list (sockets st)).*1.

Definition broadcast_emit (socketId : string) (event : Broadcast) : M unit :=
  λ st, (Normal (), st, (λ r, Emit r event) <$> recipients socketId st).

(** [socket.rtpCapabilities]; [undefined] until assigned. *)
Definition socket_rtpCapabilities (socketId : string) : M JsValue :=
  gets (λ st, default JsUndefined (sockets st !! socketId)).

Definition set_socket_rtpCapabilities (socketId : string) (v : JsValue)
    : M unit :=
  λ st, (Normal (), with_sockets (<[socketId := v]>) st, []).

(** ** Requests and handlers *)

Definition producer_key (socketId : string) : string := socketId +:+ "-producer".
Definition consumer_key (socketId : string) : string := socketId +:+ "-consumer".

(** [createWebRtcTransport]: logs and rethrows an engine failure. *)
Definition createWebRtcTransport (result : Outcome Transport) : M Transport :=
  try_catch (await router_createWebRtcTransport result) (λ error, throw error).

Definition transportOptions (transport : Transport) : Response :=
  TransportOptions (transport_id transport) (iceParameters transport)
                   (iceCandidates transport) (dtlsParameters transport).

Definition on_getRouterRtpCapabilities (socketId : string)
    (router_rtpCapabilities : string) : M unit :=
  callback socketId (RouterRtpCapabilities router_rtpCapabilities).

Definition on_createProducerTransport (socketId : string)
    (result : Outcome Transport) : M unit :=
  try_catch
    (transport ← createWebRtcTransport result;
     transports_set (producer_key socketId) transport;;
     callback socketId (transportOptions transport))
    (λ error, callback socketId (Error error)).

Definition on_createConsumerTransport (socketId : string)
    (result : Outcome Transport) : M unit :=
  try_catch
    (transport ← createWebRtcTransport result;
     transports_set (consumer_key socketId) transport;;
     callback socketId (transportOptions transport))
    (λ error, callback socketId (Error error)).

Definition on_connectProducerTransport (socketId : string) (dtls : string)
    (result : Outcome unit) : M unit :=
  try_catch
    (transport ← transports_get (producer_key socketId);
     match transport with
     | None => throw "Producer transport not found"
     | Some transport =>
         await (transport_connect (transport_id transport) dtls) result;;
         callback socketId Success
     end)
    (λ error, callback socketId (Error error)).

Definition on_connectConsumerTransport (socketId : string) (dtls : string)
    (result : Outcome unit) : M unit :=
  try_catch
    (transport ← transports_get (consumer_key socketId);
     match transport with
     | None => throw "Consumer transport not found"
     | Some transport =>
         await (transport_connect (transport_id transport) dtls) result;;
         callback socketId Success
     end)
    (λ error, callback socketId (Error error)).

Definition on_produce (socketId : string) (kind rtpParameters : string)
    (result : Outcome Producer) : M unit :=
  try_catch
    (transport ← transports_get (producer_key socketId);
     match transport with
     | None => throw "Producer transport not found"
     | Some transport =>
         producer ← await (transport_produce (transport_id transport)
                                             kind rtpParameters) result;
         producers_set (producer_id producer)
           {| pd_producer := producer; pd_socketId := socketId |};;
         broadcast_emit socketId (newProducer (producer_id producer) socketId);;
         callback socketId (Produced (producer_id producer))
     end)
    (λ error, callback socketId (Error error)).

Definition on_consume (socketId : string) (producerId : string)
    (canConsume : bool) (result : Outcome Consumer) : M unit :=
  try_catch
    (transport ← transports_get (consumer_key socketId);
     producerData ← producers_get producerId;
     match transport with
     | None => throw "Consumer transport not found"
     | Some transport =>
     match producerData with
     | None => throw "Producer not found"
     | Some producerData =>
     rtpCapabilities ← socket_rtpCapabilities socketId;
     if negb (truthy rtpCapabilities) then throw "RTP capabilities not set"
     else
     if negb canConsume
     then throw "Cannot consume - incompatible RTP capabilities"
     else
       consumer ← await (transport_consume (transport_id transport) producerId
                                           rtpCapabilities true) result;
       consumers_set (consumer_id consumer)
         {| cd_consumer := consumer; cd_socketId := socketId |};;
       callback socketId
         (Consumed (consumer_id consumer) producerId
                   (consumer_kind consumer) (consumer_rtpParameters consumer))
     end end)
    (λ error, callback socketId (Error error)).

Definition on_resumeConsumer (socketId : string) (consumerId : string)
    (result : Outcome unit) : M unit :=
  try_catch
    (consumerData ← consumers_get consumerId;
     match consumerData with
     | None => throw "Consumer not found"
     | Some consumerData =>
         await (consumer_resume (consumer_id (cd_consumer consumerData))) result;;
         callback socketId Success
     end)
    (λ error, callback socketId (Error error)).

Definition producerList (socketId : string) (ps : JsMap.t ProducerData)
    : list (string * string) :=
  (λ p, (producer_id (pd_producer p), pd_socketId p))
    <$> filter (λ p, pd_socketId p ≠ socketId) (JsMap.values ps).

Definition on_getProducers (socketId : string) : M unit :=
  ps ← gets producers;
  callback socketId (ProducerList (producerList socketId ps)).

Definition on_setRtpCapabilities (socketId : string) (rtpCapabilities : JsValue)
    : M unit :=
  set_socket_rtpCapabilities socketId rtpCapabilities.

Definition on_disconnect (socketId : string) : M unit :=
  producerTransport ← transports_get (producer_key socketId);
  consumerTransport ← transports_get (consumer_key socketId);
  match producerTransport with
  | Some producerTransport =>
      engine (transport_close (transport_id producerTransport));;
      transports_delete (producer_key socketId)
  | None => mret ()
  end;;
  match consumerTransport with
  | Some consumerTransport =>
      engine (transport_close (transport_id consumerTransport));;
      transports_delete (consumer_key socketId)
  | None => mret ()
  end;;
  producers_forEach (λ producerData producerId,
    if decide (pd_socketId producerData = socketId) then
      engine (producer_close (producer_id (pd_producer producerData)));;
      producers_delete producerId;;
      broadcast_emit socketId (producerClosed producerId)
    else mret ());;
  consumers_forEach (λ consumerData consumerId,
    if decide (cd_socketId consumerData = socketId) then
      engine (consumer_close (consumer_id (cd_consumer consumerData)));;
      consumers_delete consumerId
    else mret ()).

(** A request a connected socket sends, together with what the engine
    answers if the handler gets to ask: the router's capability descriptor,
    the verdict of [router.canConsume], the outcome of the awaited call. *)
Inductive Request :=
| getRouterRtpCapabilities (router_rtpCapabilities : string)
| createProducerTransport (result : Outcome Transport)
| createConsumerTransport (result : Outcome Transport)
| connectProducerTransport (dtls : string) (result : Outcome unit)
| connectConsumerTransport (dtls : string) (result : Outcome unit)
| produce (kind rtpParameters : string) (result : Outcome Producer)
| consume (producerId : string) (canConsume : bool) (result : Outcome Consumer)
| resumeConsumer (consumerId : string) (result : Outcome unit)
| getProducers
| setRtpCapabilities (rtpCapabilities : JsValue).

Definition handle (socketId : string) (req : Request) : M unit :=
  match req with
  | getRouterRtpCapabilities caps => on_getRouterRtpCapabilities socketId caps
  | createProducerTransport r => on_createProducerTransport socketId r
  | createConsumerTransport r => on_createConsumerTransport socketId r
  | connectProducerTransport d r => on_connectProducerTransport socketId d r
  | connectConsumerTransport d r => on_connectConsumerTransport socketId d r
  | produce k p r => on_produce socketId k p r
  | consume p c r => on_consume socketId p c r
  | resumeConsumer c r => on_resumeConsumer socketId c r
  | getProducers => on_getProducers socketId
  | setRtpCapabilities v => on_setRtpCapabilities socketId v
  end.

Inductive Event :=
| Connection (socketId : string)
| Message (socketId : string) (req : Request)
| Disconnect (socketId : string).

Definition connected (socketId : string) (st : Server) : bool :=
  bool_decide (is_Some (sockets st !! socketId)).

(** One event of the server's event loop.  Handlers exist only on connected
    sockets; socket ids are unique, so a [Connection] with a live id does
    not occur and is ignored; on [Disconnect] the socket has left before
    its handler runs. *)
Definition step (ev : Event) (st : Server) : Server * list Action :=
  match ev with
  | Connection socketId =>
      if connected socketId st then (st, [])
      else (with_sockets (<[socketId := JsUndefined]>) st, [])
  | Message socketId req =>
      if connected socketId st then exec (handle socketId req) st
      else (st, [])
  | Disconnect socketId =>
      if connected socketId st
      then exec (on_disconnect socketId) (with_sockets (delete socketId) st)
      else (st, [])
  end.

Fixpoint run (evs : list Event) (st : Server) : Server * list Action :=
  match evs with
  | [] => (st, [])
  | ev :: rest =>
      let '(st1, l1) := step ev st in
      let '(st2, l2) := run rest st1 in
      (st2, l1 ++ l2)
  end.

Definition reachable (st : Server) : Prop := ∃ evs, (run evs init).1 = st.

(** * Vocabulary of the properties *)

(** The two [forEach] callbacks of the disconnect handler. *)
Definition close_owned_producer (socketId : string)
    (producerData : ProducerData) (producerId : string) : M unit :=
  if decide (pd_socketId producerData = socketId) then
    engine (producer_close (producer_id (pd_producer producerData)));;
    producers_delete producerId;;
    broadcast_emit socketId (producerClosed producerId)
  else mret ().

Definition close_owned_consumer (socketId : string)
    (consumerData : ConsumerData) (consumerId : string) : M unit :=
  if decide (cd_socketId consumerData = socketId) then
    engine (consumer_close (consumer_id (cd_consumer consumerData)));;
    consumers_delete consumerId
  else mret ().

(** What the cascade logs for each registry. *)
Definition transports_teardown_log (key : string) (st : Server) : list Action :=
  match transports st !! key with
  | Some transport =>
      [Engine (transport_close (transport_id transport)); TransportsDelete key]
  | None => []
  end.

Definition producers_teardown_log (socketId : string) (rcpts : list string)
    (entries : JsMap.t ProducerData) : list Action :=
  entries ≫= λ e,
    if decide (pd_socketId e.2 = socketId) then
      Engine (producer_close (producer_id (pd_producer e.2)))
      :: ProducersDelete e.1
      :: ((λ r, Emit r (producerClosed e.1)) <$> rcpts)
    else [].

Definition consumers_teardown_log (socketId : string)
    (entries : JsMap.t ConsumerData) : list Action :=
  entries ≫= λ e,
    if decide (cd_socketId e.2 = socketId) then
      [Engine (consumer_close (consumer_id (cd_consumer e.2)));
       ConsumersDelete e.1]
    else [].

(** The state the cascade leaves on well-formed registries. *)
Definition teardown (socketId : string) (st : Server) : Server :=
  {| sockets := sockets st;
     transports :=
       delete (consumer_key socketId)
         (delete (producer_key socketId) (transports st));
     producers := filter (λ e, pd_socketId e.2 ≠ socketId) (producers st);
     consumers := filter (λ e, cd_socketId e.2 ≠ socketId) (consumers st) |}.

Definition teardown_log (socketId : string) (st : Server) : list Action :=
  transports_teardown_log (producer_key socketId) st
  ++ transports_teardown_log (consumer_key socketId) st
  ++ producers_teardown_log socketId (recipients socketId st) (producers st)
  ++ consumers_teardown_log socketId (consumers st).

(** [{ success: true }] if the awaited call resolved, [{ error }] if not. *)
Definition connect_reply (result : Outcome unit) : Response :=
  match result with Resolves _ => Success | Rejects message => Error message end.

(** Both ordered registries have pairwise distinct keys. *)
Definition wf_server (st : Server) : Prop :=
  JsMap.wf (producers st) ∧ JsMap.wf (consumers st).

(** Equality of log entries is decidable. *)
Global Instance JsValue_eq_dec : EqDecision JsValue.
Proof. solve_decision. Defined.
Global Instance Transport_eq_dec : EqDecision Transport.
Proof. solve_decision. Defined.
Global Instance Producer_eq_dec : EqDecision Producer.
Proof. solve_decision. Defined.
Global Instance Consumer_eq_dec : EqDecision Consumer.
Proof. solve_decision. Defined.
Global Instance ProducerData_eq_dec : EqDecision ProducerData.
Proof. solve_decision. Defined.
Global Instance ConsumerData_eq_dec : EqDecision ConsumerData.
Proof. solve_decision. Defined.
Global Instance Response_eq_dec : EqDecision Response.
Proof. solve_decision. Defined.
Global Instance Broadcast_eq_dec : EqDecision Broadcast.
Proof. solve_decision. Defined.
Global Instance EngineCall_eq_dec : EqDecision EngineCall.
Proof. solve_decision. Defined.
Global Instance Action_eq_dec : EqDecision Action.
Proof. solve_decision. Defined.

(** How many times [recipient] is sent [event] in a log. *)
Definition deliveries (recipient : string) (event : Broadcast)
    (log : list Action) : nat :=
  length (filter (λ a, a = Emit recipient event) log).

(** How a handler completes: normally, or with an escaped exception. *)
Definition completion {A} (m : M A) (st : Server) : Completion A := (m st).1.1.

(** The request left the state as it was and answered with an error; if the
    engine was called, the error is the engine's. *)
Definition rejected (socketId message : string) (st : Server)
    (r : Server * list Action) : Prop :=
  r.1 = st
  ∧ ∃ calls m, r.2 = (Engine <$> calls) ++ [Callback socketId (Error m)]
               ∧ (calls = [] ∨ m = message).

(** Every newProducer in the log comes after the registry write that
    recorded that producer. *)
Definition announced_after_commit (log : list Action) : Prop :=
  ∀ i r producerId socketId,
    log !! i = Some (Emit r (newProducer producerId socketId)) →
    ∃ j data, j < i ∧ log !! j = Some (ProducersSet producerId data).

(** The log entry is a newProducer delivery. *)
Definition is_announcement (a : Action) : bool :=
  match a with Emit _ (newProducer _ _) => true | _ => false end.

(** No newProducer is sent. *)
Definition silent (log : list Action) : Prop :=
  Forall (λ a, is_announcement a = false) log.

(** The transports recorded under a key of the registry. *)
Definition recorded (key : string) (st : Server) : list Transport :=
  (filter (λ e, e.1 = key) (map_to_list (transports st))).*2.

(** Every key of the registry is the send or the receive key of a socket. *)
Definition keyed_by_peer (st : Server) : Prop :=
  ∀ key, is_Some (transports st !! key) →
         ∃ socketId, key = producer_key socketId ∨ key = consumer_key socketId.

(** The socket never sent setRtpCapabilities in [evs]. *)
Definition never_set_capabilities (socketId : string) (evs : list Event)
    : Prop :=
  ∀ v, Message socketId (setRtpCapabilities v) ∉ evs.

(** [socket.rtpCapabilities] as the consume handler reads it. *)
Definition capabilities_of (socketId : string) (st : Server) : JsValue :=
  default JsUndefined (sockets st !! socketId).

(** ** A two-peer session used for concrete instances *)

Module Scenario.
Definition tA : Transport :=
  {| transport_id := "tA"; iceParameters := "ice"; iceCandidates := "cand";
     dtlsParameters := "dtls" |}.
Definition tB : Transport :=
  {| transport_id := "tB"; iceParameters := "ice"; iceCandidates := "cand";
     dtlsParameters := "dtls" |}.
Definition p1 : Producer := {| producer_id := "p1"; producer_kind := "video" |}.
Definition c1 : Consumer :=
  {| consumer_id := "c1"; consumer_producerId := "p1";
     consumer_kind := "video"; consumer_rtpParameters := "rtp" |}.

(** A connects and produces [p1]; B connects and consumes it as [c1]. *)
Definition session : list Event :=
  [Connection "A"; Connection "B";
   Message "A" (createProducerTransport (Resolves tA));
   Message "A" (produce "video" "rtp" (Resolves p1));
   Message "B" (createConsumerTransport (Resolves tB));
   Message "B" (setRtpCapabilities (JsObject "{codecs}"));
   Message "B" (consume "p1" true (Resolves c1))].

Definition live : Server := (run session init).1.

(** B has a receive transport and A's producer exists, but B never set its
    capabilities. *)
Definition no_capabilities : Server :=
  (run [Connection "A"; Connection "B";
        Message "A" (createProducerTransport (Resolves tA));
        Message "A" (produce "video" "rtp" (Resolves p1));
        Message "B" (createConsumerTransport (Resolves tB))] init).1.
End Scenario.

(** ** Vocabulary of the further properties of the server *)

(** The log entry is a callback call. *)
Definition is_callback (a : Action) : bool :=
  match a with Callback _ _ => true | _ => false end.

(** The log entry gives a resource up: a registry delete or a close call on
    an engine handle. *)
Definition is_release (a : Action) : bool :=
  match a with
  | TransportsDelete _ | ProducersDelete _ | ConsumersDelete _ => true
  | Engine (transport_close _) | Engine (producer_close _)
  | Engine (consumer_close _) => true
  | _ => false
  end.


(** Every registry entry is keyed by its handle's id and belongs to a
    connected socket; every transport key is a key of a connected socket. *)
Definition owned_by_connected (st : Server) : Prop :=
  (∀ key, is_Some (transports st !! key) →
          ∃ socketId, connected socketId st = true
                      ∧ (key = producer_key socketId
                         ∨ key = consumer_key socketId))
  ∧ (∀ producerId data,
       JsMap.get producerId (producers st) = Some data →
       producerId = producer_id (pd_producer data)
       ∧ connected (pd_socketId data) st = true)
  ∧ (∀ consumerId data,
       JsMap.get consumerId (consumers st) = Some data →
       consumerId = consumer_id (cd_consumer data)
       ∧ connected (cd_socketId data) st = true).

(** * Handlers suspended at their [await]

    The handlers that call the engine are [async] functions: a handler runs
    up to its [await], the event loop then runs whatever comes next, and
    the rest of the handler runs when the engine call settles.  Here each
    handler is cut at its [await]: [begin] is the part up to and including
    the engine call, [settle] the part after it, run on the state of the
    moment the call settles.  The result of the engine call travels with
    the request, as before. *)
Module Async.

(** A handler waiting for its engine call, with what the rest of it
    uses. *)
Inductive Pending :=
| createProducerTransport_pending (result : Outcome Transport)
| createConsumerTransport_pending (result : Outcome Transport)
| connectTransport_pending (result : Outcome unit)
| produce_pending (result : Outcome Producer)
| consume_pending (producerId : string) (result : Outcome Consumer)
| resumeConsumer_pending (result : Outcome unit).

(** The awaited call settles: the [await] expression gives its value or
    throws. *)
Definition settled {A} (result : Outcome A) : M A :=
  match result with
  | Resolves a => mret a
  | Rejects message => throw message
  end.

(** The handler up to its [await]; [None] when it is over without
    waiting. *)
Definition begin (socketId : string) (req : Request) : M (option Pending) :=
  match req with
  | getRouterRtpCapabilities caps =>
      on_getRouterRtpCapabilities socketId caps;; mret None
  | createProducerTransport result =>
      perform [Engine router_createWebRtcTransport];;
      mret (Some (createProducerTransport_pending result))
  | createConsumerTransport result =>
      perform [Engine router_createWebRtcTransport];;
      mret (Some (createConsumerTransport_pending result))
  | connectProducerTransport dtls result =>
      try_catch
        (transport ← transports_get (producer_key socketId);
         match transport with
         | None => throw "Producer transport not found"
         | Some transport =>
             perform [Engine (transport_connect (transport_id transport) dtls)];;
             mret (Some (connectTransport_pending result))
         end)
        (λ error, callback socketId (Error error);; mret None)
  | connectConsumerTransport dtls result =>
      try_catch
        (transport ← transports_get (consumer_key socketId);
         match transport with
         | None => throw "Consumer transport not found"
         | Some transport =>
             perform [Engine (transport_connect (transport_id transport) dtls)];;
             mret (Some (connectTransport_pending result))
         end)
        (λ error, callback socketId (Error error);; mret None)
  | produce kind rtpParameters result =>
      try_catch
        (transport ← transports_get (producer_key socketId);
         match transport with
         | None => throw "Producer transport not found"
         | Some transport =>
             perform [Engine (transport_produce (transport_id transport)
                                                kind rtpParameters)];;
             mret (Some (produce_pending result))
         end)
        (λ error, callback socketId (Error error);; mret None)
  | consume producerId canConsume result =>
      try_catch
        (transport ← transports_get (consumer_key socketId);
         producerData ← producers_get producerId;
         match transport with
         | None => throw "Consumer transport not found"
         | Some transport =>
         match producerData with
         | None => throw "Producer not found"
         | Some producerData =>
         rtpCapabilities ← socket_rtpCapabilities socketId;
         if negb (truthy rtpCapabilities) then throw "RTP capabilities not set"
         else
         if negb canConsume
         then throw "Cannot consume - incompatible RTP capabilities"
         else
           perform [Engine (transport_consume (transport_id transport)
                                              producerId rtpCapabilities true)];;
           mret (Some (consume_pending producerId result))
         end end)
        (λ error, callback socketId (Error error);; mret None)
  | resumeConsumer consumerId result =>
      try_catch
        (consumerData ← consumers_get consumerId;
         match consumerData with
         | None => throw "Consumer not found"
         | Some consumerData =>
             perform [Engine (consumer_resume
                                (consumer_id (cd_consumer consumerData)))];;
             mret (Some (resumeConsumer_pending result))
         end)
        (λ error, callback socketId (Error error);; mret None)
  | getProducers => on_getProducers socketId;; mret None
  | setRtpCapabilities rtpCapabilities =>
      on_setRtpCapabilities socketId rtpCapabilities;; mret None
  end.

(** The handler from its [await] on. *)
Definition settle (socketId : string) (waiting : Pending) : M unit :=
  match waiting with
  | createProducerTransport_pending result =>
      try_catch
        (transport ← try_catch (settled result) (λ error, throw error);
         transports_set (producer_key socketId) transport;;
         callback socketId (transportOptions transport))
        (λ error, callback socketId (Error error))
  | createConsumerTransport_pending result =>
      try_catch
        (transport ← try_catch (settled result) (λ error, throw error);
         transports_set (consumer_key socketId) transport;;
         callback socketId (transportOptions transport))
        (λ error, callback socketId (Error error))
  | connectTransport_pending result =>
      try_catch
        (settled result;; callback socketId Success)
        (λ error, callback socketId (Error error))
  | produce_pending result =>
      try_catch
        (producer ← settled result;
         producers_set (producer_id producer)
           {| pd_producer := producer; pd_socketId := socketId |};;
         broadcast_emit socketId (newProducer (producer_id producer) socketId);;
         callback socketId (Produced (producer_id producer)))
        (λ error, callback socketId (Error error))
  | consume_pending producerId result =>
      try_catch
        (consumer ← settled result;
         consumers_set (consumer_id consumer)
           {| cd_consumer := consumer; cd_socketId := socketId |};;
         callback socketId
           (Consumed (consumer_id consumer) producerId
                     (consumer_kind consumer) (consumer_rtpParameters consumer)))
        (λ error, callback socketId (Error error))
  | resumeConsumer_pending result =>
      try_catch
        (settled result;; callback socketId Success)
        (λ error, callback socketId (Error error))
  end.

(** The server and the handlers that wait, oldest first, each with the
    socket it serves. *)
Record State := {
  server : Server;
  awaiting : list (string * Pending);
}.

Definition initial : State := {| server := init; awaiting := [] |}.

Inductive Event :=
| Connection (socketId : string)
| Message (socketId : string) (req : Request)
(** the engine call of the [n]th waiting handler settles *)
| Settled (n : nat)
| Disconnect (socketId : string).

(** One turn of the event loop.  A disconnect removes the socket and runs
    its disconnect handler; the handlers of that socket that wait are not
    cancelled, and when their call settles they write to the registries,
    broadcast and call their callback as they would have (what is sent to
    the socket that has left reaches nobody). *)
Definition step (ev : Event) (s : State) : State * list Action :=
  match ev with
  | Connection socketId =>
      if connected socketId (server s) then (s, [])
      else ({| server := with_sockets (<[socketId := JsUndefined]>) (server s);
               awaiting := awaiting s |}, [])
  | Message socketId req =>
      if connected socketId (server s) then
        match begin socketId req (server s) with
        | (Normal (Some waiting), st, l) =>
            ({| server := st; awaiting := awaiting s ++ [(socketId, waiting)] |},
             l)
        | (_, st, l) => ({| server := st; awaiting := awaiting s |}, l)
        end
      else (s, [])
  | Settled n =>
      match awaiting s !! n with
      | Some (socketId, waiting) =>
          let '(st, l) := exec (settle socketId waiting) (server s) in
          ({| server := st; awaiting := delete n (awaiting s) |}, l)
      | None => (s, [])
      end
  | Disconnect socketId =>
      if connected socketId (server s) then
        let '(st, l) := exec (on_disconnect socketId)
                          (with_sockets (delete socketId) (server s)) in
        ({| server := st; awaiting := awaiting s |}, l)
      else (s, [])
  end.

Fixpoint run (evs : list Event) (s : State) : State * list Action :=
  match evs with
  | [] => (s, [])
  | ev :: rest =>
      let '(s1, l1) := step ev s in
      let '(s2, l2) := run rest s1 in
      (s2, l1 ++ l2)
  end.

(** No handler of the socket waits. *)
Definition idle (socketId : string) (s : State) : Prop :=
  socketId ∉ (awaiting s).*1.

(** Along [evs], no socket disconnects while one of its handlers waits. *)
Fixpoint settles_before_leaving (evs : list Event) (s : State) : Prop :=
  match evs with
  | [] => True
  | ev :: rest =>
      match ev with Disconnect socketId => idle socketId s | _ => True end
      ∧ settles_before_leaving rest (step ev s).1
  end.


(** Resources belong to connected sockets, and so do the handlers that
    wait. *)
Definition owned (s : State) : Prop :=
  owned_by_connected (server s)
  ∧ Forall (λ e, connected e.1 (server s) = true) (awaiting s).

(** *** Two schedules used for concrete instances *)

(** A and B create their transports while the other's request waits, and
    A produces. *)
Definition session : list Event :=
  [Connection "A"; Connection "B";
   Message "A" (createProducerTransport (Resolves Scenario.tA));
   Message "B" (createConsumerTransport (Resolves Scenario.tB));
   Settled 1; Settled 0;
   Message "A" (produce "video" "rtp" (Resolves Scenario.p1));
   Settled 0].

(** A has a send transport; its createProducerTransport for a second one
    and its produce wait for the engine; B is connected. *)
Definition waiting_for_engine : State :=
  (run [Connection "A"; Connection "B";
        Message "A" (createProducerTransport (Resolves Scenario.tA));
        Settled 0;
        Message "A" (createProducerTransport (Resolves Scenario.tB));
        Message "A" (produce "video" "rtp" (Resolves Scenario.p1))]
     initial).1.

End Async.

(** The events of the atomic loop as a schedule of the loop with waiting
    handlers: every request settles at once. *)
Definition at_once (ev : Event) : list Async.Event :=
  match ev with
  | Connection socketId => [Async.Connection socketId]
  | Message socketId req => [Async.Message socketId req; Async.Settled 0]
  | Disconnect socketId => [Async.Disconnect socketId]
  end.

(** * The page of a participant ([Stream.tsx])

    The part of the page that tracks remote producers: the two refs
    ([consumersRef], [consumedProducersRef]), the two pieces of React state
    it keeps about them ([pendingProducers], [remoteStreams]), and the
    callbacks that update them.  Conventions
    - A callback runs to completion as one step, like a server handler; a
      state updater passed to a [set...] function is applied when it is
      queued.
    - The values a callback closes over ([isInitialized], [device],
      [consumerTransport], [socket]) are given as [Captured]; only whether
      each is set matters to the code.
    - What the server, the device and the receive transport answer during
      a consume attempt is given with the attempt ([Attempt]).
    - The [MediaStream] of a remote stream and the track of a consumer are
      left out: the callbacks only store them. *)
Module Page.

(** [interface RemoteStream] without its [stream]. *)
Record RemoteStream := {
  rs_id : string;
  rs_socketId : string;
  rs_producerId : string;
}.

Record State := {
  (** [{ producerId, socketId }] entries *)
  pendingProducers : list (string * string);
  remoteStreams : list RemoteStream;
  (** [Map<string, Consumer>] *)
  consumersRef : JsMap.t Consumer;
  (** [Set<string>] *)
  consumedProducersRef : gset string;
}.

Definition initial : State :=
  {| pendingProducers := []; remoteStreams := [];
     consumersRef := JsMap.empty; consumedProducersRef := ∅ |}.

(** Whether each value a callback closes over is set. *)
Record Captured := {
  isInitialized : bool;
  device : bool;
  consumerTransport : bool;
  socket : bool;
}.

(** What the page asks of the server with [socket.emitWithAck]. *)
Inductive Sent :=
| consume_request (producerId : string)
| resumeConsumer_request (consumerId : string)
| getProducers_request.

Inductive Effect :=
| EmitWithAck (request : Sent)
(** [consumerTransport.consume] with the [id], [producerId], [kind] and
    [rtpParameters] fields of the acknowledgement *)
| TransportConsume (consumerOptions : Response)
| ConsumerClose (consumerId : string).

(** The answers met by one [consumeStream]. *)
Record Attempt := {
  (** [device.canConsume(...)], which returns or throws (it throws on a
      device without that method, see [canConsume_throws]) *)
  device_canConsume : Outcome bool;
  (** the acknowledgement of [consume] *)
  consumerOptions : Response;
  (** [await consumerTransport.consume(...)] *)
  transport_consume : Outcome Consumer;
  (** the acknowledgement of [resumeConsumer] *)
  resumeResult : Response;
}.

(** [ack.error] when it is truthy: present and not the empty string. *)
Definition ack_error (ack : Response) : option string :=
  match ack with
  | Error message => if decide (message = "") then None else Some message
  | _ => None
  end.

(** ** The callback monad *)

Definition PageM (A : Type) : Type :=
  State → Completion A * State * list Effect.

#[local] Instance PageM_ret : MRet PageM := λ A a pg, (Normal a, pg, []).

#[local] Instance PageM_bind : MBind PageM := λ A B k m pg,
  match m pg with
  | (Normal a, pg1, l1) =>
      match k a pg1 with (r, pg2, l2) => (r, pg2, l1 ++ l2) end
  | (Throw e, pg1, l1) => (Throw e, pg1, l1)
  end.

Definition throw {A} (message : string) : PageM A :=
  λ pg, (Throw message, pg, []).

Definition try_catch {A} (body : PageM A) (handler : string → PageM A)
    : PageM A := λ pg,
  match body pg with
  | (Normal a, pg1, l1) => (Normal a, pg1, l1)
  | (Throw e, pg1, l1) =>
      match handler e pg1 with (r, pg2, l2) => (r, pg2, l1 ++ l2) end
  end.

Definition gets {A} (f : State → A) : PageM A := λ pg, (Normal (f pg), pg, []).
Definition modify (f : State → State) : PageM unit :=
  λ pg, (Normal (), f pg, []).
Definition perform (l : list Effect) : PageM unit := λ pg, (Normal (), pg, l).

Definition exec (m : PageM unit) (pg : State) : State * list Effect :=
  match m pg with (_, pg', l) => (pg', l) end.

(** *** Refs and state setters *)

Definition setPendingProducers
    (f : list (string * string) → list (string * string)) : PageM unit :=
  modify (λ pg,
    {| pendingProducers := f (pendingProducers pg);
       remoteStreams := remoteStreams pg;
       consumersRef := consumersRef pg;
       consumedProducersRef := consumedProducersRef pg |}).

Definition setRemoteStreams
    (f : list RemoteStream → list RemoteStream) : PageM unit :=
  modify (λ pg,
    {| pendingProducers := pendingProducers pg;
       remoteStreams := f (remoteStreams pg);
       consumersRef := consumersRef pg;
       consumedProducersRef := consumedProducersRef pg |}).

Definition with_consumersRef (f : JsMap.t Consumer → JsMap.t Consumer)
    (pg : State) : State :=
  {| pendingProducers := pendingProducers pg;
     remoteStreams := remoteStreams pg;
     consumersRef := f (consumersRef pg);
     consumedProducersRef := consumedProducersRef pg |}.

Definition with_consumedProducersRef (f : gset string → gset string)
    (pg : State) : State :=
  {| pendingProducers := pendingProducers pg;
     remoteStreams := remoteStreams pg;
     consumersRef := consumersRef pg;
     consumedProducersRef := f (consumedProducersRef pg) |}.

Definition consumersRef_get (consumerId : string) : PageM (option Consumer) :=
  gets (λ pg, JsMap.get consumerId (consumersRef pg)).
Definition consumersRef_set (consumerId : string) (consumer : Consumer)
    : PageM unit :=
  modify (with_consumersRef (JsMap.set consumerId consumer)).
Definition consumersRef_delete (consumerId : string) : PageM unit :=
  modify (with_consumersRef (JsMap.delete consumerId)).

Definition consumedProducersRef_has (producerId : string) : PageM bool :=
  gets (λ pg, bool_decide (producerId ∈ consumedProducersRef pg)).
Definition consumedProducersRef_add (producerId : string) : PageM unit :=
  modify (with_consumedProducersRef (λ s, s ∪ {[producerId]})).
Definition consumedProducersRef_delete (producerId : string) : PageM unit :=
  modify (with_consumedProducersRef (λ s, s ∖ {[producerId]})).

Definition emitWithAck (request : Sent) : PageM unit :=
  perform [EmitWithAck request].

Definition await {A} (call : Effect) (result : Outcome A) : PageM A :=
  perform [call];;
  match result with
  | Resolves a => mret a
  | Rejects message => throw message
  end.

(** A call that returns or throws. *)
Definition returns {A} (result : Outcome A) : PageM A :=
  match result with
  | Resolves a => mret a
  | Rejects message => throw message
  end.

(** ** The callbacks *)

(** [prev.find(s => s.producerId === producerId)] is truthy. *)
Definition shown (producerId : string) (prev : list RemoteStream) : bool :=
  existsb (λ s, bool_decide (rs_producerId s = producerId)) prev.

(** [prev.find(p => p.producerId === producerId)] is truthy. *)
Definition queued (producerId : string) (prev : list (string * string))
    : bool :=
  existsb (λ p, bool_decide (p.1 = producerId)) prev.

Definition consumeStream (env : Captured) (producerId socketId : string)
    (answers : Attempt) : PageM unit :=
  try_catch
    (consumed ← consumedProducersRef_has producerId;
     if consumed : bool then mret () else
     if negb (consumerTransport env) || negb (socket env) || negb (device env)
     then mret () else
     consumedProducersRef_add producerId;;
     canConsume ← returns (device_canConsume answers);
     if negb canConsume
     then consumedProducersRef_delete producerId
     else
     emitWithAck (consume_request producerId);;
     match ack_error (consumerOptions answers) with
     | Some error => throw ("Server error: " +:+ error)
     | None =>
     consumer ← await (TransportConsume (consumerOptions answers))
                      (transport_consume answers);
     consumersRef_set (consumer_id consumer) consumer;;
     emitWithAck (resumeConsumer_request (consumer_id consumer));;
     match ack_error (resumeResult answers) with
     | Some error => throw ("Error resuming consumer: " +:+ error)
     | None =>
     setRemoteStreams (λ prev,
       if shown producerId prev then prev
       else prev ++ [{| rs_id := consumer_id consumer;
                        rs_socketId := socketId;
                        rs_producerId := producerId |}])
     end end)
    (λ error, consumedProducersRef_delete producerId).

(** The handler [consumeStream] registers for the [transportclose] and the
    [trackended] event of the consumer it created. *)
Definition on_consumer_event (producerId consumerId : string) : PageM unit :=
  consumedProducersRef_delete producerId;;
  setRemoteStreams (filter (λ s, rs_id s ≠ consumerId));;
  consumersRef_delete consumerId.

Definition handleNewProducer (env : Captured) (producerId socketId : string)
    (answers : Attempt) : PageM unit :=
  consumed ← consumedProducersRef_has producerId;
  if consumed : bool then mret () else
  if negb (isInitialized env) || negb (device env)
     || negb (consumerTransport env)
  then
    setPendingProducers (λ prev,
      if queued producerId prev then prev
      else prev ++ [(producerId, socketId)])
  else consumeStream env producerId socketId answers.

(** The callback of [prev.filter] in [handleProducerClosed]: it drops the
    streams of the producer and, as it goes, closes and forgets the consumer
    recorded under each dropped stream's id. *)
Fixpoint drop_streams (producerId : string) (prev : list RemoteStream)
    : PageM (list RemoteStream) :=
  match prev with
  | [] => mret []
  | stream :: rest =>
      if decide (rs_producerId stream = producerId) then
        consumer ← consumersRef_get (rs_id stream);
        match consumer with
        | Some consumer =>
            perform [ConsumerClose (consumer_id consumer)];;
            consumersRef_delete (rs_id stream)
        | None => mret ()
        end;;
        drop_streams producerId rest
      else
        kept ← drop_streams producerId rest;
        mret (stream :: kept)
  end.

Definition handleProducerClosed (producerId : string) : PageM unit :=
  consumedProducersRef_delete producerId;;
  setPendingProducers (filter (λ p, p.1 ≠ producerId));;
  prev ← gets remoteStreams;
  kept ← drop_streams producerId prev;
  setRemoteStreams (λ _, kept).

(** The loop of [processExistingProducers]; [answers n] is what the [n]th
    listed producer meets if it is tried. *)
Fixpoint consume_each (env : Captured) (allProducers : list (string * string))
    (answers : nat → Attempt) (n : nat) : PageM unit :=
  match allProducers with
  | [] => mret ()
  | (producerId, socketId) :: rest =>
      consumed ← consumedProducersRef_has producerId;
      (if consumed : bool then mret ()
       else consumeStream env producerId socketId (answers n));;
      consume_each env rest answers (S n)
  end.

(** The effect that catches up with the producers that exist already.
    [pending] is the [pendingProducers] the effect closes over, the value of
    the render that created it; [existingProducers] is the acknowledgement
    of [getProducers]. *)
Definition processExistingProducers (env : Captured)
    (pending existingProducers : list (string * string))
    (answers : nat → Attempt) : PageM unit :=
  if negb (isInitialized env) || negb (socket env) || negb (device env)
     || negb (consumerTransport env)
  then mret () else
  try_catch
    (emitWithAck getProducers_request;;
     consume_each env (existingProducers ++ pending) answers 0;;
     setPendingProducers (λ _, []))
    (λ error, mret ()).

(** ** Events of the page

    An effect or callback runs with the values of the latest render, so the
    effect of [processExistingProducers] closes over the queue as it is
    when the effect starts. *)

Inductive Event :=
| NewProducer (env : Captured) (producerId socketId : string)
              (answers : Attempt)
| ProducerClosed (producerId : string)
| ExistingProducers (env : Captured)
                    (existingProducers : list (string * string))
                    (answers : nat → Attempt)
| ConsumerEvent (producerId consumerId : string).

Definition step (ev : Event) (pg : State) : State * list Effect :=
  match ev with
  | NewProducer env producerId socketId answers =>
      exec (handleNewProducer env producerId socketId answers) pg
  | ProducerClosed producerId => exec (handleProducerClosed producerId) pg
  | ExistingProducers env existing answers =>
      exec (processExistingProducers env (pendingProducers pg) existing answers)
        pg
  | ConsumerEvent producerId consumerId =>
      exec (on_consumer_event producerId consumerId) pg
  end.

Fixpoint run (evs : list Event) (pg : State) : State * list Effect :=
  match evs with
  | [] => (pg, [])
  | ev :: rest =>
      let '(pg1, l1) := step ev pg in
      let '(pg2, l2) := run rest pg1 in
      (pg2, l1 ++ l2)
  end.

(** No producer is shown twice, no producer is queued twice, and the keys
    of [consumersRef] are distinct. *)
Definition tidy (pg : State) : Prop :=
  NoDup (rs_producerId <$> remoteStreams pg)
  ∧ NoDup (pendingProducers pg).*1
  ∧ JsMap.wf (consumersRef pg).

(** Every answer of the attempt is favourable. *)
Definition goes_through (answers : Attempt) (consumer : Consumer) : Prop :=
  device_canConsume answers = Resolves true
  ∧ ack_error (consumerOptions answers) = None
  ∧ transport_consume answers = Resolves consumer
  ∧ ack_error (resumeResult answers) = None.

(** [mediasoup-client]'s [Device] has a [canProduce] method and no
    [canConsume]: on a device of that library the call in [consumeStream]
    throws a [TypeError]. *)
Definition canConsume_throws (answers : Attempt) : Prop :=
  ∃ message, device_canConsume answers = Rejects message.

(** The event meets a device on which [canConsume] throws. *)
Definition with_library_device (ev : Event) : Prop :=
  match ev with
  | NewProducer _ _ _ answers => canConsume_throws answers
  | ExistingProducers _ _ answers => ∀ n, canConsume_throws (answers n)
  | ProducerClosed _ | ConsumerEvent _ _ => True
  end.

(** The callback has what [consumeStream] needs. *)
Definition can_consume (env : Captured) : bool :=
  consumerTransport env && socket env && device env.

(** The state after a consume attempt that was begun and given up: the
    producer is marked and unmarked again. *)
Definition unmarked (producerId : string) (pg : State) : State :=
  with_consumedProducersRef (λ s, (s ∪ {[producerId]}) ∖ {[producerId]}) pg.

(** A page that has consumed nothing yet, with a stream of another
    producer on show. *)
Definition example : State :=
  {| pendingProducers := [("p1", "A")];
     remoteStreams := [{| rs_id := "c0"; rs_socketId := "Z";
                          rs_producerId := "p0" |}];
     consumersRef := [("c0", {| consumer_id := "c0";
                                consumer_producerId := "p0";
                                consumer_kind := "video";
                                consumer_rtpParameters := "rtp" |})];
     consumedProducersRef := {["p0"]} |}.

Definition all_set : Captured :=
  {| isInitialized := true; device := true; consumerTransport := true;
     socket := true |}.
End Page.

(** ** Vocabulary: the page and the server together *)

(** The producers that the producerClosed notifications of a log announce
    to [recipient], in the order they are sent. *)
Definition closures_for (recipient : string) (log : list Action) : list string :=
  omap (λ a, match a with
             | Emit r (producerClosed producerId) =>
                 if decide (r = recipient) then Some producerId else None
             | _ => None
             end) log.

(** * Properties *)

(** ** Registry keys *)

Lemma string_app_nil (s : string) : "" +:+ s = s.
Proof. reflexivity. Qed.

Lemma string_app_cons (c : Ascii.ascii) (a s : string) :
  String c a +:+ s = String c (a +:+ s).
Proof. reflexivity. Qed.

Lemma string_length_app (a b : string) :
  String.length (a +:+ b) = String.length a + String.length b.
Proof.
  induction a as [|c a IH]; [done|].
  rewrite string_app_cons. simpl. by rewrite IH.
Qed.

Lemma string_app_suffix_inj (a b x y : string) :
  String.length x = String.length y → a +:+ x = b +:+ y → a = b ∧ x = y.
Proof.
  revert b. induction a as [|c a IH]; intros [|d b] Hlen Heq;
    rewrite ?string_app_nil, ?string_app_cons in Heq.
  - done.
  - subst x. simpl in Hlen. rewrite string_length_app in Hlen. lia.
  - subst y. simpl in Hlen. rewrite string_length_app in Hlen. lia.
  - injection Heq as -> Heq. destruct (IH b Hlen Heq) as [-> ->]. done.
Qed.

Lemma producer_key_inj s1 s2 : producer_key s1 = producer_key s2 → s1 = s2.
Proof. intros Hk. by apply string_app_suffix_inj in Hk as [-> _]. Qed.

Lemma consumer_key_inj s1 s2 : consumer_key s1 = consumer_key s2 → s1 = s2.
Proof. intros Hk. by apply string_app_suffix_inj in Hk as [-> _]. Qed.

Lemma producer_consumer_key_ne s1 s2 : producer_key s1 ≠ consumer_key s2.
Proof. intros Hk. by apply string_app_suffix_inj in Hk as [_ Hk]. Qed.

(** ** Facts about [JsMap] *)

Module JsMapFacts.
Section JsMapFacts.
Context {V : Type}.
Implicit Types (m : JsMap.t V) (k : string) (v : V).

Lemma get_None_keys k m : JsMap.get k m = None ↔ k ∉ JsMap.keys m.
Proof.
  induction m as [|[k' v'] m IH]; csimpl.
  - split; [intros _; apply not_elem_of_nil | done].
  - rewrite not_elem_of_cons. case_decide; subst.
    + split; [done | intros [? _]; done].
    + rewrite IH. split; [intros ?; split; congruence | intros [_ ?]; done].
Qed.

Lemma get_Some_elem k v m : JsMap.get k m = Some v → (k, v) ∈ m.
Proof.
  induction m as [|[k' v'] m IH]; csimpl; [done|].
  case_decide; subst.
  - intros [= ->]. left.
  - intros Hg. right. by apply IH.
Qed.

Lemma elem_get k v m : JsMap.wf m → (k, v) ∈ m → JsMap.get k m = Some v.
Proof.
  unfold JsMap.wf, JsMap.keys.
  induction m as [|[k' v'] m IH]; csimpl; intros Hnd Hin.
  - by apply elem_of_nil in Hin.
  - apply NoDup_cons in Hnd as [Hk Hnd].
    apply elem_of_cons in Hin as [[= <- <-]|Hin].
    + by rewrite decide_True.
    + rewrite decide_False; [by apply IH|].
      intros ->. apply Hk. apply list_elem_of_fmap. by exists (k, v).
Qed.

Lemma has_true k m : JsMap.has k m = true ↔ k ∈ JsMap.keys m.
Proof.
  unfold JsMap.has. destruct (JsMap.get k m) eqn:E.
  - split; [intros _ | done].
    destruct (decide (k ∈ JsMap.keys m)) as [|Hn]; [done|].
    apply get_None_keys in Hn. congruence.
  - apply get_None_keys in E. split; [done | intros ?; contradiction].
Qed.

Lemma get_set_eq k v m : JsMap.get k (JsMap.set k v m) = Some v.
Proof.
  induction m as [|[k' v'] m IH]; csimpl.
  - by rewrite decide_True.
  - case_decide; csimpl; subst.
    + by rewrite decide_True.
    + by rewrite decide_False.
Qed.

Lemma get_set_ne k k' v m :
  k ≠ k' → JsMap.get k' (JsMap.set k v m) = JsMap.get k' m.
Proof.
  intros Hne. induction m as [|[k0 v0] m IH]; csimpl.
  - by rewrite decide_False.
  - case_decide; csimpl; subst.
    + by rewrite !decide_False.
    + by rewrite IH.
Qed.

Lemma keys_set k v m :
  JsMap.keys (JsMap.set k v m)
  = if JsMap.has k m then JsMap.keys m else JsMap.keys m ++ [k].
Proof.
  unfold JsMap.has, JsMap.keys.
  induction m as [|[k' v'] m IH]; csimpl; [done|].
  case_decide; csimpl; subst; [done|].
  rewrite IH. by destruct (JsMap.get k m).
Qed.

Lemma wf_set k v m : JsMap.wf m → JsMap.wf (JsMap.set k v m).
Proof.
  unfold JsMap.wf. rewrite keys_set. destruct (JsMap.has k m) eqn:E; [done|].
  intros Hnd. apply NoDup_app. split_and!; [done | | apply NoDup_singleton].
  intros x Hx ->%list_elem_of_singleton.
  apply has_true in Hx. congruence.
Qed.

Lemma delete_filter k m : JsMap.delete k m = filter (λ e, e.1 ≠ k) m.
Proof.
  induction m as [|[k' v'] m IH]; [done|].
  rewrite filter_cons. simpl. rewrite IH.
  destruct (decide (k' = k)), (decide (k' ≠ k)); done.
Qed.

Lemma wf_filter (P : string * V → Prop) `{!∀ e, Decision (P e)} m :
  JsMap.wf m → JsMap.wf (filter P m).
Proof.
  unfold JsMap.wf, JsMap.keys. intros Hnd.
  eapply sublist_NoDup; [exact Hnd | apply fmap_sublist, sublist_filter].
Qed.

Lemma wf_delete k m : JsMap.wf m → JsMap.wf (JsMap.delete k m).
Proof. rewrite delete_filter. apply wf_filter. Qed.

Lemma delete_notin k m : k ∉ JsMap.keys m → JsMap.delete k m = m.
Proof.
  unfold JsMap.keys. induction m as [|[k' v'] m IH]; csimpl; [done|].
  rewrite not_elem_of_cons. intros [Hne Hnotin].
  rewrite decide_False; [by rewrite IH | done].
Qed.

(** Deleting the entry being visited leaves the rest of a well-formed map. *)
Lemma delete_middle kept k v rest :
  JsMap.wf (kept ++ (k, v) :: rest) →
  JsMap.delete k (kept ++ (k, v) :: rest) = kept ++ rest.
Proof.
  unfold JsMap.wf, JsMap.keys. rewrite fmap_app, fmap_cons. simpl.
  intros Hnd. apply NoDup_app in Hnd as (_ & Hdisj & Hnd).
  apply NoDup_cons in Hnd as [Hrest _].
  rewrite !delete_filter, filter_app, filter_cons. simpl.
  rewrite decide_False by (intros ?; done).
  rewrite <- !delete_filter. rewrite !delete_notin; [done | done |].
  intros Hin. apply (Hdisj k Hin). left.
Qed.
End JsMapFacts.
End JsMapFacts.

(** ** Running handlers *)

Ltac unfold_monad :=
  unfold mbind, M_bind, mret, M_ret, throw, try_catch, gets, act, perform,
    await, engine, callback, broadcast_emit in *.

Lemma forEach_cons {V} (live : Server → JsMap.t V) key value rest callbackfn st :
  forEach live ((key, value) :: rest) callbackfn st
  = match (if JsMap.has key (live st) then callbackfn value key else mret ()) st
    with
    | (Normal _, st1, l1) =>
        match forEach live rest callbackfn st1 with
        | (r, st2, l2) => (r, st2, l1 ++ l2)
        end
    | (Throw e, st1, l1) => (Throw e, st1, l1)
    end.
Proof.
  cbn [forEach]. unfold mbind at 1, M_bind at 1, gets. cbn beta iota.
  unfold mbind, M_bind.
  destruct ((if JsMap.has key (live st) then callbackfn value key else mret ()) st)
    as [[[[]|e] st1] l1]; [|done].
  by destruct (forEach live rest callbackfn st1) as [[r st2] l2].
Qed.

Lemma with_producers_id st ps :
  producers st = ps → with_producers (λ _, ps) st = st.
Proof. intros <-. by destruct st. Qed.

Lemma with_consumers_id st cs :
  consumers st = cs → with_consumers (λ _, cs) st = st.
Proof. intros <-. by destruct st. Qed.

Lemma wf_drop_middle {V} (kept : JsMap.t V) e rest :
  JsMap.wf (kept ++ e :: rest) → JsMap.wf (kept ++ rest).
Proof.
  unfold JsMap.wf, JsMap.keys. rewrite !fmap_app, fmap_cons.
  intros (Hk & Hdisj & Hr)%NoDup_app. apply NoDup_cons in Hr as [_ Hr].
  apply NoDup_app. split_and!; [done | | done].
  intros x Hx Hx'. eapply Hdisj; [done|]. by right.
Qed.

Lemma has_middle {V} (kept : JsMap.t V) k v rest :
  JsMap.has k (kept ++ (k, v) :: rest) = true.
Proof.
  apply JsMapFacts.has_true. unfold JsMap.keys. rewrite fmap_app.
  apply elem_of_app. right. left.
Qed.

(** ** The disconnect cascade as a filter *)

Lemma forEach_producers socketId entries : ∀ kept st,
  producers st = kept ++ entries →
  JsMap.wf (kept ++ entries) →
  forEach producers entries (close_owned_producer socketId) st
  = (Normal (),
     with_producers
       (λ _, kept ++ filter (λ e, pd_socketId e.2 ≠ socketId) entries) st,
     producers_teardown_log socketId (recipients socketId st) entries).
Proof.
  induction entries as [|[k pd] rest IH]; intros kept st Hst Hwf.
  - simpl. unfold_monad. rewrite app_nil_r in *. by rewrite with_producers_id.
  - rewrite forEach_cons, Hst, has_middle, filter_cons.
    unfold producers_teardown_log. rewrite bind_cons.
    fold (producers_teardown_log socketId (recipients socketId st) rest).
    unfold close_owned_producer at 1. simpl.
    destruct (decide (pd_socketId pd = socketId)) as [Heq|Hne].
    + rewrite decide_False by (intros ?; done).
      unfold_monad. unfold producers_delete, act. simpl.
      rewrite (IH kept); simpl.
      * done.
      * rewrite Hst. by apply JsMapFacts.delete_middle.
      * by eapply wf_drop_middle.
    + rewrite decide_True by done. unfold_monad.
      rewrite (IH (kept ++ [(k, pd)])); rewrite <- ?app_assoc; simpl; done.
Qed.

Lemma forEach_consumers socketId entries : ∀ kept st,
  consumers st = kept ++ entries →
  JsMap.wf (kept ++ entries) →
  forEach consumers entries (close_owned_consumer socketId) st
  = (Normal (),
     with_consumers
       (λ _, kept ++ filter (λ e, cd_socketId e.2 ≠ socketId) entries) st,
     consumers_teardown_log socketId entries).
Proof.
  induction entries as [|[k cd] rest IH]; intros kept st Hst Hwf.
  - simpl. unfold_monad. rewrite app_nil_r in *. by rewrite with_consumers_id.
  - rewrite forEach_cons, Hst, has_middle, filter_cons.
    unfold consumers_teardown_log. rewrite bind_cons.
    fold (consumers_teardown_log socketId rest).
    unfold close_owned_consumer at 1. simpl.
    destruct (decide (cd_socketId cd = socketId)) as [Heq|Hne].
    + rewrite decide_False by (intros ?; done).
      unfold_monad. unfold consumers_delete, act. simpl.
      rewrite (IH kept); simpl.
      * done.
      * rewrite Hst. by apply JsMapFacts.delete_middle.
      * by eapply wf_drop_middle.
    + rewrite decide_True by done. unfold_monad.
      rewrite (IH (kept ++ [(k, cd)])); rewrite <- ?app_assoc; simpl; done.
Qed.

(** On well-formed registries the cascade completes normally, removes
    exactly the entries the socket owns, and logs what it closed and
    announced. *)
Lemma on_disconnect_run socketId st :
  JsMap.wf (producers st) → JsMap.wf (consumers st) →
  on_disconnect socketId st
  = (Normal (), teardown socketId st, teardown_log socketId st).
Proof.
  intros Hp Hc. unfold on_disconnect, producers_forEach, consumers_forEach.
  change (λ producerData producerId,
            if decide (pd_socketId producerData = socketId) then _ else _)
    with (close_owned_producer socketId).
  change (λ consumerData consumerId,
            if decide (cd_socketId consumerData = socketId) then _ else _)
    with (close_owned_consumer socketId).
  unfold teardown, teardown_log, transports_teardown_log.
  unfold transports_get, transports_delete. unfold_monad. simpl.
  destruct (transports st !! producer_key socketId) as [pt|] eqn:Ept,
    (transports st !! consumer_key socketId) as [ct|] eqn:Ect; simpl;
    rewrite (forEach_producers socketId _ []) by done; simpl;
    rewrite (forEach_consumers socketId _ []) by done; simpl;
    rewrite ?app_nil_r; unfold recipients; simpl; f_equal; try f_equal;
    unfold with_consumers, with_producers, with_transports; simpl; f_equal.
  - symmetry. apply delete_id.
    by rewrite lookup_delete_ne by apply producer_consumer_key_ne.
  - by rewrite (delete_id _ (producer_key socketId)).
  - by rewrite (delete_id _ (producer_key socketId)), delete_id.
Qed.

Lemma on_disconnect_spec socketId st :
  JsMap.wf (producers st) → JsMap.wf (consumers st) →
  exec (on_disconnect socketId) st
  = (teardown socketId st, teardown_log socketId st).
Proof. intros Hp Hc. unfold exec. by rewrite on_disconnect_run. Qed.

(** ** What each request handler does *)

Ltac run_handler :=
  unfold exec, transports_get, transports_set, producers_get, producers_set,
    consumers_get, consumers_set, socket_rtpCapabilities,
    set_socket_rtpCapabilities, createWebRtcTransport;
  unfold_monad; simpl.

Lemma on_createProducerTransport_spec socketId result st :
  exec (on_createProducerTransport socketId result) st
  = match result with
    | Resolves transport =>
        (with_transports (<[producer_key socketId := transport]>) st,
         [Engine router_createWebRtcTransport;
          TransportsSet (producer_key socketId) transport;
          Callback socketId (transportOptions transport)])
    | Rejects message =>
        (st, [Engine router_createWebRtcTransport;
              Callback socketId (Error message)])
    end.
Proof. unfold on_createProducerTransport. run_handler. by destruct result. Qed.

Lemma on_createConsumerTransport_spec socketId result st :
  exec (on_createConsumerTransport socketId result) st
  = match result with
    | Resolves transport =>
        (with_transports (<[consumer_key socketId := transport]>) st,
         [Engine router_createWebRtcTransport;
          TransportsSet (consumer_key socketId) transport;
          Callback socketId (transportOptions transport)])
    | Rejects message =>
        (st, [Engine router_createWebRtcTransport;
              Callback socketId (Error message)])
    end.
Proof. unfold on_createConsumerTransport. run_handler. by destruct result. Qed.

Lemma on_connectProducerTransport_spec socketId dtls result st :
  exec (on_connectProducerTransport socketId dtls result) st
  = (st,
     match transports st !! producer_key socketId with
     | None => [Callback socketId (Error "Producer transport not found")]
     | Some transport =>
         [Engine (transport_connect (transport_id transport) dtls);
          Callback socketId (connect_reply result)]
     end).
Proof.
  unfold on_connectProducerTransport. run_handler.
  destruct (transports st !! producer_key socketId); [|done].
  by destruct result.
Qed.

Lemma on_connectConsumerTransport_spec socketId dtls result st :
  exec (on_connectConsumerTransport socketId dtls result) st
  = (st,
     match transports st !! consumer_key socketId with
     | None => [Callback socketId (Error "Consumer transport not found")]
     | Some transport =>
         [Engine (transport_connect (transport_id transport) dtls);
          Callback socketId (connect_reply result)]
     end).
Proof.
  unfold on_connectConsumerTransport. run_handler.
  destruct (transports st !! consumer_key socketId); [|done].
  by destruct result.
Qed.

Lemma on_produce_spec socketId kind rtpParameters result st :
  exec (on_produce socketId kind rtpParameters result) st
  = match transports st !! producer_key socketId with
    | None => (st, [Callback socketId (Error "Producer transport not found")])
    | Some transport =>
        match result with
        | Resolves producer =>
            let data := {| pd_producer := producer; pd_socketId := socketId |} in
            (with_producers (JsMap.set (producer_id producer) data) st,
             [Engine (transport_produce (transport_id transport)
                                        kind rtpParameters);
              ProducersSet (producer_id producer) data]
             ++ ((λ r, Emit r (newProducer (producer_id producer) socketId))
                   <$> recipients socketId st)
             ++ [Callback socketId (Produced (producer_id producer))])
        | Rejects message =>
            (st, [Engine (transport_produce (transport_id transport)
                                            kind rtpParameters);
                  Callback socketId (Error message)])
        end
    end.
Proof.
  unfold on_produce. run_handler.
  destruct (transports st !! producer_key socketId); [|done].
  by destruct result.
Qed.

Lemma on_consume_spec socketId producerId canConsume result st :
  exec (on_consume socketId producerId canConsume result) st
  = let rtpCapabilities := default JsUndefined (sockets st !! socketId) in
    match transports st !! consumer_key socketId with
    | None => (st, [Callback socketId (Error "Consumer transport not found")])
    | Some transport =>
    match JsMap.get producerId (producers st) with
    | None => (st, [Callback socketId (Error "Producer not found")])
    | Some _ =>
    if negb (truthy rtpCapabilities)
    then (st, [Callback socketId (Error "RTP capabilities not set")])
    else if negb canConsume
    then (st, [Callback socketId
                 (Error "Cannot consume - incompatible RTP capabilities")])
    else
      let call := Engine (transport_consume (transport_id transport) producerId
                                            rtpCapabilities true) in
      match result with
      | Resolves consumer =>
          let data := {| cd_consumer := consumer; cd_socketId := socketId |} in
          (with_consumers (JsMap.set (consumer_id consumer) data) st,
           [call; ConsumersSet (consumer_id consumer) data;
            Callback socketId
              (Consumed (consumer_id consumer) producerId
                        (consumer_kind consumer)
                        (consumer_rtpParameters consumer))])
      | Rejects message => (st, [call; Callback socketId (Error message)])
      end
    end end.
Proof.
  unfold on_consume. run_handler.
  destruct (transports st !! consumer_key socketId); [|done].
  destruct (JsMap.get producerId (producers st)); [|done].
  destruct (truthy _); [|done]. destruct canConsume; [|done].
  by destruct result.
Qed.

Lemma on_resumeConsumer_spec socketId consumerId result st :
  exec (on_resumeConsumer socketId consumerId result) st
  = (st,
     match JsMap.get consumerId (consumers st) with
     | None => [Callback socketId (Error "Consumer not found")]
     | Some consumerData =>
         [Engine (consumer_resume (consumer_id (cd_consumer consumerData)));
          Callback socketId (connect_reply result)]
     end).
Proof.
  unfold on_resumeConsumer. run_handler.
  destruct (JsMap.get consumerId (consumers st)); [|done].
  by destruct result.
Qed.

Lemma on_getProducers_spec socketId st :
  exec (on_getProducers socketId) st
  = (st, [Callback socketId
            (ProducerList (producerList socketId (producers st)))]).
Proof. unfold on_getProducers. by run_handler. Qed.

Lemma on_setRtpCapabilities_spec socketId v st :
  exec (on_setRtpCapabilities socketId v) st
  = (with_sockets (<[socketId := v]>) st, []).
Proof. unfold on_setRtpCapabilities. by run_handler. Qed.

Lemma on_getRouterRtpCapabilities_spec socketId caps st :
  exec (on_getRouterRtpCapabilities socketId caps) st
  = (st, [Callback socketId (RouterRtpCapabilities caps)]).
Proof. unfold on_getRouterRtpCapabilities. by run_handler. Qed.

(** ** Invariants of the event loop *)

(** The ways a request changes the state. *)
Lemma handle_state socketId req st :
  let st' := (exec (handle socketId req) st).1 in
  st' = st
  ∨ (∃ t, st' = with_transports (<[producer_key socketId := t]>) st)
  ∨ (∃ t, st' = with_transports (<[consumer_key socketId := t]>) st)
  ∨ (∃ p, st' = with_producers
                  (JsMap.set (producer_id p)
                     {| pd_producer := p; pd_socketId := socketId |}) st)
  ∨ (∃ c, st' = with_consumers
                  (JsMap.set (consumer_id c)
                     {| cd_consumer := c; cd_socketId := socketId |}) st)
  ∨ (∃ v, req = setRtpCapabilities v
          ∧ st' = with_sockets (<[socketId := v]>) st).
Proof.
  destruct req as [caps|r|r|d r|d r|k p r|p c r|c r| |v]; cbn [handle].
  - rewrite on_getRouterRtpCapabilities_spec. by left.
  - rewrite on_createProducerTransport_spec. destruct r; simpl; eauto 10.
  - rewrite on_createConsumerTransport_spec. destruct r; simpl; eauto 10.
  - rewrite on_connectProducerTransport_spec. by left.
  - rewrite on_connectConsumerTransport_spec. by left.
  - rewrite on_produce_spec.
    destruct (transports st !! _); [destruct r|]; simpl; eauto 10.
  - rewrite on_consume_spec. cbv zeta.
    destruct (transports st !! _); [|by left].
    destruct (JsMap.get p (producers st)); [|by left].
    destruct (negb (truthy _)); [by left|]. destruct (negb c); [by left|].
    destruct r; simpl; eauto 10.
  - rewrite on_resumeConsumer_spec. by left.
  - rewrite on_getProducers_spec. by left.
  - rewrite on_setRtpCapabilities_spec. simpl. eauto 10.
Qed.

Lemma wf_server_init : wf_server init.
Proof. split; apply NoDup_nil_2. Qed.

Lemma step_wf ev st : wf_server st → wf_server (step ev st).1.
Proof.
  intros [Hp Hc]. destruct ev as [s|s req|s]; unfold step;
    destruct (connected s st); try done.
  - destruct (handle_state s req st)
      as [->|[[t ->]|[[t ->]|[[p ->]|[[c ->]|(v & _ & ->)]]]]]; try done.
    + split; [by apply JsMapFacts.wf_set | done].
    + split; [done | by apply JsMapFacts.wf_set].
  - rewrite on_disconnect_spec by done. split; by apply JsMapFacts.wf_filter.
Qed.

Lemma run_cons ev evs st :
  run (ev :: evs) st
  = ((run evs (step ev st).1).1, (step ev st).2 ++ (run evs (step ev st).1).2).
Proof.
  simpl. destruct (step ev st) as [st1 l1]. simpl.
  by destruct (run evs st1) as [st2 l2].
Qed.

Lemma run_app evs1 evs2 st :
  run (evs1 ++ evs2) st
  = ((run evs2 (run evs1 st).1).1, (run evs1 st).2 ++ (run evs2 (run evs1 st).1).2).
Proof.
  revert st. induction evs1 as [|ev evs1 IH]; intros st.
  - simpl. by destruct (run evs2 st).
  - rewrite <- app_comm_cons, !run_cons, IH. simpl. by rewrite app_assoc.
Qed.

(** An invariant of well-formed states that every event of [evs] preserves
    holds after running [evs]. *)
Lemma run_invariant (I : Server → Prop) evs : ∀ st,
  wf_server st → I st →
  (∀ ev st, ev ∈ evs → wf_server st → I st → I (step ev st).1) →
  wf_server (run evs st).1 ∧ I (run evs st).1.
Proof.
  induction evs as [|ev evs IH]; intros st Hwf HI Hstep; [done|].
  rewrite run_cons. simpl. apply IH.
  - by apply step_wf.
  - apply Hstep; [left | done | done].
  - intros ev' st' Hin. apply Hstep. by right.
Qed.

Lemma reachable_wf st : reachable st → wf_server st.
Proof.
  intros [evs <-].
  by apply (run_invariant (λ _, True) evs init wf_server_init).
Qed.

(** ** Broadcast recipients and delivery counts *)

Lemma elem_of_recipients r socketId st :
  r ∈ recipients socketId st ↔ is_Some (sockets st !! r) ∧ r ≠ socketId.
Proof.
  unfold recipients. rewrite list_elem_of_filter, list_elem_of_fmap.
  split.
  - intros [Hne [[k v] [-> Hin]]]. apply elem_of_map_to_list in Hin. eauto.
  - intros [[v Hv] Hne]. split; [done|]. exists (r, v). split; [done|].
    by apply elem_of_map_to_list.
Qed.

Lemma NoDup_recipients socketId st : NoDup (recipients socketId st).
Proof. apply NoDup_filter, NoDup_fst_map_to_list. Qed.

Lemma deliveries_app r ev l1 l2 :
  deliveries r ev (l1 ++ l2) = deliveries r ev l1 + deliveries r ev l2.
Proof. unfold deliveries. by rewrite filter_app, length_app. Qed.

Lemma deliveries_cons_ne r ev a l :
  a ≠ Emit r ev → deliveries r ev (a :: l) = deliveries r ev l.
Proof. intros Hne. unfold deliveries. by rewrite filter_cons, decide_False. Qed.

Lemma deliveries_emit_once r ev rcpts :
  NoDup rcpts → r ∈ rcpts →
  deliveries r ev ((λ r', Emit r' ev) <$> rcpts) = 1.
Proof.
  unfold deliveries. induction rcpts as [|x rcpts IH]; intros Hnd Hin.
  - by apply elem_of_nil in Hin.
  - apply NoDup_cons in Hnd as [Hx Hnd]. rewrite fmap_cons, filter_cons.
    destruct (decide (x = r)) as [->|Hne].
    + rewrite decide_True by done. simpl. f_equal.
      clear IH Hin. induction rcpts as [|y rcpts IH]; [done|].
      apply not_elem_of_cons in Hx as [Hy Hx]. apply NoDup_cons in Hnd as [_ Hnd].
      rewrite fmap_cons, filter_cons, decide_False by congruence. by apply IH.
    + rewrite decide_False by congruence. apply IH; [done|].
      apply elem_of_cons in Hin as [->|Hin]; done.
Qed.

Lemma deliveries_emit_other r ev ev' rcpts :
  ev ≠ ev' → deliveries r ev ((λ r', Emit r' ev') <$> rcpts) = 0.
Proof.
  intros Hne. unfold deliveries. induction rcpts as [|x rcpts IH]; [done|].
  by rewrite fmap_cons, filter_cons, decide_False by congruence.
Qed.

Lemma deliveries_transports_teardown r ev key st :
  deliveries r ev (transports_teardown_log key st) = 0.
Proof. unfold transports_teardown_log. by destruct (transports st !! key). Qed.

Lemma deliveries_consumers_teardown r ev socketId entries :
  deliveries r ev (consumers_teardown_log socketId entries) = 0.
Proof.
  unfold consumers_teardown_log.
  induction entries as [|[k cd] rest IH]; [done|].
  rewrite bind_cons, deliveries_app, IH. simpl. by destruct (decide _).
Qed.

Lemma deliveries_producers_teardown_absent r producerId socketId rcpts entries :
  producerId ∉ JsMap.keys entries →
  deliveries r (producerClosed producerId)
    (producers_teardown_log socketId rcpts entries) = 0.
Proof.
  unfold producers_teardown_log, JsMap.keys.
  induction entries as [|[k pd] rest IH]; [done|].
  rewrite fmap_cons, not_elem_of_cons. intros [Hne Hnotin].
  rewrite bind_cons, deliveries_app, IH by done. simpl in *.
  destruct (decide _); [|done].
  by rewrite !deliveries_cons_ne, deliveries_emit_other by congruence.
Qed.

(** Each producer the socket owns is announced closed once to each
    recipient. *)
Lemma deliveries_producers_teardown r producerId data socketId rcpts entries :
  JsMap.wf entries → NoDup rcpts →
  (producerId, data) ∈ entries → pd_socketId data = socketId → r ∈ rcpts →
  deliveries r (producerClosed producerId)
    (producers_teardown_log socketId rcpts entries) = 1.
Proof.
  intros Hwf Hnd Hin Hown Hr. unfold JsMap.wf, JsMap.keys in Hwf.
  induction entries as [|[k pd] rest IH]; [by apply elem_of_nil in Hin|].
  rewrite fmap_cons in Hwf. apply NoDup_cons in Hwf as [Hk Hwf].
  unfold producers_teardown_log. rewrite bind_cons, deliveries_app.
  fold (producers_teardown_log socketId rcpts rest). simpl in *.
  apply elem_of_cons in Hin as [[= <- <-]|Hin].
  - rewrite decide_True by done.
    rewrite deliveries_producers_teardown_absent by done.
    by rewrite !deliveries_cons_ne, deliveries_emit_once.
  - rewrite IH by done.
    assert (k ≠ producerId) as Hne.
    { intros ->. apply Hk. apply list_elem_of_fmap. by exists (producerId, data). }
    destruct (decide _); [|done].
    by rewrite !deliveries_cons_ne, deliveries_emit_other by congruence.
Qed.

(** ** No handler lets an exception escape *)

Lemma handle_completes socketId req st :
  completion (handle socketId req) st = Normal ().
Proof.
  unfold completion.
  destruct req as [caps|r|r|d r|d r|k p r|p c r|c r| |v]; cbn [handle].
  - done.
  - unfold on_createProducerTransport. run_handler. by destruct r.
  - unfold on_createConsumerTransport. run_handler. by destruct r.
  - unfold on_connectProducerTransport. run_handler.
    destruct (transports st !! _); [by destruct r | done].
  - unfold on_connectConsumerTransport. run_handler.
    destruct (transports st !! _); [by destruct r | done].
  - unfold on_produce. run_handler.
    destruct (transports st !! _); [by destruct r | done].
  - unfold on_consume. run_handler.
    destruct (transports st !! _); [|done].
    destruct (JsMap.get p (producers st)); [|done].
    destruct (truthy _); [|done]. destruct c; [|done]. by destruct r.
  - unfold on_resumeConsumer. run_handler.
    destruct (JsMap.get c (consumers st)); [by destruct r | done].
  - done.
  - done.
Qed.

(** ** Engine failures store nothing *)

(** C4: when the engine call of a createProducerTransport (or
    createConsumerTransport), produce or consume request throws, the request
    is answered with an error response carrying the engine's message, and
    the whole server state, so each of the three registries, is exactly
    what it was before the request. *)
Theorem engine_failure_stores_nothing socketId message st :
  exec (on_createProducerTransport socketId (Rejects message)) st
  = (st, [Engine router_createWebRtcTransport; Callback socketId (Error message)])
  ∧ exec (on_createConsumerTransport socketId (Rejects message)) st
    = (st, [Engine router_createWebRtcTransport;
            Callback socketId (Error message)])
  ∧ (∀ kind rtpParameters,
       rejected socketId message st
         (exec (on_produce socketId kind rtpParameters (Rejects message)) st))
  ∧ (∀ producerId canConsume,
       rejected socketId message st
         (exec (on_consume socketId producerId canConsume (Rejects message)) st)).
Proof.
  split_and!.
  - by rewrite on_createProducerTransport_spec.
  - by rewrite on_createConsumerTransport_spec.
  - intros kind rtp. rewrite on_produce_spec.
    destruct (transports st !! producer_key socketId) as [t|].
    + split; [done|]. by exists [transport_produce (transport_id t) kind rtp], message; auto.
    + split; [done|]. by exists [], "Producer transport not found"; auto.
  - intros p c. rewrite on_consume_spec. cbv zeta.
    destruct (transports st !! consumer_key socketId) as [t|];
      [|split; [done|]; by exists [], "Consumer transport not found"; auto].
    destruct (JsMap.get p (producers st));
      [|split; [done|]; by exists [], "Producer not found"; auto].
    destruct (negb (truthy _));
      [split; [done|]; by exists [], "RTP capabilities not set"; auto|].
    destruct (negb c);
      [split; [done|];
       by exists [], "Cannot consume - incompatible RTP capabilities"; auto|].
    split; [done|]. eexists [_], message. auto.
Qed.

(** ** Connecting a transport *)

(** C8: connectProducerTransport (resp. connectConsumerTransport) on a peer
    with no recorded producer (resp. consumer) transport completes normally
    and answers with the transport-not-found error; with a recorded
    transport it calls that transport's connect with the dtlsParameters and
    answers success, or the engine's error if the call rejects.  The state
    is unchanged in every case. *)
Theorem connect_transport_not_found socketId dtls result st :
  completion (on_connectProducerTransport socketId dtls result) st = Normal ()
  ∧ completion (on_connectConsumerTransport socketId dtls result) st = Normal ()
  ∧ (transports st !! producer_key socketId = None →
     exec (on_connectProducerTransport socketId dtls result) st
     = (st, [Callback socketId (Error "Producer transport not found")]))
  ∧ (transports st !! consumer_key socketId = None →
     exec (on_connectConsumerTransport socketId dtls result) st
     = (st, [Callback socketId (Error "Consumer transport not found")]))
  ∧ (∀ transport,
       transports st !! producer_key socketId = Some transport →
       exec (on_connectProducerTransport socketId dtls result) st
       = (st, [Engine (transport_connect (transport_id transport) dtls);
               Callback socketId (connect_reply result)]))
  ∧ (∀ transport,
       transports st !! consumer_key socketId = Some transport →
       exec (on_connectConsumerTransport socketId dtls result) st
       = (st, [Engine (transport_connect (transport_id transport) dtls);
               Callback socketId (connect_reply result)])).
Proof.
  split_and!.
  - apply (handle_completes socketId (connectProducerTransport dtls result)).
  - apply (handle_completes socketId (connectConsumerTransport dtls result)).
  - intros H. by rewrite on_connectProducerTransport_spec, H.
  - intros H. by rewrite on_connectConsumerTransport_spec, H.
  - intros t H. by rewrite on_connectProducerTransport_spec, H.
  - intros t H. by rewrite on_connectConsumerTransport_spec, H.
Qed.

Lemma connect_transport_not_found_witness :
  exec (on_connectProducerTransport "B" "dtls" (Resolves ())) Scenario.live
  = (Scenario.live, [Callback "B" (Error "Producer transport not found")])
  ∧ exec (on_connectConsumerTransport "A" "dtls" (Resolves ())) Scenario.live
    = (Scenario.live, [Callback "A" (Error "Consumer transport not found")])
  ∧ exec (on_connectProducerTransport "A" "dtls" (Rejects "boom")) Scenario.live
    = (Scenario.live, [Engine (transport_connect "tA" "dtls");
                       Callback "A" (Error "boom")])
  ∧ exec (on_connectConsumerTransport "B" "dtls" (Resolves ())) Scenario.live
    = (Scenario.live, [Engine (transport_connect "tB" "dtls");
                       Callback "B" Success]).
Proof.
  split_and!.
  - apply (connect_transport_not_found "B" "dtls" (Resolves ()) Scenario.live).
    vm_compute. reflexivity.
  - apply (connect_transport_not_found "A" "dtls" (Resolves ()) Scenario.live).
    vm_compute. reflexivity.
  - apply (connect_transport_not_found "A" "dtls" (Rejects "boom") Scenario.live
             ) with (transport := Scenario.tA).
    vm_compute. reflexivity.
  - apply (connect_transport_not_found "B" "dtls" (Resolves ()) Scenario.live
             ) with (transport := Scenario.tB).
    vm_compute. reflexivity.
Defined.

(** ** Order of the checks of [consume] *)

(** C10: the checks of a consume request are made in a fixed order and the
    first one that fails decides the error: no receive transport, then
    unknown producer, then capabilities unset, then capabilities
    incompatible.  In particular a peer with neither a receive transport
    nor capabilities gets the transport-not-found error. *)
Theorem consume_error_precedence socketId producerId canConsume result st :
  let reply message :=
    exec (on_consume socketId producerId canConsume result) st
    = (st, [Callback socketId (Error message)]) in
  let rtpCapabilities := default JsUndefined (sockets st !! socketId) in
  (transports st !! consumer_key socketId = None →
   reply "Consumer transport not found")
  ∧ (is_Some (transports st !! consumer_key socketId) →
     JsMap.get producerId (producers st) = None →
     reply "Producer not found")
  ∧ (is_Some (transports st !! consumer_key socketId) →
     is_Some (JsMap.get producerId (producers st)) →
     truthy rtpCapabilities = false →
     reply "RTP capabilities not set")
  ∧ (is_Some (transports st !! consumer_key socketId) →
     is_Some (JsMap.get producerId (producers st)) →
     truthy rtpCapabilities = true →
     canConsume = false →
     reply "Cannot consume - incompatible RTP capabilities").
Proof.
  cbv zeta. rewrite on_consume_spec. cbv zeta. split_and!.
  - by intros ->.
  - by intros [t ->] ->.
  - by intros [t ->] [pd ->] ->.
  - by intros [t ->] [pd ->] -> ->.
Qed.

Lemma consume_error_precedence_witness :
  exec (on_consume "A" "nope" false (Rejects "boom")) init
  = (init, [Callback "A" (Error "Consumer transport not found")])
  ∧ exec (on_consume "B" "nope" false (Rejects "boom")) Scenario.no_capabilities
    = (Scenario.no_capabilities, [Callback "B" (Error "Producer not found")])
  ∧ exec (on_consume "B" "p1" false (Rejects "boom")) Scenario.no_capabilities
    = (Scenario.no_capabilities,
       [Callback "B" (Error "RTP capabilities not set")])
  ∧ exec (on_consume "B" "p1" false (Rejects "boom")) Scenario.live
    = (Scenario.live,
       [Callback "B" (Error "Cannot consume - incompatible RTP capabilities")]).
Proof.
  split_and!.
  - apply (consume_error_precedence "A" "nope" false (Rejects "boom") init).
    vm_compute. reflexivity.
  - apply (consume_error_precedence "B" "nope" false (Rejects "boom")
             Scenario.no_capabilities).
    + vm_compute. eexists. reflexivity.
    + vm_compute. reflexivity.
  - apply (consume_error_precedence "B" "p1" false (Rejects "boom")
             Scenario.no_capabilities).
    + vm_compute. eexists. reflexivity.
    + vm_compute. eexists. reflexivity.
    + vm_compute. reflexivity.
  - apply (consume_error_precedence "B" "p1" false (Rejects "boom")
             Scenario.live).
    + vm_compute. eexists. reflexivity.
    + vm_compute. eexists. reflexivity.
    + vm_compute. reflexivity.
    + reflexivity.
Defined.

(** ** Resuming a consumer *)

(** C2, as the claim states it, fails: in the session, A resumes the
    consumer [c1] that B owns and is answered with success. *)
Lemma resume_by_non_owner_succeeds :
  JsMap.get "c1" (consumers Scenario.live)
  = Some {| cd_consumer := Scenario.c1; cd_socketId := "B" |}
  ∧ step (Message "A" (resumeConsumer "c1" (Resolves ()))) Scenario.live
    = (Scenario.live, [Engine (consumer_resume "c1"); Callback "A" Success]).
Proof. vm_compute. split; reflexivity. Qed.

(** C2, amended: resumeConsumer looks the consumer up by id only.  An id
    absent from the registry is answered with the consumer-not-found error;
    an id present in it, whoever owns the consumer, has the engine's resume
    called on it and is answered with success, or with the engine's error
    if resume rejects.  The state is unchanged in every case. *)
Theorem resume_looks_up_by_id_only socketId consumerId result st :
  (JsMap.get consumerId (consumers st) = None →
   exec (on_resumeConsumer socketId consumerId result) st
   = (st, [Callback socketId (Error "Consumer not found")]))
  ∧ (∀ consumerData,
       JsMap.get consumerId (consumers st) = Some consumerData →
       exec (on_resumeConsumer socketId consumerId result) st
       = (st, [Engine (consumer_resume (consumer_id (cd_consumer consumerData)));
               Callback socketId
                 match result with
                 | Resolves _ => Success
                 | Rejects message => Error message
                 end])).
Proof.
  rewrite on_resumeConsumer_spec. split.
  - by intros ->.
  - intros cd ->. by destruct result.
Qed.

Lemma resume_looks_up_by_id_only_witness :
  exec (on_resumeConsumer "B" "c2" (Resolves ())) Scenario.live
  = (Scenario.live, [Callback "B" (Error "Consumer not found")])
  ∧ exec (on_resumeConsumer "A" "c1" (Resolves ())) Scenario.live
    = (Scenario.live, [Engine (consumer_resume "c1"); Callback "A" Success]).
Proof.
  split.
  - apply (resume_looks_up_by_id_only "B" "c2" (Resolves ()) Scenario.live).
    vm_compute. reflexivity.
  - apply (resume_looks_up_by_id_only "A" "c1" (Resolves ()) Scenario.live
             ) with (consumerData := {| cd_consumer := Scenario.c1;
                                        cd_socketId := "B" |}).
    vm_compute. reflexivity.
Defined.

(** ** Exclusion of the caller *)

Lemma elem_of_producerList producerId owner socketId ps :
  (producerId, owner) ∈ producerList socketId ps
  ↔ owner ≠ socketId
    ∧ ∃ data, data ∈ JsMap.values ps
              ∧ producer_id (pd_producer data) = producerId
              ∧ pd_socketId data = owner.
Proof.
  unfold producerList. rewrite list_elem_of_fmap. split.
  - intros (data & [= -> ->] & [Hne Hin]%list_elem_of_filter). eauto.
  - intros (Hne & data & Hin & <- & <-). exists data. split; [done|].
    by apply list_elem_of_filter.
Qed.

Lemma producerList_entries socketId (ps : JsMap.t ProducerData) :
  producerList socketId ps
  = (λ e, (producer_id (pd_producer e.2), pd_socketId e.2))
      <$> filter (λ e, pd_socketId e.2 ≠ socketId) ps.
Proof.
  unfold producerList, JsMap.values.
  induction ps as [|[k data] ps IH]; [done|].
  rewrite fmap_cons, !filter_cons. simpl.
  destruct (decide (pd_socketId data ≠ socketId)); [|done].
  rewrite !fmap_cons. simpl. by rewrite IH.
Qed.

Lemma elem_of_producerList_get producerId owner socketId ps :
  JsMap.wf ps →
  (producerId, owner) ∈ producerList socketId ps
  ↔ owner ≠ socketId
    ∧ ∃ key data, JsMap.get key ps = Some data
                  ∧ producer_id (pd_producer data) = producerId
                  ∧ pd_socketId data = owner.
Proof.
  intros Hwf. rewrite elem_of_producerList. unfold JsMap.values. split.
  - intros (Hne & data & ([key d] & -> & Hin)%list_elem_of_fmap & Hid & Hown).
    split; [done|]. exists key, d. split; [|done].
    by apply JsMapFacts.elem_get.
  - intros (Hne & key & data & Hget & Hid & Hown). split; [done|].
    exists data. split; [|done]. apply list_elem_of_fmap.
    exists (key, data). split; [done|]. by apply JsMapFacts.get_Some_elem.
Qed.

(** C7: the answer to getProducers goes to the caller and leaves the state
    alone; it lists, in the order of the producer registry and once per
    entry, the (producerId, socketId) pair of every entry whose owner is not
    the caller.  So a pair is in the answer exactly when the registry holds,
    under some key, a producer with that id and that owner, and the owner is
    not the caller; no pair of the answer names the caller.  And a
    successful produce sends newProducer to exactly the connected sockets
    other than the producer's. *)
Theorem exclusion_correctness socketId st :
  let answer :=
    (λ e, (producer_id (pd_producer e.2), pd_socketId e.2))
      <$> filter (λ e, pd_socketId e.2 ≠ socketId) (producers st) in
  exec (on_getProducers socketId) st
  = (st, [Callback socketId (ProducerList answer)])
  ∧ (JsMap.wf (producers st) →
     ∀ producerId owner,
       (producerId, owner) ∈ answer
       ↔ owner ≠ socketId
         ∧ ∃ key data, JsMap.get key (producers st) = Some data
                       ∧ producer_id (pd_producer data) = producerId
                       ∧ pd_socketId data = owner)
  ∧ (∀ producerId, (producerId, socketId) ∉ answer)
  ∧ (∀ kind rtpParameters producer r,
       is_Some (transports st !! producer_key socketId) →
       Emit r (newProducer (producer_id producer) socketId)
         ∈ (exec (on_produce socketId kind rtpParameters (Resolves producer)) st).2
       ↔ connected r st = true ∧ r ≠ socketId).
Proof.
  cbv zeta. rewrite <- producerList_entries. split_and!.
  - by rewrite on_getProducers_spec.
  - intros Hwf pid owner. by apply elem_of_producerList_get.
  - intros pid [Hne _]%elem_of_producerList. done.
  - intros kind rtp p r [t Ht]. rewrite on_produce_spec, Ht. cbv zeta. simpl.
    unfold connected. rewrite bool_decide_eq_true, <- elem_of_recipients.
    rewrite !elem_of_cons, elem_of_app, list_elem_of_fmap, list_elem_of_singleton.
    split.
    + intros [?|[?|[(r' & [= ->] & Hr)|?]]]; done.
    + intros Hr. right. right. left. by exists r.
Qed.

Lemma exclusion_correctness_witness :
  exec (on_getProducers "B") Scenario.live
  = (Scenario.live, [Callback "B" (ProducerList [("p1", "A")])])
  ∧ exec (on_getProducers "A") Scenario.live
    = (Scenario.live, [Callback "A" (ProducerList [])])
  ∧ (("p1", "A") ∈ [("p1", "A")]
     ↔ "A" ≠ "B"
       ∧ ∃ key data, JsMap.get key (producers Scenario.live) = Some data
                     ∧ producer_id (pd_producer data) = "p1"
                     ∧ pd_socketId data = "A")
  ∧ Emit "B" (newProducer "p2" "A")
      ∈ (exec (on_produce "A" "audio" "rtp"
                 (Resolves {| producer_id := "p2"; producer_kind := "audio" |}))
           Scenario.live).2.
Proof.
  split_and!.
  - apply (exclusion_correctness "B" Scenario.live).
  - apply (exclusion_correctness "A" Scenario.live).
  - destruct (exclusion_correctness "B" Scenario.live) as (_ & H & _).
    apply (H (proj1 (reachable_wf Scenario.live
                       (ex_intro _ Scenario.session eq_refl))) "p1" "A").
  - destruct (exclusion_correctness "A" Scenario.live) as (_ & _ & _ & H).
    apply (H "audio" "rtp" {| producer_id := "p2"; producer_kind := "audio" |}
             "B").
    + vm_compute. eexists. reflexivity.
    + split; [vm_compute; reflexivity | discriminate].
Defined.

(** ** The disconnect cascade *)

Lemma get_filter_kept {V} (owner : V → string) socketId k (m : JsMap.t V) v :
  JsMap.get k m = Some v → owner v ≠ socketId →
  JsMap.get k (filter (λ e, owner e.2 ≠ socketId) m) = Some v.
Proof.
  induction m as [|[k' v'] m IH]; [done|]. simpl. intros Hget HP.
  rewrite filter_cons. simpl. destruct (decide (k' = k)) as [->|Hne].
  - injection Hget as ->. rewrite decide_True by done. simpl.
    by rewrite decide_True.
  - destruct (decide (owner v' ≠ socketId)); simpl;
      [rewrite decide_False by done|]; by apply IH.
Qed.

Lemma get_filter_removed {V} (owner : V → string) socketId k (m : JsMap.t V) v :
  JsMap.wf m → JsMap.get k m = Some v → owner v = socketId →
  JsMap.get k (filter (λ e, owner e.2 ≠ socketId) m) = None.
Proof.
  intros Hwf Hget HP. apply JsMapFacts.get_None_keys.
  unfold JsMap.keys. intros ([k' v'] & -> & [HP' Hin]%list_elem_of_filter
                              )%list_elem_of_fmap.
  simpl in *. apply JsMapFacts.elem_get in Hin; [|done]. congruence.
Qed.

(** C1, as the claim states it, fails: when A, the owner of producer [p1],
    disconnects, the consumer [c1] that B holds on [p1] stays in the
    consumer registry, and the handler makes no close call on it. *)
Lemma consumer_of_departed_producer_stays :
  consumer_producerId Scenario.c1 = "p1"
  ∧ JsMap.get "p1" (producers Scenario.live)
    = Some {| pd_producer := Scenario.p1; pd_socketId := "A" |}
  ∧ (step (Disconnect "A") Scenario.live).2
    = [Engine (transport_close "tA"); TransportsDelete "A-producer";
       Engine (producer_close "p1"); ProducersDelete "p1";
       Emit "B" (producerClosed "p1")]
  ∧ JsMap.get "p1" (producers (step (Disconnect "A") Scenario.live).1) = None
  ∧ JsMap.get "c1" (consumers (step (Disconnect "A") Scenario.live).1)
    = Some {| cd_consumer := Scenario.c1; cd_socketId := "B" |}.
Proof. vm_compute. repeat split. Qed.

(** C1, amended: when the disconnect handler of a peer runs, on whatever
    state with distinct registry keys (so also on the state the event loop
    runs it on, where the socket has already left), every producer the peer
    owns is removed from the producer registry and every other connected
    peer is sent exactly one producerClosed with that producer's id; the
    consumers the disconnecting peer owns are closed and removed from the
    consumer registry; every consumer owned by another peer stays in the
    registry, whatever its source producer. *)
Theorem disconnect_releases_own_resources socketId st :
  wf_server st →
  let st' := (exec (on_disconnect socketId) st).1 in
  let log := (exec (on_disconnect socketId) st).2 in
  producers st' = filter (λ e, pd_socketId e.2 ≠ socketId) (producers st)
  ∧ consumers st' = filter (λ e, cd_socketId e.2 ≠ socketId) (consumers st)
  ∧ (∀ producerId data,
       JsMap.get producerId (producers st) = Some data →
       pd_socketId data = socketId →
       JsMap.get producerId (producers st') = None
       ∧ ∀ r, connected r st = true → r ≠ socketId →
              deliveries r (producerClosed producerId) log = 1)
  ∧ (∀ consumerId data,
       JsMap.get consumerId (consumers st) = Some data →
       cd_socketId data = socketId →
       JsMap.get consumerId (consumers st') = None
       ∧ Engine (consumer_close (consumer_id (cd_consumer data))) ∈ log)
  ∧ (∀ consumerId data,
       JsMap.get consumerId (consumers st) = Some data →
       cd_socketId data ≠ socketId →
       JsMap.get consumerId (consumers st') = Some data).
Proof.
  intros [Hp Hc]. cbv zeta.
  rewrite on_disconnect_spec by done. simpl. split_and!; [done | done | | |].
  - intros pid data Hget Hown. split.
    + by apply (get_filter_removed pd_socketId _ _ _ data).
    + intros r Hr Hne. unfold connected in Hr. apply bool_decide_eq_true in Hr.
      unfold teardown_log.
      rewrite !deliveries_app, !deliveries_transports_teardown,
        deliveries_consumers_teardown. simpl. rewrite Nat.add_0_r.
      apply (deliveries_producers_teardown _ _ data);
        [done | apply NoDup_recipients | by apply JsMapFacts.get_Some_elem
        | done | by apply elem_of_recipients].
  - intros cid data Hget Hown. split.
    + by apply (get_filter_removed cd_socketId _ _ _ data).
    + unfold teardown_log. rewrite !elem_of_app. do 3 right.
      unfold consumers_teardown_log. apply list_elem_of_bind.
      exists (cid, data). split; [|by apply JsMapFacts.get_Some_elem].
      simpl. rewrite decide_True by done. left.
  - intros cid data Hget Hown.
    by apply (get_filter_kept cd_socketId).
Qed.

Lemma disconnect_releases_own_resources_witness :
  JsMap.get "p1" (producers (step (Disconnect "A") Scenario.live).1) = None
  ∧ deliveries "B" (producerClosed "p1")
      (step (Disconnect "A") Scenario.live).2 = 1.
Proof.
  assert (wf_server (with_sockets (delete "A") Scenario.live)) as Hwf
    by (apply (reachable_wf Scenario.live); exists Scenario.session;
        reflexivity).
  destruct (disconnect_releases_own_resources "A"
              (with_sockets (delete "A") Scenario.live) Hwf)
    as (_ & _ & H & _).
  destruct (H "p1" {| pd_producer := Scenario.p1; pd_socketId := "A" |})
    as [Hgone Hsent]; [vm_compute; reflexivity | reflexivity |].
  split; [exact Hgone|].
  apply Hsent; [vm_compute; reflexivity | discriminate].
Defined.

(** ** Teardown is idempotent *)

Lemma filter_idemp {A} (P : A → Prop) `{!∀ x, Decision (P x)} (l : list A) :
  filter P (filter P l) = filter P l.
Proof.
  induction l as [|x l IH]; [done|]. rewrite filter_cons.
  destruct (decide (P x)); [|done]. by rewrite filter_cons, decide_True, IH.
Qed.

Lemma teardown_idemp socketId st :
  teardown socketId (teardown socketId st) = teardown socketId st.
Proof.
  unfold teardown. simpl. f_equal.
  - apply map_eq. intros k. rewrite !lookup_delete. by repeat case_decide.
  - apply filter_idemp.
  - apply filter_idemp.
Qed.

Lemma producers_teardown_log_nil socketId rcpts (entries : JsMap.t ProducerData) :
  producers_teardown_log socketId rcpts
    (filter (λ e, pd_socketId e.2 ≠ socketId) entries) = [].
Proof.
  unfold producers_teardown_log. induction entries as [|[k pd] rest IH]; [done|].
  rewrite filter_cons. simpl. destruct (decide (pd_socketId pd ≠ socketId)); [|done].
  rewrite bind_cons, IH. simpl. by rewrite decide_False.
Qed.

Lemma consumers_teardown_log_nil socketId (entries : JsMap.t ConsumerData) :
  consumers_teardown_log socketId
    (filter (λ e, cd_socketId e.2 ≠ socketId) entries) = [].
Proof.
  unfold consumers_teardown_log. induction entries as [|[k cd] rest IH]; [done|].
  rewrite filter_cons. simpl. destruct (decide (cd_socketId cd ≠ socketId)); [|done].
  rewrite bind_cons, IH. simpl. by rewrite decide_False.
Qed.

Lemma teardown_log_after_teardown socketId st :
  teardown_log socketId (teardown socketId st) = [].
Proof.
  unfold teardown_log, transports_teardown_log. simpl.
  rewrite lookup_delete_ne by (intros ?; by eapply producer_consumer_key_ne).
  rewrite !lookup_delete_eq. simpl.
  by rewrite producers_teardown_log_nil, consumers_teardown_log_nil.
Qed.

(** C5: on whatever state with distinct registry keys (so also on the
    state the event loop runs it on, where the socket has already left) the
    disconnect cascade of a peer completes normally, and running it again
    on the state it leaves completes normally, changes nothing and logs
    nothing: no broadcast, no engine call, no registry write. *)
Theorem teardown_idempotent socketId st :
  wf_server st →
  let once := exec (on_disconnect socketId) st in
  completion (on_disconnect socketId) st = Normal ()
  ∧ on_disconnect socketId once.1 = (Normal (), once.1, []).
Proof.
  intros [Hp Hc]. cbv zeta. unfold completion.
  rewrite on_disconnect_spec, on_disconnect_run by done. split; [done|]. simpl.
  rewrite on_disconnect_run by (simpl; by apply JsMapFacts.wf_filter).
  by rewrite teardown_idemp, teardown_log_after_teardown.
Qed.

Lemma teardown_idempotent_witness :
  on_disconnect "A" (step (Disconnect "A") Scenario.live).1
  = (Normal (), (step (Disconnect "A") Scenario.live).1, []).
Proof.
  apply (teardown_idempotent "A" (with_sockets (delete "A") Scenario.live)).
  apply (reachable_wf Scenario.live). exists Scenario.session. reflexivity.
Defined.

(** ** Broadcast after commit *)

Lemma silent_announced log : silent log → announced_after_commit log.
Proof.
  intros Hs i r p s Hi. eapply Forall_lookup_1 in Hs; [|done]. done.
Qed.

Lemma announced_after_commit_app l1 l2 :
  announced_after_commit l1 → announced_after_commit l2 →
  announced_after_commit (l1 ++ l2).
Proof.
  intros H1 H2 i r p s Hi. apply lookup_app_Some in Hi as [Hi|[Hlen Hi]].
  - destruct (H1 _ _ _ _ Hi) as (j & data & Hj & Hset).
    exists j, data. split; [done|]. by apply lookup_app_l_Some.
  - destruct (H2 _ _ _ _ Hi) as (j & data & Hj & Hset).
    exists (length l1 + j), data. split; [lia|].
    rewrite lookup_app_r by lia. by replace (length l1 + j - length l1) with j by lia.
Qed.

Lemma silent_teardown_log socketId st : silent (teardown_log socketId st).
Proof.
  unfold silent, teardown_log, transports_teardown_log.
  repeat apply Forall_app_2.
  - destruct (transports st !! _); by repeat constructor.
  - destruct (transports st !! _); by repeat constructor.
  - unfold producers_teardown_log. apply Forall_bind, Forall_forall.
    intros [k pd] _. simpl. destruct (decide _); [|done].
    do 2 (constructor; [done|]). by apply Forall_fmap, Forall_forall.
  - unfold consumers_teardown_log. apply Forall_bind, Forall_forall.
    intros [k cd] _. simpl. destruct (decide _); by repeat constructor.
Qed.

Lemma on_produce_announced socketId kind rtpParameters result st :
  announced_after_commit
    (exec (on_produce socketId kind rtpParameters result) st).2.
Proof.
  rewrite on_produce_spec.
  destruct (transports st !! producer_key socketId) as [t|];
    [destruct result as [p|m]|]; cbv zeta; simpl.
  - intros [|[|i]] r pid s Hi; [done | done |]. simpl in Hi.
    apply lookup_app_Some in Hi as [Hi|[_ Hi]].
    + apply list_lookup_fmap_Some in Hi as (r' & [= -> -> ->] & _).
      exists 1. eexists. split; [lia | done].
    + by destruct (i - _).
  - apply silent_announced. by repeat constructor.
  - apply silent_announced. by repeat constructor.
Qed.

Lemma handle_announced socketId req st :
  announced_after_commit (exec (handle socketId req) st).2.
Proof.
  destruct req as [caps|r|r|d r|d r|k p r|p c r|c r| |v]; cbn [handle];
    try apply on_produce_announced; apply silent_announced.
  - rewrite on_getRouterRtpCapabilities_spec. by repeat constructor.
  - rewrite on_createProducerTransport_spec. destruct r; by repeat constructor.
  - rewrite on_createConsumerTransport_spec. destruct r; by repeat constructor.
  - rewrite on_connectProducerTransport_spec. simpl.
    destruct (transports st !! _); by repeat constructor.
  - rewrite on_connectConsumerTransport_spec. simpl.
    destruct (transports st !! _); by repeat constructor.
  - rewrite on_consume_spec. cbv zeta.
    destruct (transports st !! _); [|by repeat constructor].
    destruct (JsMap.get p (producers st)); [|by repeat constructor].
    destruct (negb (truthy _)); [by repeat constructor|].
    destruct (negb c); [by repeat constructor|].
    destruct r; by repeat constructor.
  - rewrite on_resumeConsumer_spec. simpl.
    destruct (JsMap.get c (consumers st)); by repeat constructor.
  - rewrite on_getProducers_spec. by repeat constructor.
  - rewrite on_setRtpCapabilities_spec. by repeat constructor.
Qed.

Lemma step_announced ev st :
  wf_server st → announced_after_commit (step ev st).2.
Proof.
  intros [Hp Hc]. destruct ev as [s|s req|s]; unfold step;
    destruct (connected s st); try (apply silent_announced; by constructor).
  - apply handle_announced.
  - rewrite on_disconnect_spec by done. apply silent_announced, silent_teardown_log.
Qed.

Lemma run_announced evs : ∀ st,
  wf_server st → announced_after_commit (run evs st).2.
Proof.
  induction evs as [|ev evs IH]; intros st Hwf.
  - apply silent_announced. constructor.
  - rewrite run_cons. simpl. apply announced_after_commit_app.
    + by apply step_announced.
    + by apply IH, step_wf.
Qed.

(** C6: in the log of any run of the server from its initial state, each
    newProducer sent to a peer is preceded by the write that recorded that
    producer in the producer registry; and a produce request sends
    newProducer only when the engine created the producer, with that
    producer's id, after which the id is in the registry.  A produce that
    fails announces nothing. *)
Theorem broadcast_after_commit :
  (∀ evs, announced_after_commit (run evs init).2)
  ∧ (∀ socketId kind rtpParameters result st r producerId owner,
       Emit r (newProducer producerId owner)
         ∈ (exec (on_produce socketId kind rtpParameters result) st).2 →
       owner = socketId
       ∧ (∃ producer, result = Resolves producer
                      ∧ producer_id producer = producerId)
       ∧ is_Some (JsMap.get producerId
                    (producers
                       (exec (on_produce socketId kind rtpParameters result)
                          st).1))).
Proof.
  split.
  - intros evs. apply run_announced, wf_server_init.
  - intros s kind rtp result st r pid owner. rewrite on_produce_spec.
    destruct (transports st !! producer_key s) as [t|];
      [destruct result as [p|m]|]; cbv zeta; simpl.
    + rewrite !elem_of_cons, elem_of_app, list_elem_of_fmap,
        list_elem_of_singleton.
      intros [?|[?|[(r' & [= -> -> ->] & _)|?]]]; try done.
      split_and!; [done | by exists p |].
      rewrite JsMapFacts.get_set_eq. by eexists.
    + rewrite !elem_of_cons. intros [?|[?|?%elem_of_nil]]; done.
    + rewrite list_elem_of_singleton. done.
Qed.

Lemma broadcast_after_commit_witness :
  "A" = "A"
  ∧ (∃ producer,
       Resolves Scenario.p1 = Resolves producer ∧ producer_id producer = "p1")
  ∧ is_Some (JsMap.get "p1"
               (producers
                  (exec (on_produce "A" "video" "rtp" (Resolves Scenario.p1))
                     Scenario.no_capabilities).1)).
Proof.
  destruct broadcast_after_commit as [_ H].
  apply (H "A" "video" "rtp" (Resolves Scenario.p1) Scenario.no_capabilities "B").
  vm_compute. do 2 right. left.
Defined.

(** ** One transport per peer and direction *)

Lemma recorded_lookup key st :
  recorded key st = match transports st !! key with
                    | Some transport => [transport]
                    | None => []
                    end.
Proof.
  unfold recorded.
  set (l := filter (λ e, e.1 = key) (map_to_list (transports st))).
  assert (∀ k v, (k, v) ∈ l ↔ k = key ∧ transports st !! k = Some v) as Hl.
  { intros k v. unfold l. rewrite list_elem_of_filter, elem_of_map_to_list. done. }
  destruct (transports st !! key) as [t|] eqn:E.
  - assert (l = [(key, t)]) as ->; [|done].
    apply Permutation_singleton_r, NoDup_Permutation.
    + apply NoDup_filter, NoDup_map_to_list.
    + apply NoDup_singleton.
    + intros [k v]. rewrite Hl, list_elem_of_singleton. split.
      * intros [-> Hv]. congruence.
      * by intros [= -> ->].
  - destruct l as [|[k v] l']; [done|].
    destruct (proj1 (Hl k v)) as [-> Hv]; [left | congruence].
Qed.

Lemma step_keyed_by_peer ev st :
  wf_server st → keyed_by_peer st → keyed_by_peer (step ev st).1.
Proof.
  intros [Hp Hc] Hk. destruct ev as [s|s req|s]; unfold step;
    destruct (connected s st); try done.
  - destruct (handle_state s req st)
      as [->|[[t ->]|[[t ->]|[[p ->]|[[c ->]|(v & _ & ->)]]]]]; try done.
    + intros key. simpl. rewrite lookup_insert. case_decide; [subst; eauto|].
      apply Hk.
    + intros key. simpl. rewrite lookup_insert. case_decide; [subst; eauto|].
      apply Hk.
  - rewrite on_disconnect_spec by done. intros key. simpl.
    rewrite !lookup_delete. repeat case_decide; try by intros [? ?].
    apply Hk.
Qed.

(** C9: after any sequence of events, at most one transport is recorded as
    a peer's send transport and at most one as its receive transport, and
    every entry of the registry is the send or receive transport of some
    peer; the keys of distinct peers or directions differ; a
    create*Transport that succeeds puts the new transport in place of the
    one recorded under the peer's key for that direction, leaves all other
    entries alone, and closes no transport. *)
Theorem transport_uniqueness :
  (∀ evs socketId,
     (length (recorded (producer_key socketId) (run evs init).1) ≤ 1)%nat
     ∧ (length (recorded (consumer_key socketId) (run evs init).1) ≤ 1)%nat)
  ∧ (∀ evs, keyed_by_peer (run evs init).1)
  ∧ (∀ s1 s2, (producer_key s1 = producer_key s2 → s1 = s2)
              ∧ (consumer_key s1 = consumer_key s2 → s1 = s2)
              ∧ producer_key s1 ≠ consumer_key s2)
  ∧ (∀ socketId transport st,
       let r := exec (on_createProducerTransport socketId (Resolves transport))
                  st in
       recorded (producer_key socketId) r.1 = [transport]
       ∧ (∀ key, key ≠ producer_key socketId →
                 transports r.1 !! key = transports st !! key)
       ∧ (∀ id, Engine (transport_close id) ∉ r.2))
  ∧ (∀ socketId transport st,
       let r := exec (on_createConsumerTransport socketId (Resolves transport))
                  st in
       recorded (consumer_key socketId) r.1 = [transport]
       ∧ (∀ key, key ≠ consumer_key socketId →
                 transports r.1 !! key = transports st !! key)
       ∧ (∀ id, Engine (transport_close id) ∉ r.2)).
Proof.
  split_and!.
  - intros evs s. rewrite !recorded_lookup.
    split; destruct (transports _ !! _); simpl; lia.
  - intros evs.
    apply (run_invariant keyed_by_peer evs init wf_server_init).
    + by intros key [? ?].
    + intros ev st _. apply step_keyed_by_peer.
  - intros s1 s2. split_and!;
      [apply producer_key_inj | apply consumer_key_inj
      | apply producer_consumer_key_ne].
  - intros s t st. cbv zeta. rewrite on_createProducerTransport_spec. simpl.
    split_and!.
    + rewrite recorded_lookup. simpl. by rewrite lookup_insert_eq.
    + intros key Hne. by rewrite lookup_insert_ne.
    + intros id. rewrite !elem_of_cons. intros [?|[?|[?|?%elem_of_nil]]]; done.
  - intros s t st. cbv zeta. rewrite on_createConsumerTransport_spec. simpl.
    split_and!.
    + rewrite recorded_lookup. simpl. by rewrite lookup_insert_eq.
    + intros key Hne. by rewrite lookup_insert_ne.
    + intros id. rewrite !elem_of_cons. intros [?|[?|[?|?%elem_of_nil]]]; done.
Qed.

Lemma transport_uniqueness_witness :
  recorded "A-producer" Scenario.live = [Scenario.tA]
  ∧ recorded "A-producer"
      (exec (on_createProducerTransport "A" (Resolves Scenario.tB))
         Scenario.live).1 = [Scenario.tB]
  ∧ transports
      (exec (on_createProducerTransport "A" (Resolves Scenario.tB))
         Scenario.live).1 !! "B-consumer"
    = transports Scenario.live !! "B-consumer".
Proof.
  destruct transport_uniqueness as (_ & _ & _ & H & _).
  destruct (H "A" Scenario.tB Scenario.live) as (Hnew & Hother & _).
  split_and!.
  - vm_compute. reflexivity.
  - exact Hnew.
  - apply Hother. vm_compute. discriminate.
Defined.

(** ** Capability gating of [consume] *)

Lemma step_capabilities_unset socketId ev st :
  wf_server st →
  (∀ v, ev ≠ Message socketId (setRtpCapabilities v)) →
  capabilities_of socketId st = JsUndefined →
  capabilities_of socketId (step ev st).1 = JsUndefined.
Proof.
  intros [Hp Hc] Hev Hst. unfold capabilities_of in *.
  destruct ev as [s|s req|s]; unfold step;
    destruct (connected s st) eqn:Hconn; try done.
  - simpl. rewrite lookup_insert. by case_decide.
  - destruct (handle_state s req st)
      as [->|[[t ->]|[[t ->]|[[p ->]|[[c ->]|(v & -> & ->)]]]]]; try done.
    simpl. rewrite lookup_insert_ne; [done|]. intros ->. by eapply Hev.
  - rewrite on_disconnect_spec by done. simpl. rewrite lookup_delete.
    by case_decide.
Qed.

Lemma run_capabilities_unset socketId evs :
  never_set_capabilities socketId evs →
  capabilities_of socketId (run evs init).1 = JsUndefined.
Proof.
  intros Hnever.
  apply (run_invariant (λ st, capabilities_of socketId st = JsUndefined)
           evs init wf_server_init); [done|].
  intros ev st Hin Hwf. apply step_capabilities_unset; [done|].
  intros v ->. by eapply Hnever.
Qed.

(** C3, as the claim states it, fails: a peer that never called
    setRtpCapabilities and has no receive transport is answered
    transport-not-found, not capabilities-unset; and a peer that set its
    capabilities to [null], which the engine finds incompatible, is
    answered capabilities-unset, not incompatible. *)
Lemma consume_before_capabilities_other_error :
  (run [Connection "A";
        Message "A" (consume "p1" true (Resolves Scenario.c1))] init).2
  = [Callback "A" (Error "Consumer transport not found")]
  ∧ (step (Message "B" (consume "p1" false (Resolves Scenario.c1)))
       (step (Message "B" (setRtpCapabilities JsNull)) Scenario.live).1).2
    = [Callback "B" (Error "RTP capabilities not set")].
Proof. vm_compute. split; reflexivity. Qed.

(** C3, amended: a consume request of a peer that has not called
    setRtpCapabilities since the server started always fails, leaving the
    state unchanged, and the error is capabilities-unset whenever the peer
    has a receive transport and the producer exists (the transport and
    producer checks come first); after the peer sets capabilities that are
    a truthy value and that the engine finds incompatible with the
    producer, a consume with receive transport and producer present fails
    with the incompatible-capabilities error. *)
Theorem capability_gating socketId producerId result :
  (∀ evs canConsume,
     never_set_capabilities socketId evs →
     let st := (run evs init).1 in
     ∃ message,
       exec (on_consume socketId producerId canConsume result) st
       = (st, [Callback socketId (Error message)])
       ∧ (is_Some (transports st !! consumer_key socketId) →
          is_Some (JsMap.get producerId (producers st)) →
          message = "RTP capabilities not set"))
  ∧ (∀ st rtpCapabilities,
       connected socketId st = true →
       truthy rtpCapabilities = true →
       is_Some (transports st !! consumer_key socketId) →
       is_Some (JsMap.get producerId (producers st)) →
       let st1 := (step (Message socketId (setRtpCapabilities rtpCapabilities))
                     st).1 in
       exec (on_consume socketId producerId false result) st1
       = (st1, [Callback socketId
                  (Error "Cannot consume - incompatible RTP capabilities")])).
Proof.
  split.
  - intros evs can Hnever. cbv zeta.
    pose proof (run_capabilities_unset socketId evs Hnever) as Hcaps.
    unfold capabilities_of in Hcaps.
    rewrite on_consume_spec. cbv zeta. rewrite Hcaps. simpl.
    destruct (transports _ !! consumer_key socketId) as [t|].
    + destruct (JsMap.get producerId _) as [pd|].
      * by eexists.
      * eexists. split; [done|]. by intros _ [? ?].
    + eexists. split; [done|]. by intros [? ?].
  - intros st v Hconn Hv [t Ht] [pd Hpd]. unfold step. rewrite Hconn.
    cbn [handle]. rewrite on_setRtpCapabilities_spec. cbv zeta. simpl.
    rewrite on_consume_spec. cbv zeta. simpl.
    by rewrite Ht, Hpd, lookup_insert_eq; simpl; rewrite Hv.
Qed.

Lemma capability_gating_witness :
  (∃ message,
     exec (on_consume "B" "p1" true (Resolves Scenario.c1))
       Scenario.no_capabilities
     = (Scenario.no_capabilities, [Callback "B" (Error message)])
     ∧ (is_Some (transports Scenario.no_capabilities !! consumer_key "B") →
        is_Some (JsMap.get "p1" (producers Scenario.no_capabilities)) →
        message = "RTP capabilities not set"))
  ∧ exec (on_consume "B" "p1" false (Resolves Scenario.c1))
      (step (Message "B" (setRtpCapabilities (JsObject "{audio}")))
         Scenario.no_capabilities).1
    = ((step (Message "B" (setRtpCapabilities (JsObject "{audio}")))
          Scenario.no_capabilities).1,
       [Callback "B" (Error "Cannot consume - incompatible RTP capabilities")]).
Proof.
  destruct (capability_gating "B" "p1" (Resolves Scenario.c1)) as [H1 H2].
  split.
  - apply (H1 [Connection "A"; Connection "B";
               Message "A" (createProducerTransport (Resolves Scenario.tA));
               Message "A" (produce "video" "rtp" (Resolves Scenario.p1));
               Message "B" (createConsumerTransport (Resolves Scenario.tB))]
             true).
    intros v Hin. vm_compute in Hin.
    repeat (apply elem_of_cons in Hin as [Hin|Hin]; [discriminate|]).
    by apply elem_of_nil in Hin.
  - apply (H2 Scenario.no_capabilities (JsObject "{audio}")).
    + vm_compute. reflexivity.
    + reflexivity.
    + vm_compute. eexists. reflexivity.
    + vm_compute. eexists. reflexivity.
Defined.

(** * Further properties of the server *)

(** ** Replies *)


(** ** When [produce] and [consume] succeed *)

(** A produce request is answered with a producer id exactly when the peer
    has a send transport and the engine creates the producer, and the id is
    the engine's.  The producer is then registered under that id with the
    peer as owner, every other registry entry is what it was, and transports,
    consumers and sockets are untouched.  Without a send transport the
    request is answered with the transport-not-found error, the engine is not
    called and nothing changes. *)
Theorem produce_succeeds_iff socketId kind rtpParameters result st :
  let r := exec (on_produce socketId kind rtpParameters result) st in
  (∀ id, Callback socketId (Produced id) ∈ r.2
         ↔ is_Some (transports st !! producer_key socketId)
           ∧ ∃ producer, result = Resolves producer ∧ producer_id producer = id)
  ∧ (∀ producer,
       is_Some (transports st !! producer_key socketId) →
       result = Resolves producer →
       JsMap.get (producer_id producer) (producers r.1)
       = Some {| pd_producer := producer; pd_socketId := socketId |}
       ∧ (∀ other, other ≠ producer_id producer →
                   JsMap.get other (producers r.1)
                   = JsMap.get other (producers st))
       ∧ transports r.1 = transports st
       ∧ consumers r.1 = consumers st
       ∧ sockets r.1 = sockets st)
  ∧ (transports st !! producer_key socketId = None →
     r = (st, [Callback socketId (Error "Producer transport not found")])).
Proof.
  cbv zeta. rewrite on_produce_spec. split_and!.
  - intros id. destruct (transports st !! _) as [t|];
      [destruct result as [p|m]|]; cbv zeta; simpl.
    + rewrite !elem_of_cons, elem_of_app, list_elem_of_fmap,
        list_elem_of_singleton. split.
      * intros [?|[?|[(? & ? & _)|[= ->]]]]; try done. split; [by eexists|eauto].
      * intros [_ (p' & Hp & Hid)]. injection Hp as <-. subst id. auto.
    + rewrite !elem_of_cons. split.
      * intros [?|[?|?%elem_of_nil]]; done.
      * by intros [_ (? & ? & _)].
    + rewrite list_elem_of_singleton. split; [done|]. by intros [[? ?] _].
  - intros p [t ->] ->. cbv zeta. simpl. split_and!; try done.
    + apply JsMapFacts.get_set_eq.
    + intros other Hne. by apply JsMapFacts.get_set_ne.
  - by intros ->.
Qed.

Lemma produce_succeeds_iff_witness :
  JsMap.get "p2"
    (producers
       (exec (on_produce "A" "audio" "rtp"
                (Resolves {| producer_id := "p2"; producer_kind := "audio" |}))
          Scenario.live).1)
  = Some {| pd_producer := {| producer_id := "p2"; producer_kind := "audio" |};
            pd_socketId := "A" |}
  ∧ exec (on_produce "B" "audio" "rtp"
            (Resolves {| producer_id := "p2"; producer_kind := "audio" |}))
      Scenario.live
    = (Scenario.live, [Callback "B" (Error "Producer transport not found")]).
Proof.
  split.
  - destruct (produce_succeeds_iff "A" "audio" "rtp"
                (Resolves {| producer_id := "p2"; producer_kind := "audio" |})
                Scenario.live) as (_ & H & _).
    apply (H {| producer_id := "p2"; producer_kind := "audio" |});
      [vm_compute; eexists; reflexivity | reflexivity].
  - destruct (produce_succeeds_iff "B" "audio" "rtp"
                (Resolves {| producer_id := "p2"; producer_kind := "audio" |})
                Scenario.live) as (_ & _ & H).
    apply H. vm_compute. reflexivity.
Defined.

(** A consume request is answered with a consumer exactly when the peer has
    a receive transport, the producer is registered, the peer's capabilities
    are truthy, the engine finds them compatible and the engine creates the
    consumer.  The engine is then asked for a paused consumer on the peer's
    own receive transport with the peer's stored capabilities, the consumer
    is registered under its id with the peer as owner, and a resumeConsumer
    naming that id is answered with success when the engine resumes it. *)
Theorem consume_succeeds_iff socketId producerId canConsume result st :
  let r := exec (on_consume socketId producerId canConsume result) st in
  let rtpCapabilities := default JsUndefined (sockets st !! socketId) in
  ((∃ id kind rtpParameters,
      Callback socketId (Consumed id producerId kind rtpParameters) ∈ r.2)
   ↔ is_Some (transports st !! consumer_key socketId)
     ∧ is_Some (JsMap.get producerId (producers st))
     ∧ truthy rtpCapabilities = true
     ∧ canConsume = true
     ∧ ∃ consumer, result = Resolves consumer)
  ∧ (∀ transport consumer,
       transports st !! consumer_key socketId = Some transport →
       is_Some (JsMap.get producerId (producers st)) →
       truthy rtpCapabilities = true →
       canConsume = true →
       result = Resolves consumer →
       let data := {| cd_consumer := consumer; cd_socketId := socketId |} in
       r.2 = [Engine (transport_consume (transport_id transport) producerId
                                        rtpCapabilities true);
              ConsumersSet (consumer_id consumer) data;
              Callback socketId
                (Consumed (consumer_id consumer) producerId
                          (consumer_kind consumer)
                          (consumer_rtpParameters consumer))]
       ∧ JsMap.get (consumer_id consumer) (consumers r.1) = Some data
       ∧ producers r.1 = producers st
       ∧ transports r.1 = transports st
       ∧ exec (on_resumeConsumer socketId (consumer_id consumer) (Resolves ()))
           r.1
         = (r.1, [Engine (consumer_resume (consumer_id consumer));
                  Callback socketId Success])).
Proof.
  cbv zeta. rewrite on_consume_spec. cbv zeta. split.
  - destruct (transports st !! _) as [t|]; cycle 1.
    { split; [|by intros ([? ?] & _)].
      intros (? & ? & ? & [=]%list_elem_of_singleton). }
    destruct (JsMap.get producerId (producers st)) as [pd|]; cycle 1.
    { split; [|by intros (_ & [? ?] & _)].
      intros (? & ? & ? & [=]%list_elem_of_singleton). }
    destruct (truthy _); simpl; cycle 1.
    { split; [|by intros (_ & _ & ? & _)].
      intros (? & ? & ? & [=]%list_elem_of_singleton). }
    destruct canConsume; simpl; cycle 1.
    { split; [|by intros (_ & _ & _ & ? & _)].
      intros (? & ? & ? & [=]%list_elem_of_singleton). }
    destruct result as [c|m]; simpl.
    + split; [intros _; split_and!; eauto|]. intros _.
      eexists _, _, _. do 2 right. left.
    + split; [|by intros (_ & _ & _ & _ & ? & ?)].
      intros (? & ? & ? & Hin). rewrite !elem_of_cons in Hin.
      destruct Hin as [?|[?|?%elem_of_nil]]; done.
  - intros t c -> [pd ->] -> -> ->. cbv zeta. simpl. split_and!; try done.
    + apply JsMapFacts.get_set_eq.
    + rewrite on_resumeConsumer_spec. simpl.
      by rewrite JsMapFacts.get_set_eq.
Qed.

Lemma consume_succeeds_iff_witness :
  JsMap.get "c2"
    (consumers
       (exec (on_consume "B" "p1" true
                (Resolves {| consumer_id := "c2"; consumer_producerId := "p1";
                             consumer_kind := "video";
                             consumer_rtpParameters := "rtp" |}))
          Scenario.live).1)
  = Some {| cd_consumer := {| consumer_id := "c2"; consumer_producerId := "p1";
                              consumer_kind := "video";
                              consumer_rtpParameters := "rtp" |};
            cd_socketId := "B" |}.
Proof.
  destruct (consume_succeeds_iff "B" "p1" true
              (Resolves {| consumer_id := "c2"; consumer_producerId := "p1";
                           consumer_kind := "video";
                           consumer_rtpParameters := "rtp" |})
              Scenario.live) as [_ H].
  apply (H Scenario.tB
           {| consumer_id := "c2"; consumer_producerId := "p1";
              consumer_kind := "video"; consumer_rtpParameters := "rtp" |}).
  - vm_compute. reflexivity.
  - vm_compute. eexists. reflexivity.
  - vm_compute. reflexivity.
  - reflexivity.
  - reflexivity.
Defined.

(** ** Ownership of registry entries: one event *)

Lemma get_filter_Some {V} (owner : V → string) socketId k (m : JsMap.t V) v :
  JsMap.wf m →
  JsMap.get k (filter (λ e, owner e.2 ≠ socketId) m) = Some v →
  JsMap.get k m = Some v ∧ owner v ≠ socketId.
Proof.
  intros Hwf Hget. destruct (JsMap.get k m) as [v'|] eqn:E.
  - destruct (decide (owner v' = socketId)) as [Heq|Hne].
    + by rewrite (get_filter_removed owner _ _ _ v') in Hget.
    + rewrite (get_filter_kept owner _ _ _ v') in Hget by done.
      by injection Hget as ->.
  - apply JsMapFacts.get_None_keys in E.
    apply JsMapFacts.get_Some_elem, list_elem_of_filter in Hget as [_ Hin].
    destruct E. apply list_elem_of_fmap. by exists (k, v).
Qed.

Lemma connected_insert s s' v st :
  connected s st = true →
  connected s (with_sockets (<[s' := v]>) st) = true.
Proof.
  unfold connected. rewrite !bool_decide_eq_true. simpl.
  rewrite lookup_insert. by case_decide.
Qed.

Lemma connected_insert_eq s v st :
  connected s (with_sockets (<[s := v]>) st) = true.
Proof.
  unfold connected. rewrite bool_decide_eq_true. simpl.
  by rewrite lookup_insert_eq.
Qed.

Lemma connected_delete_ne s s' st :
  s ≠ s' → connected s st = true →
  connected s (with_sockets (delete s') st) = true.
Proof.
  unfold connected. rewrite !bool_decide_eq_true. simpl. intros Hne.
  by rewrite lookup_delete_ne.
Qed.

Lemma step_owned_by_connected ev st :
  wf_server st → owned_by_connected st → owned_by_connected (step ev st).1.
Proof.
  intros [Hp Hc] (Ht & Hpr & Hco).
  destruct ev as [s|s req|s]; unfold step;
    destruct (connected s st) eqn:Hconn; try done.
  - simpl. split_and!.
    + intros key Hkey. destruct (Ht key Hkey) as (s' & ? & ?).
      exists s'. split; [by apply connected_insert | done].
    + intros pid data Hget. destruct (Hpr pid data Hget).
      split; [done | by apply connected_insert].
    + intros cid data Hget. destruct (Hco cid data Hget).
      split; [done | by apply connected_insert].
  - destruct (handle_state s req st)
      as [->|[[t ->]|[[t ->]|[[p ->]|[[c ->]|(v & _ & ->)]]]]]; try done.
    + split_and!; [|done|done]. intros key. simpl. rewrite lookup_insert.
      case_decide; [subst; eauto | apply Ht].
    + split_and!; [|done|done]. intros key. simpl. rewrite lookup_insert.
      case_decide; [subst; eauto | apply Ht].
    + split_and!; [done| |done]. intros pid data. simpl.
      destruct (decide (producer_id p = pid)) as [<-|Hne].
      * rewrite JsMapFacts.get_set_eq. by intros [= <-].
      * rewrite JsMapFacts.get_set_ne by done. apply Hpr.
    + split_and!; [done|done|]. intros cid data. simpl.
      destruct (decide (consumer_id c = cid)) as [<-|Hne].
      * rewrite JsMapFacts.get_set_eq. by intros [= <-].
      * rewrite JsMapFacts.get_set_ne by done. apply Hco.
    + split_and!.
      * intros key Hkey. destruct (Ht key Hkey) as (s' & ? & ?).
        exists s'. split; [by apply connected_insert | done].
      * intros pid data Hget. destruct (Hpr pid data Hget).
        split; [done | by apply connected_insert].
      * intros cid data Hget. destruct (Hco cid data Hget).
        split; [done | by apply connected_insert].
  - rewrite on_disconnect_spec by done. split_and!.
    + intros key. simpl. rewrite !lookup_delete.
      repeat case_decide; try by intros [? ?].
      intros Hkey. destruct (Ht key Hkey) as (s' & Hs' & Hk).
      exists s'. split; [|done].
      assert (s' ≠ s) by (intros ->; by destruct Hk).
      unfold connected in *. rewrite bool_decide_eq_true in *. simpl.
      by rewrite lookup_delete_ne.
    + intros pid data. simpl.
      intros [Hget Hne]%(get_filter_Some pd_socketId); [|done].
      destruct (Hpr pid data Hget) as [-> Hown]. split; [done|].
      unfold connected in *. rewrite bool_decide_eq_true in *. simpl.
      by rewrite lookup_delete_ne.
    + intros cid data. simpl.
      intros [Hget Hne]%(get_filter_Some cd_socketId); [|done].
      destruct (Hco cid data Hget) as [-> Hown]. split; [done|].
      unfold connected in *. rewrite bool_decide_eq_true in *. simpl.
      by rewrite lookup_delete_ne.
Qed.

(** ** From produce to disconnect: what getProducers shows *)



(** ** What a request never does *)

(** No request releases anything: after any request every transport key,
    producer id and consumer id that was recorded is still recorded, every
    connected socket is still connected, and the handler neither deletes a
    registry entry nor closes an engine handle.  Only a disconnect does. *)
Theorem request_releases_nothing socketId req st :
  let r := exec (handle socketId req) st in
  (∀ key, is_Some (transports st !! key) → is_Some (transports r.1 !! key))
  ∧ (∀ id, is_Some (JsMap.get id (producers st)) →
           is_Some (JsMap.get id (producers r.1)))
  ∧ (∀ id, is_Some (JsMap.get id (consumers st)) →
           is_Some (JsMap.get id (consumers r.1)))
  ∧ (∀ s, connected s st = true → connected s r.1 = true)
  ∧ Forall (λ a, is_release a = false) r.2.
Proof.
  cbv zeta. split_and!.
  - intros key Hkey. destruct (handle_state socketId req st)
      as [->|[[t ->]|[[t ->]|[[p ->]|[[c ->]|(v & _ & ->)]]]]]; try done;
      simpl; rewrite lookup_insert; by case_decide.
  - intros id Hid. destruct (handle_state socketId req st)
      as [->|[[t ->]|[[t ->]|[[p ->]|[[c ->]|(v & _ & ->)]]]]]; try done.
    simpl. destruct (decide (producer_id p = id)) as [<-|Hne].
    + by rewrite JsMapFacts.get_set_eq.
    + by rewrite JsMapFacts.get_set_ne.
  - intros id Hid. destruct (handle_state socketId req st)
      as [->|[[t ->]|[[t ->]|[[p ->]|[[c ->]|(v & _ & ->)]]]]]; try done.
    simpl. destruct (decide (consumer_id c = id)) as [<-|Hne].
    + by rewrite JsMapFacts.get_set_eq.
    + by rewrite JsMapFacts.get_set_ne.
  - intros s Hs. destruct (handle_state socketId req st)
      as [->|[[t ->]|[[t ->]|[[p ->]|[[c ->]|(v & _ & ->)]]]]]; try done.
    by apply connected_insert.
  - destruct req as [caps|r|r|d r|d r|k p r|p c r|c r| |v]; cbn [handle].
    + rewrite on_getRouterRtpCapabilities_spec. by repeat constructor.
    + rewrite on_createProducerTransport_spec. destruct r; by repeat constructor.
    + rewrite on_createConsumerTransport_spec. destruct r; by repeat constructor.
    + rewrite on_connectProducerTransport_spec. simpl.
      destruct (transports st !! _); by repeat constructor.
    + rewrite on_connectConsumerTransport_spec. simpl.
      destruct (transports st !! _); by repeat constructor.
    + rewrite on_produce_spec.
      destruct (transports st !! _); [destruct r|]; cbv zeta; simpl;
        try by repeat constructor.
      do 2 (constructor; [done|]). apply Forall_app. split.
      * by apply Forall_fmap, Forall_forall.
      * by repeat constructor.
    + rewrite on_consume_spec. cbv zeta.
      destruct (transports st !! _); [|by repeat constructor].
      destruct (JsMap.get p (producers st)); [|by repeat constructor].
      destruct (negb (truthy _)); [by repeat constructor|].
      destruct (negb c); [by repeat constructor|].
      destruct r; by repeat constructor.
    + rewrite on_resumeConsumer_spec. simpl.
      destruct (JsMap.get c (consumers st)); by repeat constructor.
    + rewrite on_getProducers_spec. by repeat constructor.
    + rewrite on_setRtpCapabilities_spec. by repeat constructor.
Qed.

Lemma request_releases_nothing_witness :
  is_Some (transports
             (exec (handle "A" (createProducerTransport (Resolves Scenario.tB)))
                Scenario.live).1 !! "B-consumer").
Proof.
  apply (request_releases_nothing "A"
           (createProducerTransport (Resolves Scenario.tB)) Scenario.live).
  vm_compute. eexists. reflexivity.
Defined.

(** ** More on the disconnect cascade *)

(** When a peer disconnects, each transport recorded for it is closed on
    the engine and its key removed, so no transport is recorded for it
    afterwards; the transports of all other peers and all capabilities are
    untouched. *)
Theorem disconnect_closes_transports socketId st :
  wf_server st →
  let r := exec (on_disconnect socketId) st in
  transports r.1 !! producer_key socketId = None
  ∧ transports r.1 !! consumer_key socketId = None
  ∧ (∀ other direction,
       other ≠ socketId →
       direction = producer_key ∨ direction = consumer_key →
       transports r.1 !! direction other = transports st !! direction other)
  ∧ (∀ direction transport,
       direction = producer_key ∨ direction = consumer_key →
       transports st !! direction socketId = Some transport →
       Engine (transport_close (transport_id transport)) ∈ r.2
       ∧ TransportsDelete (direction socketId) ∈ r.2)
  ∧ sockets r.1 = sockets st.
Proof.
  intros [Hp Hc]. cbv zeta. rewrite on_disconnect_spec by done. simpl.
  split_and!.
  - rewrite lookup_delete_ne by (intros ?; by eapply producer_consumer_key_ne).
    apply lookup_delete_eq.
  - apply lookup_delete_eq.
  - intros other direction Hne [-> | ->].
    + rewrite lookup_delete_ne
        by (intros ?; by eapply producer_consumer_key_ne).
      rewrite lookup_delete_ne; [done|]. by intros ?%producer_key_inj.
    + rewrite lookup_delete_ne by by intros ?%consumer_key_inj.
      rewrite lookup_delete_ne; [done|]. apply producer_consumer_key_ne.
  - intros direction t [-> | ->] Ht; unfold teardown_log, transports_teardown_log;
      rewrite Ht, !elem_of_app, !elem_of_cons; auto 10.
  - done.
Qed.

Lemma disconnect_closes_transports_witness :
  Engine (transport_close (transport_id Scenario.tB))
    ∈ (exec (on_disconnect "B") Scenario.live).2
  ∧ TransportsDelete (consumer_key "B")
      ∈ (exec (on_disconnect "B") Scenario.live).2.
Proof.
  assert (wf_server Scenario.live) as Hwf
    by (apply reachable_wf; exists Scenario.session; reflexivity).
  destruct (disconnect_closes_transports "B" Scenario.live Hwf)
    as (_ & _ & _ & H & _).
  apply (H consumer_key Scenario.tB); [by right | vm_compute; reflexivity].
Defined.

(** A disconnect notifies sparingly: it calls no callback, and everything
    it emits is a producerClosed for a producer the departing peer owned,
    sent to a connected socket other than the departing one. *)
Theorem disconnect_notifies_only_closures socketId st :
  wf_server st →
  let log := (exec (on_disconnect socketId) st).2 in
  Forall (λ a, is_callback a = false) log
  ∧ ∀ recipient event,
      Emit recipient event ∈ log →
      recipient ≠ socketId
      ∧ connected recipient st = true
      ∧ ∃ producerId data,
          event = producerClosed producerId
          ∧ JsMap.get producerId (producers st) = Some data
          ∧ pd_socketId data = socketId.
Proof.
  intros [Hp Hc]. cbv zeta. rewrite on_disconnect_spec by done. simpl.
  unfold teardown_log, transports_teardown_log. split.
  - repeat apply Forall_app_2.
    + destruct (transports st !! _); by repeat constructor.
    + destruct (transports st !! _); by repeat constructor.
    + unfold producers_teardown_log. apply Forall_bind, Forall_forall.
      intros [k pd] _. simpl. destruct (decide _); [|done].
      do 2 (constructor; [done|]). by apply Forall_fmap, Forall_forall.
    + unfold consumers_teardown_log. apply Forall_bind, Forall_forall.
      intros [k cd] _. simpl. destruct (decide _); by repeat constructor.
  - intros recipient event. rewrite !elem_of_app.
    intros [Hin|[Hin|[Hin|Hin]]].
    + destruct (transports st !! _); [|by apply elem_of_nil in Hin].
      rewrite !elem_of_cons in Hin. destruct Hin as [?|[?|?%elem_of_nil]]; done.
    + destruct (transports st !! _); [|by apply elem_of_nil in Hin].
      rewrite !elem_of_cons in Hin. destruct Hin as [?|[?|?%elem_of_nil]]; done.
    + unfold producers_teardown_log in Hin.
      apply list_elem_of_bind in Hin as ([k pd] & Hin & Hentry). simpl in Hin.
      destruct (decide _) as [Hown|]; [|by apply elem_of_nil in Hin].
      rewrite !elem_of_cons, list_elem_of_fmap in Hin.
      destruct Hin as [?|[?|(r' & [= -> ->] & Hr')]]; try done.
      apply elem_of_recipients in Hr' as [Hr' Hne]. split_and!; [done| |].
      * unfold connected. by apply bool_decide_eq_true.
      * exists k, pd. split_and!; [done| |done]. by apply JsMapFacts.elem_get.
    + unfold consumers_teardown_log in Hin.
      apply list_elem_of_bind in Hin as ([k cd] & Hin & _). simpl in Hin.
      destruct (decide _); [|by apply elem_of_nil in Hin].
      rewrite !elem_of_cons in Hin. destruct Hin as [?|[?|?%elem_of_nil]]; done.
Qed.

Lemma disconnect_notifies_only_closures_witness :
  Forall (λ a, is_callback a = false) (exec (on_disconnect "A") Scenario.live).2.
Proof.
  apply (disconnect_notifies_only_closures "A" Scenario.live).
  apply reachable_wf. exists Scenario.session. reflexivity.
Defined.

(** ** Capabilities *)

(** setRtpCapabilities stores the value for the sending socket only, gives
    no reply and leaves the registries alone; a later call replaces the
    earlier value, so the engine is asked to consume with the capabilities
    sent last. *)
Theorem capabilities_last_write_wins socketId first last st :
  let once := (exec (on_setRtpCapabilities socketId first) st).1 in
  let r := exec (on_setRtpCapabilities socketId last) once in
  r.2 = []
  ∧ sockets r.1 !! socketId = Some last
  ∧ (∀ other, other ≠ socketId → sockets r.1 !! other = sockets st !! other)
  ∧ transports r.1 = transports st
  ∧ producers r.1 = producers st
  ∧ consumers r.1 = consumers st
  ∧ r.1 = (exec (on_setRtpCapabilities socketId last) st).1
  ∧ ∀ producerId transport consumer,
      transports st !! consumer_key socketId = Some transport →
      is_Some (JsMap.get producerId (producers st)) →
      truthy last = true →
      Engine (transport_consume (transport_id transport) producerId last true)
        ∈ (exec (on_consume socketId producerId true (Resolves consumer)) r.1).2.
Proof.
  cbv zeta. rewrite !on_setRtpCapabilities_spec. simpl. split_and!; try done.
  - apply lookup_insert_eq.
  - intros other Hne. by rewrite !lookup_insert_ne.
  - unfold with_sockets. simpl. by rewrite insert_insert_eq.
  - intros pid t c Ht [pd Hpd] Hlast. rewrite on_consume_spec. cbv zeta. simpl.
    rewrite Ht, Hpd, lookup_insert_eq. simpl. rewrite Hlast. simpl. left.
Qed.

Lemma capabilities_last_write_wins_witness :
  Engine (transport_consume "tB" "p1" (JsObject "{new}") true)
    ∈ (exec (on_consume "B" "p1" true (Resolves Scenario.c1))
         (exec (on_setRtpCapabilities "B" (JsObject "{new}"))
            (exec (on_setRtpCapabilities "B" JsNull) Scenario.live).1).1).2.
Proof.
  destruct (capabilities_last_write_wins "B" JsNull (JsObject "{new}")
              Scenario.live) as (_ & _ & _ & _ & _ & _ & _ & H).
  apply (H "p1" Scenario.tB Scenario.c1).
  - vm_compute. reflexivity.
  - vm_compute. eexists. reflexivity.
  - reflexivity.
Defined.

(** ** From create to connect *)

(** A createProducerTransport or createConsumerTransport that succeeds
    asks the engine for a transport, records it under the peer's send or
    receive key, and answers the peer with the id and the ICE and DTLS
    parameters of that transport, in this order and doing nothing else; the
    matching connect*Transport of the same peer then reaches that
    transport.  The two directions are independent: creating one leaves the
    lookup of the other, for every peer, as it was. *)
Theorem created_transport_connects socketId transport dtls result st :
  let sent := exec (on_createProducerTransport socketId (Resolves transport)) st in
  let recv := exec (on_createConsumerTransport socketId (Resolves transport)) st in
  let options :=
    TransportOptions (transport_id transport) (iceParameters transport)
                     (iceCandidates transport) (dtlsParameters transport) in
  sent.2 = [Engine router_createWebRtcTransport;
            TransportsSet (producer_key socketId) transport;
            Callback socketId options]
  ∧ recv.2 = [Engine router_createWebRtcTransport;
              TransportsSet (consumer_key socketId) transport;
              Callback socketId options]
  ∧ transports sent.1 !! producer_key socketId = Some transport
  ∧ transports recv.1 !! consumer_key socketId = Some transport
  ∧ exec (on_connectProducerTransport socketId dtls result) sent.1
    = (sent.1, [Engine (transport_connect (transport_id transport) dtls);
                Callback socketId (connect_reply result)])
  ∧ exec (on_connectConsumerTransport socketId dtls result) recv.1
    = (recv.1, [Engine (transport_connect (transport_id transport) dtls);
                Callback socketId (connect_reply result)])
  ∧ (∀ other,
       transports sent.1 !! consumer_key other
       = transports st !! consumer_key other)
  ∧ (∀ other,
       transports recv.1 !! producer_key other
       = transports st !! producer_key other).
Proof.
  cbv zeta.
  rewrite on_createProducerTransport_spec, on_createConsumerTransport_spec.
  simpl. split_and!.
  - done.
  - done.
  - apply lookup_insert_eq.
  - apply lookup_insert_eq.
  - rewrite on_connectProducerTransport_spec. simpl.
    by rewrite lookup_insert_eq.
  - rewrite on_connectConsumerTransport_spec. simpl.
    by rewrite lookup_insert_eq.
  - intros other. apply lookup_insert_ne, producer_consumer_key_ne.
  - intros other. apply lookup_insert_ne. intros ?.
    by eapply producer_consumer_key_ne.
Qed.

(** * Properties of the handlers suspended at their [await] *)

Ltac run_async :=
  unfold Async.begin, Async.settle, Async.settled, handle,
    on_getRouterRtpCapabilities, on_createProducerTransport,
    on_createConsumerTransport, on_connectProducerTransport,
    on_connectConsumerTransport, on_produce, on_consume, on_resumeConsumer,
    on_getProducers, on_setRtpCapabilities;
  run_handler.

(** Cutting a handler at its [await] and running the two parts one after
    the other is running the handler. *)
Lemma handle_split socketId req st :
  handle socketId req st
  = (waiting ← Async.begin socketId req;
     match waiting with
     | Some waiting => Async.settle socketId waiting
     | None => mret ()
     end) st.
Proof.
  destruct req as [caps|r|r|d r|d r|k p r|p c r|c r| |v]; run_async;
    try done.
  - by destruct r.
  - by destruct r.
  - destruct (transports st !! _); [|done]. by destruct r.
  - destruct (transports st !! _); [|done]. by destruct r.
  - destruct (transports st !! _); [|done]. by destruct r.
  - destruct (transports st !! _); [|done].
    destruct (JsMap.get p (producers st)); [|done].
    destruct (truthy _); [|done]. destruct c; [|done]. by destruct r.
  - destruct (JsMap.get c (consumers st)); [|done]. by destruct r.
Qed.

(** A handler changes nothing before its [await], except that
    setRtpCapabilities, which has none, stores its value. *)
Lemma begin_state socketId req st :
  (Async.begin socketId req st).1.2 = st
  ∨ ∃ v, req = setRtpCapabilities v
         ∧ Async.begin socketId req st
           = (Normal None, with_sockets (<[socketId := v]>) st, []).
Proof.
  destruct req as [caps|r|r|d r|d r|k p r|p c r|c r| |v]; run_async;
    try (by left).
  - destruct (transports st !! _); by left.
  - destruct (transports st !! _); by left.
  - destruct (transports st !! _); by left.
  - destruct (transports st !! _); [|by left].
    destruct (JsMap.get p (producers st)); [|by left].
    destruct (truthy _); [|by left]. destruct c; by left.
  - destruct (JsMap.get c (consumers st)); by left.
  - right. by exists v.
Qed.

(** The ways the rest of a handler changes the state. *)
Lemma settle_state socketId waiting st :
  let st' := (exec (Async.settle socketId waiting) st).1 in
  st' = st
  ∨ (∃ t, st' = with_transports (<[producer_key socketId := t]>) st)
  ∨ (∃ t, st' = with_transports (<[consumer_key socketId := t]>) st)
  ∨ (∃ p, st' = with_producers
                  (JsMap.set (producer_id p)
                     {| pd_producer := p; pd_socketId := socketId |}) st)
  ∨ (∃ c, st' = with_consumers
                  (JsMap.set (consumer_id c)
                     {| cd_consumer := c; cd_socketId := socketId |}) st).
Proof.
  destruct waiting as [r|r|r|r|p r|r]; run_async; destruct r; simpl; eauto 10.
Qed.

(** ** Invariants of the loop with waiting handlers *)

Lemma async_run_cons ev evs s :
  Async.run (ev :: evs) s
  = ((Async.run evs (Async.step ev s).1).1,
     (Async.step ev s).2 ++ (Async.run evs (Async.step ev s).1).2).
Proof.
  simpl. destruct (Async.step ev s) as [s1 l1]. simpl.
  by destruct (Async.run evs s1) as [s2 l2].
Qed.

Lemma async_step_connection socketId s :
  Async.server (Async.step (Async.Connection socketId) s).1
  = (step (Connection socketId) (Async.server s)).1
  ∧ Async.awaiting (Async.step (Async.Connection socketId) s).1
    = Async.awaiting s.
Proof. simpl. by destruct (connected socketId (Async.server s)). Qed.

Lemma async_step_disconnect socketId s :
  Async.server (Async.step (Async.Disconnect socketId) s).1
  = (step (Disconnect socketId) (Async.server s)).1
  ∧ (Async.step (Async.Disconnect socketId) s).2
    = (step (Disconnect socketId) (Async.server s)).2
  ∧ Async.awaiting (Async.step (Async.Disconnect socketId) s).1
    = Async.awaiting s.
Proof.
  simpl. destruct (connected socketId (Async.server s)); [|done].
  by destruct (exec _ _).
Qed.

(** What a request does to the state of the loop before its [await]. *)
Lemma async_step_message socketId req s :
  let s' := (Async.step (Async.Message socketId req) s).1 in
  (Async.server s' = Async.server s
   ∧ (Async.awaiting s' = Async.awaiting s
      ∨ connected socketId (Async.server s) = true
        ∧ ∃ waiting, Async.awaiting s' = Async.awaiting s ++ [(socketId, waiting)]))
  ∨ (connected socketId (Async.server s) = true
     ∧ Async.awaiting s' = Async.awaiting s
     ∧ ∃ v, Async.server s'
            = with_sockets (<[socketId := v]>) (Async.server s)).
Proof.
  cbv zeta. simpl. destruct (connected socketId (Async.server s)) eqn:Hconn;
    [|left; by split; [|left]].
  destruct (begin_state socketId req (Async.server s)) as [Hsame|(v & _ & ->)].
  - destruct (Async.begin socketId req (Async.server s)) as [[[[w|]|e] st] l];
      simpl in *; subst st; left; (split; [done|]); eauto.
  - right. simpl. eauto.
Qed.

(** What a settlement does to the state of the loop. *)
Lemma async_step_settled n s :
  let s' := (Async.step (Async.Settled n) s).1 in
  s' = s
  ∨ ∃ socketId waiting,
      Async.awaiting s !! n = Some (socketId, waiting)
      ∧ Async.awaiting s' = delete n (Async.awaiting s)
      ∧ Async.server s'
        = (exec (Async.settle socketId waiting) (Async.server s)).1.
Proof.
  cbv zeta. simpl. destruct (Async.awaiting s !! n) as [[socketId w]|] eqn:E;
    [|by left].
  right. exists socketId, w. split; [done|].
  by destruct (exec (Async.settle socketId w) (Async.server s)).
Qed.

Lemma wf_server_sockets f st : wf_server st → wf_server (with_sockets f st).
Proof. done. Qed.

Lemma settle_wf socketId waiting st :
  wf_server st → wf_server (exec (Async.settle socketId waiting) st).1.
Proof.
  intros [Hp Hc].
  destruct (settle_state socketId waiting st)
    as [->|[[t ->]|[[t ->]|[[p ->]|[c ->]]]]]; try done.
  - split; [by apply JsMapFacts.wf_set | done].
  - split; [done | by apply JsMapFacts.wf_set].
Qed.

Lemma async_step_wf ev s :
  wf_server (Async.server s) → wf_server (Async.server (Async.step ev s).1).
Proof.
  intros Hwf. destruct ev as [sock|sock req|n|sock].
  - destruct (async_step_connection sock s) as [-> _]. by apply step_wf.
  - destruct (async_step_message sock req s) as [[-> _]|(_ & _ & v & ->)];
      done.
  - destruct (async_step_settled n s) as [->|(sock & w & _ & _ & ->)]; [done|].
    by apply settle_wf.
  - destruct (async_step_disconnect sock s) as [-> _]. by apply step_wf.
Qed.

Lemma async_run_wf evs : ∀ s,
  wf_server (Async.server s) → wf_server (Async.server (Async.run evs s).1).
Proof.
  induction evs as [|ev evs IH]; intros s Hwf; [done|].
  rewrite async_run_cons. simpl. by apply IH, async_step_wf.
Qed.

(** *** Entries are keyed by the id of their handle *)



(** *** Ownership, as long as requests settle before their socket leaves *)

Lemma connected_same_sockets s st st' :
  sockets st' = sockets st → connected s st' = connected s st.
Proof. unfold connected. by intros ->. Qed.

Lemma settle_sockets socketId waiting st :
  sockets (exec (Async.settle socketId waiting) st).1 = sockets st.
Proof.
  by destruct (settle_state socketId waiting st)
    as [->|[[t ->]|[[t ->]|[[p ->]|[c ->]]]]].
Qed.

Lemma settle_owned_by_connected socketId waiting st :
  connected socketId st = true → owned_by_connected st →
  owned_by_connected (exec (Async.settle socketId waiting) st).1.
Proof.
  intros Hconn (Ht & Hpr & Hco).
  destruct (settle_state socketId waiting st)
    as [->|[[t ->]|[[t ->]|[[p ->]|[c ->]]]]]; try done.
  - split_and!; [|done|done]. intros key. simpl. rewrite lookup_insert.
    case_decide; [subst; eauto | apply Ht].
  - split_and!; [|done|done]. intros key. simpl. rewrite lookup_insert.
    case_decide; [subst; eauto | apply Ht].
  - split_and!; [done| |done]. intros pid data. simpl.
    destruct (decide (producer_id p = pid)) as [<-|Hne].
    + rewrite JsMapFacts.get_set_eq. by intros [= <-].
    + rewrite JsMapFacts.get_set_ne by done. apply Hpr.
  - split_and!; [done|done|]. intros cid data. simpl.
    destruct (decide (consumer_id c = cid)) as [<-|Hne].
    + rewrite JsMapFacts.get_set_eq. by intros [= <-].
    + rewrite JsMapFacts.get_set_ne by done. apply Hco.
Qed.

Lemma insert_owned_by_connected socketId v st :
  owned_by_connected st →
  owned_by_connected (with_sockets (<[socketId := v]>) st).
Proof.
  intros (Ht & Hpr & Hco). split_and!.
  - intros key Hkey. destruct (Ht key Hkey) as (s' & ? & ?).
    exists s'. split; [by apply connected_insert | done].
  - intros pid data Hget. destruct (Hpr pid data Hget).
    split; [done | by apply connected_insert].
  - intros cid data Hget. destruct (Hco cid data Hget).
    split; [done | by apply connected_insert].
Qed.

Lemma async_step_owned ev s :
  wf_server (Async.server s) → Async.owned s →
  match ev with
  | Async.Disconnect socketId => Async.idle socketId s
  | _ => True
  end →
  Async.owned (Async.step ev s).1.
Proof.
  intros Hwf [Hown Hwait] Hquiet. destruct ev as [sock|sock req|n|sock].
  - destruct (async_step_connection sock s) as [Hs Ha]. split.
    + rewrite Hs. by apply step_owned_by_connected.
    + rewrite Ha, Hs. eapply Forall_impl; [exact Hwait|]. simpl.
      intros [x w] Hx. destruct (connected sock (Async.server s)); [done|].
      by apply connected_insert.
  - destruct (async_step_message sock req s)
      as [[Hs [Ha|[Hconn [w Ha]]]]|(Hconn & Ha & v & Hs)].
    + split; rewrite ?Ha, Hs; done.
    + split; rewrite ?Ha, Hs; [done|]. apply Forall_app_2; [done|].
      by constructor.
    + split; rewrite ?Ha, Hs; [by apply insert_owned_by_connected|].
      eapply Forall_impl; [exact Hwait|]. simpl. intros [x w'] Hx.
      by apply connected_insert.
  - destruct (async_step_settled n s) as [->|(sock & w & Hn & Ha & Hs)];
      [done|].
    assert (connected sock (Async.server s) = true) as Hconn
      by apply (Forall_lookup_1 _ _ _ _ Hwait Hn).
    split.
    + rewrite Hs. by apply settle_owned_by_connected.
    + rewrite Ha, Hs. apply (Forall_delete _ _ n) in Hwait.
      eapply Forall_impl; [exact Hwait|]. simpl. intros [x w'] Hx.
      by rewrite (connected_same_sockets _ (Async.server s))
        by apply settle_sockets.
  - destruct (async_step_disconnect sock s) as (Hs & _ & Ha). split.
    + rewrite Hs. by apply step_owned_by_connected.
    + rewrite Ha, Hs. apply Forall_forall. intros [x w] Hin. simpl.
      assert (x ≠ sock) as Hne.
      { intros ->. apply Hquiet. apply list_elem_of_fmap. by exists (sock, w). }
      eapply Forall_forall in Hwait; [|done]. simpl in Hwait.
      destruct (connected sock (Async.server s)); [|done].
      destruct Hwf as [Hp Hc]. rewrite on_disconnect_spec by done.
      unfold connected in *. rewrite bool_decide_eq_true in *. simpl.
      by rewrite lookup_delete_ne.
Qed.

Lemma async_run_owned evs : ∀ s,
  wf_server (Async.server s) → Async.owned s →
  Async.settles_before_leaving evs s →
  Async.owned (Async.run evs s).1.
Proof.
  induction evs as [|ev evs IH]; intros s Hwf Hown Hquiet; [done|].
  destruct Hquiet as [Hev Hrest]. rewrite async_run_cons. simpl.
  apply IH; [by apply async_step_wf | by apply async_step_owned | done].
Qed.

(** *** A transport recorded for a socket that has left stays *)

Lemma async_step_recorded socketId ev s :
  wf_server (Async.server s) →
  ev ≠ Async.Connection socketId →
  connected socketId (Async.server s) = false →
  is_Some (transports (Async.server s) !! producer_key socketId) →
  connected socketId (Async.server (Async.step ev s).1) = false
  ∧ is_Some (transports (Async.server (Async.step ev s).1)
               !! producer_key socketId).
Proof.
  intros [Hp Hc] Hev Hoff Hrec. destruct ev as [sock|sock req|n|sock].
  - simpl. destruct (connected sock (Async.server s)); [done|]. simpl.
    split; [|done]. unfold connected in *.
    rewrite bool_decide_eq_false in *. simpl.
    rewrite lookup_insert_ne; [done|]. by intros ->.
  - destruct (async_step_message sock req s)
      as [[-> _]|(Hconn & _ & v & ->)]; [done|]. simpl. split; [|done].
    unfold connected in *. rewrite bool_decide_eq_false in *. simpl.
    rewrite lookup_insert_ne; [done|]. intros ->.
    by apply bool_decide_eq_true in Hconn.
  - destruct (async_step_settled n s) as [->|(sock & w & _ & _ & ->)]; [done|].
    split.
    + by rewrite (connected_same_sockets _ (Async.server s))
        by apply settle_sockets.
    + destruct (settle_state sock w (Async.server s))
        as [->|[[t ->]|[[t ->]|[[p ->]|[c ->]]]]]; try done; simpl;
        rewrite lookup_insert; by case_decide.
  - simpl. destruct (connected sock (Async.server s)) eqn:Hconn; [|done].
    assert (sock ≠ socketId) as Hne by (intros ->; congruence).
    rewrite on_disconnect_spec by done. simpl. split.
    + unfold connected in *. rewrite bool_decide_eq_false in *. simpl.
      by rewrite lookup_delete_ne.
    + rewrite !lookup_delete_ne; [done| |].
      * intros ?%producer_key_inj. done.
      * intros H. symmetry in H. by apply producer_consumer_key_ne in H.
Qed.

Lemma async_run_recorded socketId evs : ∀ s,
  wf_server (Async.server s) →
  Async.Connection socketId ∉ evs →
  connected socketId (Async.server s) = false →
  is_Some (transports (Async.server s) !! producer_key socketId) →
  connected socketId (Async.server (Async.run evs s).1) = false
  ∧ is_Some (transports (Async.server (Async.run evs s).1)
               !! producer_key socketId).
Proof.
  induction evs as [|ev evs IH]; intros s Hwf Hnot Hoff Hrec; [done|].
  apply not_elem_of_cons in Hnot as [Hev Hnot].
  rewrite async_run_cons. simpl.
  destruct (async_step_recorded socketId ev s) as [Hoff' Hrec']; try done.
  apply IH; [by apply async_step_wf | done..].
Qed.

(** *** The atomic loop is one schedule of the loop with waiting handlers *)

Lemma async_run_app evs1 evs2 s :
  Async.run (evs1 ++ evs2) s
  = ((Async.run evs2 (Async.run evs1 s).1).1,
     (Async.run evs1 s).2 ++ (Async.run evs2 (Async.run evs1 s).1).2).
Proof.
  revert s. induction evs1 as [|ev evs1 IH]; intros s.
  - simpl. by destruct (Async.run evs2 s).
  - rewrite <- app_comm_cons, !async_run_cons, IH. simpl. by rewrite app_assoc.
Qed.

Lemma run_at_once_step ev st :
  Async.run (at_once ev) {| Async.server := st; Async.awaiting := [] |}
  = ({| Async.server := (step ev st).1; Async.awaiting := [] |}, (step ev st).2).
Proof.
  destruct ev as [sock|sock req|sock]; simpl.
  - by destruct (connected sock st).
  - destruct (connected sock st); [|done]. unfold exec.
    rewrite handle_split. unfold mbind, M_bind.
    destruct (Async.begin sock req st) as [[[[w|]|e] st1] l1]; simpl.
    + destruct (Async.settle sock w st1) as [[c st2] l2]. simpl.
      by rewrite app_nil_r.
    + by rewrite !app_nil_r.
    + by rewrite app_nil_r.
  - destruct (connected sock st); [|done].
    destruct (exec (on_disconnect sock) _). simpl. by rewrite app_nil_r.
Qed.

Lemma run_at_once evs : ∀ st,
  Async.run (evs ≫= at_once) {| Async.server := st; Async.awaiting := [] |}
  = ({| Async.server := (run evs st).1; Async.awaiting := [] |}, (run evs st).2).
Proof.
  induction evs as [|ev evs IH]; intros st; [done|].
  rewrite bind_cons, async_run_app, run_at_once_step, run_cons. simpl.
  by rewrite IH.
Qed.

(** ** Ownership of registry entries *)

(** Handlers interleave at their [await]s.  As long as no socket
    disconnects while one of its requests waits for the engine, nothing of
    a disconnected peer stays behind: a socket that is not connected has no
    recorded transport, and every registered producer and consumer is keyed
    by its own id and owned by a connected socket.  But a request is not
    cancelled when its socket leaves: a createProducerTransport that
    settles after the disconnect of its socket records the transport as if
    nothing had happened, after the disconnect handler has run, and no
    later event closes or removes it unless a socket with the same id
    connects. *)
Theorem resources_owned_by_connected evs socketId s n transport :
  (Async.settles_before_leaving evs Async.initial →
   let st := Async.server (Async.run evs Async.initial).1 in
   (connected socketId st = false →
    transports st !! producer_key socketId = None
    ∧ transports st !! consumer_key socketId = None)
   ∧ (∀ producerId data,
        JsMap.get producerId (producers st) = Some data →
        producerId = producer_id (pd_producer data)
        ∧ connected (pd_socketId data) st = true)
   ∧ (∀ consumerId data,
        JsMap.get consumerId (consumers st) = Some data →
        consumerId = consumer_id (cd_consumer data)
        ∧ connected (cd_socketId data) st = true))
  ∧ (wf_server (Async.server s) →
     connected socketId (Async.server s) = true →
     Async.awaiting s !! n
     = Some (socketId, Async.createProducerTransport_pending (Resolves transport)) →
     let left := Async.step (Async.Disconnect socketId) s in
     let late := Async.step (Async.Settled n) left.1 in
     late.2 = [TransportsSet (producer_key socketId) transport;
               Callback socketId (transportOptions transport)]
     ∧ ∀ later,
         Async.Connection socketId ∉ later →
         let st := Async.server (Async.run later late.1).1 in
         connected socketId st = false
         ∧ is_Some (transports st !! producer_key socketId)).
Proof.
  split.
  - intros Hquiet. cbv zeta.
    destruct (async_run_owned evs Async.initial) as [(Ht & Hpr & Hco) _];
      [apply wf_server_init | | done |].
    { split; [|done]. split_and!; [by intros key [? ?] | done | done]. }
    split_and!; [|done|done]. intros Hoff.
    split; apply eq_None_not_Some; intros Hsome;
      destruct (Ht _ Hsome) as (sock & Hs & [Hk|Hk]).
    + apply producer_key_inj in Hk as ->. congruence.
    + by apply producer_consumer_key_ne in Hk.
    + symmetry in Hk. by apply producer_consumer_key_ne in Hk.
    + apply consumer_key_inj in Hk as ->. congruence.
  - intros Hwf Hconn Hn. cbv zeta.
    destruct (async_step_disconnect socketId s) as (Hs & _ & Ha).
    set (left := (Async.step (Async.Disconnect socketId) s).1) in *.
    assert (wf_server (Async.server left)) as Hwf1
      by by apply async_step_wf.
    assert (connected socketId (Async.server left) = false) as Hoff.
    { rewrite Hs. simpl. rewrite Hconn. destruct Hwf as [Hp Hc].
      rewrite on_disconnect_spec by done. unfold connected.
      apply bool_decide_eq_false. simpl. rewrite lookup_delete_eq.
      by intros [? ?]. }
    assert (Async.step (Async.Settled n) left
            = ({| Async.server :=
                    with_transports (<[producer_key socketId := transport]>)
                      (Async.server left);
                  Async.awaiting := delete n (Async.awaiting left) |},
               [TransportsSet (producer_key socketId) transport;
                Callback socketId (transportOptions transport)])) as Hlate.
    { simpl. rewrite Ha, Hn. by run_async. }
    rewrite Hlate. split; [done|]. intros later Hnot.
    apply async_run_recorded; simpl; try done.
    by rewrite lookup_insert_eq.
Qed.

Lemma resources_owned_by_connected_witness :
  transports
    (Async.server
       (Async.run (Async.session ++ [Async.Disconnect "A"]) Async.initial).1)
    !! producer_key "A" = None
  ∧ is_Some
      (transports
         (Async.server
            (Async.step (Async.Settled 0)
               (Async.step (Async.Disconnect "A")
                  Async.waiting_for_engine).1).1)
         !! producer_key "A").
Proof.
  split.
  - destruct (resources_owned_by_connected
                (Async.session ++ [Async.Disconnect "A"]) "A" Async.initial 0
                Scenario.tA) as [H _].
    destruct H as [H _].
    + repeat split; vm_compute; intros H; inversion H.
    + apply H. vm_compute. reflexivity.
  - destruct (resources_owned_by_connected [] "A" Async.waiting_for_engine 0
                Scenario.tB) as [_ H].
    destruct H as [_ H].
    + apply (async_run_wf _ Async.initial), wf_server_init.
    + vm_compute. reflexivity.
    + reflexivity.
    + apply (H []). apply not_elem_of_nil.
Defined.

(** ** What getProducers lists *)



(** * Properties of the page *)

Module PageFacts.
Import Page.

Ltac unfold_page :=
  unfold Page.exec, consumedProducersRef_has, consumedProducersRef_add,
    consumedProducersRef_delete, consumersRef_get, consumersRef_set,
    consumersRef_delete, setRemoteStreams, setPendingProducers, emitWithAck,
    Page.await, returns, mbind, PageM_bind, mret, PageM_ret, Page.throw,
    Page.try_catch, Page.gets, modify, Page.perform in *.

Lemma add_delete_fresh (producerId : string) (s : gset string) :
  producerId ∉ s → (s ∪ {[producerId]}) ∖ {[producerId]} = s.
Proof.
  intros Hnot. apply set_eq. intros x.
  rewrite elem_of_difference, elem_of_union, elem_of_singleton.
  split; [by intros [[?|?] ?] | intros Hx].
  split; [by left | by intros ->].
Qed.

Lemma unmarked_id producerId pg :
  producerId ∉ consumedProducersRef pg → unmarked producerId pg = pg.
Proof.
  intros Hnot. unfold unmarked, with_consumedProducersRef. destruct pg.
  simpl in *. f_equal. by apply add_delete_fresh.
Qed.

(** What one consume attempt does, case by case. *)
Lemma consumeStream_spec env producerId socketId answers pg :
  Page.exec (consumeStream env producerId socketId answers) pg
  = if bool_decide (producerId ∈ consumedProducersRef pg) then (pg, [])
    else if negb (can_consume env) then (pg, [])
    else
      match device_canConsume answers with
      | Rejects _ | Resolves false => (unmarked producerId pg, [])
      | Resolves true =>
      match ack_error (consumerOptions answers) with
      | Some _ =>
          (unmarked producerId pg, [EmitWithAck (consume_request producerId)])
      | None =>
      match transport_consume answers with
      | Rejects _ =>
          (unmarked producerId pg,
           [EmitWithAck (consume_request producerId);
            TransportConsume (consumerOptions answers)])
      | Resolves consumer =>
          let log :=
            [EmitWithAck (consume_request producerId);
             TransportConsume (consumerOptions answers);
             EmitWithAck (resumeConsumer_request (consumer_id consumer))] in
          let recorded :=
            with_consumersRef (JsMap.set (consumer_id consumer) consumer) in
          match ack_error (resumeResult answers) with
          | Some _ => (recorded (unmarked producerId pg), log)
          | None =>
              ({| pendingProducers := pendingProducers pg;
                  remoteStreams :=
                    if shown producerId (remoteStreams pg)
                    then remoteStreams pg
                    else remoteStreams pg
                         ++ [{| rs_id := consumer_id consumer;
                                rs_socketId := socketId;
                                rs_producerId := producerId |}];
                  consumersRef :=
                    JsMap.set (consumer_id consumer) consumer (consumersRef pg);
                  consumedProducersRef :=
                    consumedProducersRef pg ∪ {[producerId]} |}, log)
          end
      end end end.
Proof.
  unfold consumeStream, can_consume, unmarked. unfold_page. simpl.
  destruct (bool_decide _); [done|].
  destruct (consumerTransport env), (socket env), (device env); simpl; try done.
  destruct (device_canConsume answers) as [[|]|m]; simpl; try done.
  destruct (ack_error (consumerOptions answers)); simpl; [done|].
  destruct (transport_consume answers) as [c|m]; simpl; [|done].
  destruct (ack_error (resumeResult answers)); simpl; done.
Qed.

(** ** [handleProducerClosed] *)

Lemma get_delete {V} k k' (m : JsMap.t V) :
  JsMap.get k (JsMap.delete k' m)
  = if decide (k' = k) then None else JsMap.get k m.
Proof.
  induction m as [|[k0 v0] m IH]; simpl; [by destruct (decide _)|].
  destruct (decide (k0 = k')) as [->|Hne]; simpl.
  - rewrite IH. destruct (decide (k' = k)); done.
  - rewrite IH. destruct (decide (k0 = k)) as [->|Hne']; [|done].
    by rewrite decide_False by congruence.
Qed.

Lemma delete_set_fresh {V} k v (m : JsMap.t V) :
  JsMap.get k m = None → JsMap.delete k (JsMap.set k v m) = m.
Proof.
  induction m as [|[k0 v0] m IH]; simpl.
  - by rewrite decide_True.
  - destruct (decide (k0 = k)) as [->|Hne]; [done|]. simpl.
    rewrite decide_False by done. intros Hget. by rewrite IH.
Qed.

Lemma drop_streams_run producerId prev : ∀ pg,
  ∃ refs closes,
    drop_streams producerId prev pg
    = (Normal (filter (λ s, rs_producerId s ≠ producerId) prev),
       with_consumersRef (λ _, refs) pg, closes)
    ∧ (JsMap.wf (consumersRef pg) → JsMap.wf refs)
    ∧ (∀ id, JsMap.get id (consumersRef pg) = None → JsMap.get id refs = None)
    ∧ (∀ s, s ∈ prev → rs_producerId s = producerId →
            JsMap.get (rs_id s) refs = None)
    ∧ (∀ id, (∀ s, s ∈ prev → rs_producerId s = producerId → rs_id s ≠ id) →
             JsMap.get id refs = JsMap.get id (consumersRef pg))
    ∧ (∀ a, a ∈ closes
            ↔ ∃ s c, s ∈ prev ∧ rs_producerId s = producerId
                     ∧ JsMap.get (rs_id s) (consumersRef pg) = Some c
                     ∧ a = ConsumerClose (consumer_id c)).
Proof.
  induction prev as [|s rest IH]; intros pg.
  - exists (consumersRef pg), []. split_and!; try done.
    + by destruct pg.
    + by intros ? ?%elem_of_nil.
    + intros a. split; [by intros ?%elem_of_nil|].
      by intros (? & ? & ?%elem_of_nil & _).
  - cbn [drop_streams]. rewrite filter_cons.
    destruct (decide (rs_producerId s = producerId)) as [Heq|Hne].
    + rewrite decide_False by (by intros ?).
      unfold_page. cbn beta iota.
      destruct (JsMap.get (rs_id s) (consumersRef pg)) as [c|] eqn:Hc.
      * destruct (IH (with_consumersRef (JsMap.delete (rs_id s)) pg))
          as (refs & closes & Hrun & Hwf & Hnone & Hgone & Hkeep & Hcl).
        cbn [fst snd]. rewrite Hrun.
        exists refs, (ConsumerClose (consumer_id c) :: closes).
        cbn [consumersRef with_consumersRef] in *.
        split_and!; [done| | | | |].
        -- intros ?. by apply Hwf, JsMapFacts.wf_delete.
        -- intros id Hid. apply Hnone. rewrite get_delete, Hid.
           by destruct (decide _).
        -- intros s' [->|Hin]%elem_of_cons Hp; [|by apply Hgone].
           apply Hnone. rewrite get_delete. by rewrite decide_True.
        -- intros id Hid. rewrite Hkeep.
           ++ rewrite get_delete, decide_False; [done|].
              apply Hid; [left | done].
           ++ intros s' Hin. apply Hid. by right.
        -- intros a. rewrite elem_of_cons, Hcl. split.
           ++ intros [->|(s' & c' & Hin & Hp & Hg & ->)].
              ** exists s, c. split_and!; [left|done..].
              ** rewrite get_delete in Hg. destruct (decide _); [done|].
                 exists s', c'. split_and!; [by right|done..].
           ++ intros (s' & c' & Hin & Hp & Hg & ->).
              apply elem_of_cons in Hin as [->|Hin].
              ** left. congruence.
              ** destruct (decide (rs_id s = rs_id s')) as [Hid|Hid].
                 --- left. congruence.
                 --- right. exists s', c'. split_and!; try done.
                     rewrite get_delete. by rewrite decide_False.
      * destruct (IH pg)
          as (refs & closes & Hrun & Hwf & Hnone & Hgone & Hkeep & Hcl).
        cbn [fst snd]. rewrite Hrun.
        exists refs, closes. split_and!; [done|done|done| | |].
        -- intros s' [->|Hin]%elem_of_cons Hp; [|by apply Hgone].
           by apply Hnone.
        -- intros id Hid. apply Hkeep. intros s' Hin. apply Hid. by right.
        -- intros a. rewrite Hcl. split.
           ++ intros (s' & c' & Hin & ?). exists s', c'. split; [by right|done].
           ++ intros (s' & c' & Hin & Hp & Hg & ->).
              apply elem_of_cons in Hin as [->|Hin]; [congruence|]. eauto 10.
    + rewrite decide_True by done.
      unfold_page.
      destruct (IH pg)
        as (refs & closes & Hrun & Hwf & Hnone & Hgone & Hkeep & Hcl).
      rewrite Hrun. exists refs, closes. rewrite app_nil_r.
      split_and!; [done|done|done| | |].
      * intros s' [->|Hin]%elem_of_cons Hp; [done | by apply Hgone].
      * intros id Hid. apply Hkeep. intros s' Hin. apply Hid. by right.
      * intros a. rewrite Hcl. split.
        -- intros (s' & c' & Hin & ?). exists s', c'. split; [by right|done].
        -- intros (s' & c' & Hin & Hp & Hg & ->).
           apply elem_of_cons in Hin as [->|Hin]; [congruence|]. eauto 10.
Qed.

Lemma handleProducerClosed_run producerId pg :
  ∃ refs closes,
    Page.exec (handleProducerClosed producerId) pg
    = ({| pendingProducers :=
            filter (λ p, p.1 ≠ producerId) (pendingProducers pg);
          remoteStreams :=
            filter (λ s, rs_producerId s ≠ producerId) (remoteStreams pg);
          consumersRef := refs;
          consumedProducersRef := consumedProducersRef pg ∖ {[producerId]} |},
       closes)
    ∧ (JsMap.wf (consumersRef pg) → JsMap.wf refs)
    ∧ (∀ id, JsMap.get id (consumersRef pg) = None → JsMap.get id refs = None)
    ∧ (∀ s, s ∈ remoteStreams pg → rs_producerId s = producerId →
            JsMap.get (rs_id s) refs = None)
    ∧ (∀ id, (∀ s, s ∈ remoteStreams pg → rs_producerId s = producerId →
                   rs_id s ≠ id) →
             JsMap.get id refs = JsMap.get id (consumersRef pg))
    ∧ (∀ a, a ∈ closes
            ↔ ∃ s c, s ∈ remoteStreams pg ∧ rs_producerId s = producerId
                     ∧ JsMap.get (rs_id s) (consumersRef pg) = Some c
                     ∧ a = ConsumerClose (consumer_id c)).
Proof.
  unfold handleProducerClosed. unfold_page. cbn beta iota. cbn [fst snd].
  match goal with
  | |- context [drop_streams producerId ?prev ?pg1] =>
      destruct (drop_streams_run producerId prev pg1)
        as (refs & closes & Hrun & Hrest)
  end.
  cbn [remoteStreams consumersRef with_consumedProducersRef] in *.
  rewrite Hrun. exists refs, closes. split; [|exact Hrest].
  simpl. by rewrite app_nil_r.
Qed.

Lemma drop_streams_none producerId prev pg :
  Forall (λ s, rs_producerId s ≠ producerId) prev →
  drop_streams producerId prev pg = (Normal prev, pg, []).
Proof.
  induction 1 as [|s rest Hs _ IH]; [done|].
  cbn [drop_streams]. rewrite decide_False by done. unfold_page.
  by rewrite IH.
Qed.

Lemma Forall_filter_ne {A} (f : A → string) x (l : list A) :
  Forall (λ a, f a ≠ x) (filter (λ a, f a ≠ x) l).
Proof. apply Forall_forall. by intros a [? _]%list_elem_of_filter. Qed.

Lemma filter_ne_idemp {A} (f : A → string) x (l : list A) :
  filter (λ a, f a ≠ x) (filter (λ a, f a ≠ x) l) = filter (λ a, f a ≠ x) l.
Proof.
  induction l as [|a l IH]; [done|]. rewrite filter_cons.
  destruct (decide (f a ≠ x)); [|done]. by rewrite filter_cons, decide_True, IH.
Qed.

(** When a producer is announced closed, the page forgets it: it is no
    longer marked as consumed, it leaves the queue of pending producers, its
    streams leave the display and the consumer recorded under the id of
    each such stream is closed and removed from [consumersRef].  Everything
    that belongs to other producers stays as it was, in the same order, and
    nothing else is closed. *)
Theorem producer_closed_forgets producerId pg :
  let r := Page.exec (handleProducerClosed producerId) pg in
  consumedProducersRef r.1 = consumedProducersRef pg ∖ {[producerId]}
  ∧ pendingProducers r.1 = filter (λ p, p.1 ≠ producerId) (pendingProducers pg)
  ∧ remoteStreams r.1
    = filter (λ s, rs_producerId s ≠ producerId) (remoteStreams pg)
  ∧ (∀ s, s ∈ remoteStreams pg → rs_producerId s = producerId →
          JsMap.get (rs_id s) (consumersRef r.1) = None)
  ∧ (∀ id, (∀ s, s ∈ remoteStreams pg → rs_producerId s = producerId →
                 rs_id s ≠ id) →
           JsMap.get id (consumersRef r.1) = JsMap.get id (consumersRef pg))
  ∧ (∀ a, a ∈ r.2
          ↔ ∃ s c, s ∈ remoteStreams pg ∧ rs_producerId s = producerId
                   ∧ JsMap.get (rs_id s) (consumersRef pg) = Some c
                   ∧ a = ConsumerClose (consumer_id c)).
Proof.
  cbv zeta.
  destruct (handleProducerClosed_run producerId pg)
    as (refs & closes & -> & _ & _ & Hgone & Hkeep & Hcl).
  by split_and!.
Qed.

Lemma producer_closed_forgets_witness :
  JsMap.get "c0" (consumersRef (Page.exec (handleProducerClosed "p0")
                                  Page.example).1) = None.
Proof.
  destruct (producer_closed_forgets "p0" Page.example) as (_ & _ & _ & H & _).
  apply (H {| rs_id := "c0"; rs_socketId := "Z"; rs_producerId := "p0" |}).
  - left.
  - reflexivity.
Defined.

(** A second announcement that the same producer closed changes nothing and
    closes nothing. *)
Theorem producer_closed_twice producerId pg :
  let once := (Page.exec (handleProducerClosed producerId) pg).1 in
  Page.exec (handleProducerClosed producerId) once = (once, []).
Proof.
  cbv zeta.
  destruct (handleProducerClosed_run producerId pg)
    as (refs & closes & -> & _).
  cbn [fst]. unfold handleProducerClosed. unfold_page. cbn beta iota.
  cbn [fst snd remoteStreams with_consumedProducersRef].
  rewrite drop_streams_none by apply (Forall_filter_ne rs_producerId).
  cbn. rewrite (filter_ne_idemp fst). f_equal. f_equal.
  apply set_eq. intros x. rewrite !elem_of_difference. tauto.
Qed.

(** ** [consumeStream] *)

Lemma consumed_unmarked producerId pg :
  producerId ∉ consumedProducersRef (unmarked producerId pg).
Proof.
  unfold unmarked. simpl. rewrite elem_of_difference, elem_of_singleton.
  by intros [_ ?].
Qed.

(** A consume attempt leaves the producer marked as consumed exactly when it
    was marked already or every step of the attempt went through.  An
    attempt on a producer already marked, or made before the receive
    transport, socket and device are there, asks nothing of anyone and
    changes nothing; an attempt that fails on the way leaves the marks, the
    streams on display and the queue as they were, so the producer can be
    tried again. *)
Theorem consume_marks_iff env producerId socketId answers pg :
  let r := Page.exec (consumeStream env producerId socketId answers) pg in
  (producerId ∈ consumedProducersRef r.1
   ↔ producerId ∈ consumedProducersRef pg
     ∨ (can_consume env = true ∧ ∃ consumer, goes_through answers consumer))
  ∧ (producerId ∈ consumedProducersRef pg ∨ can_consume env = false →
     r = (pg, []))
  ∧ (producerId ∉ consumedProducersRef pg →
     (∀ consumer, ¬ goes_through answers consumer) →
     consumedProducersRef r.1 = consumedProducersRef pg
     ∧ remoteStreams r.1 = remoteStreams pg
     ∧ pendingProducers r.1 = pendingProducers pg).
Proof.
  cbv zeta. rewrite consumeStream_spec. unfold goes_through.
  destruct (decide (producerId ∈ consumedProducersRef pg)) as [Hin|Hnot].
  { rewrite bool_decide_eq_true_2 by done. split_and!; [tauto|done|done]. }
  rewrite bool_decide_eq_false_2 by done.
  destruct (can_consume env); simpl; cycle 1.
  { split_and!; [|done|done].
    split; [tauto|]. by intros [?|[? _]]. }
  destruct (device_canConsume answers) as [[|]|m].
  - destruct (ack_error (consumerOptions answers)) as [e|].
    { rewrite unmarked_id by done. split_and!; [|by intros [?|?]|done].
      split; [tauto|]. intros [?|[_ (c & _ & ? & _)]]; done. }
    destruct (transport_consume answers) as [c|m].
    + cbv zeta. destruct (ack_error (resumeResult answers)) as [e|].
      * split_and!; [|by intros [?|?]|].
        -- split; [by intros ?%consumed_unmarked|].
           intros [?|[_ (c' & _ & _ & _ & ?)]]; done.
        -- intros _ _. simpl. by rewrite add_delete_fresh.
      * split_and!; [|by intros [?|?]|].
        -- simpl. split;
             [intros _
             |intros _; apply elem_of_union; right; by apply elem_of_singleton].
           right. split; [done|]. by exists c.
        -- intros _ Hno. by destruct (Hno c).
    + rewrite unmarked_id by done. split_and!; [|by intros [?|?]|done].
      split; [tauto|]. intros [?|[_ (c & _ & _ & ? & _)]]; done.
  - rewrite unmarked_id by done. split_and!; [|by intros [?|?]|done].
    split; [tauto|]. intros [?|[_ (c & ? & _)]]; done.
  - rewrite unmarked_id by done. split_and!; [|by intros [?|?]|done].
    split; [tauto|]. intros [?|[_ (c & ? & _)]]; done.
Qed.

Lemma consume_marks_iff_witness :
  Page.exec
    (consumeStream Page.all_set "p0" "Z"
       {| device_canConsume := Resolves true;
          consumerOptions := Consumed "c9" "p0" "video" "rtp";
          transport_consume := Rejects "boom";
          resumeResult := Success |})
    Page.example
  = (Page.example, []).
Proof.
  apply (consume_marks_iff Page.all_set "p0" "Z"
           {| device_canConsume := Resolves true;
              consumerOptions := Consumed "c9" "p0" "video" "rtp";
              transport_consume := Rejects "boom";
              resumeResult := Success |} Page.example).
  left. vm_compute. reflexivity.
Defined.

(** ** Streams on display *)

Lemma shown_false producerId prev :
  shown producerId prev = false →
  Forall (λ s, rs_producerId s ≠ producerId) prev.
Proof.
  unfold shown. induction prev as [|s prev IH]; simpl; [done|].
  intros [Hs Hrest]%orb_false_elim. constructor; [|by apply IH].
  by apply bool_decide_eq_false in Hs.
Qed.

(** ** What stays true of the page *)

Lemma consumeStream_normal env producerId socketId answers pg :
  consumeStream env producerId socketId answers pg
  = (Normal (),
     (Page.exec (consumeStream env producerId socketId answers) pg).1,
     (Page.exec (consumeStream env producerId socketId answers) pg).2).
Proof.
  unfold consumeStream. unfold_page. simpl.
  destruct (bool_decide _); [done|].
  destruct (consumerTransport env), (socket env), (device env); simpl; try done.
  destruct (device_canConsume answers) as [[|]|m]; simpl; try done.
  destruct (ack_error (consumerOptions answers)); simpl; [done|].
  destruct (transport_consume answers) as [c|m]; simpl; [|done].
  destruct (ack_error (resumeResult answers)); simpl; done.
Qed.

Lemma NoDup_fmap_filter {A B} (f : A → B) (P : A → Prop)
    `{!∀ a, Decision (P a)} (l : list A) :
  NoDup (f <$> l) → NoDup (f <$> filter P l).
Proof.
  intros Hnd. eapply sublist_NoDup; [exact Hnd|].
  apply fmap_sublist, sublist_filter.
Qed.

Lemma shown_false_notin producerId prev :
  shown producerId prev = false → producerId ∉ rs_producerId <$> prev.
Proof.
  intros Hs%shown_false (s & -> & Hin)%list_elem_of_fmap.
  by eapply Forall_forall in Hs.
Qed.

Lemma queued_false_notin producerId (prev : list (string * string)) :
  queued producerId prev = false → producerId ∉ prev.*1.
Proof.
  unfold queued. induction prev as [|p prev IH]; simpl.
  - intros _. apply not_elem_of_nil.
  - intros [Hp Hrest]%orb_false_elim. apply bool_decide_eq_false in Hp.
    apply not_elem_of_cons. split; [congruence | by apply IH].
Qed.

Lemma consumeStream_tidy env producerId socketId answers pg :
  tidy pg → tidy (Page.exec (consumeStream env producerId socketId answers) pg).1.
Proof.
  intros (Hs & Hq & Hr). rewrite consumeStream_spec.
  destruct (bool_decide _); [done|]. destruct (negb _); [done|].
  destruct (device_canConsume answers) as [[|]|m]; try done.
  destruct (ack_error (consumerOptions answers)); [done|].
  destruct (transport_consume answers) as [c|m]; [|done]. cbv zeta.
  destruct (ack_error (resumeResult answers)).
  - split_and!; [done|done|]. by apply JsMapFacts.wf_set.
  - split_and!; simpl; [|done|by apply JsMapFacts.wf_set].
    destruct (shown producerId (remoteStreams pg)) eqn:E; [done|].
    rewrite fmap_app. apply NoDup_app. split_and!; [done| |apply NoDup_singleton].
    intros x Hx ->%list_elem_of_singleton. by apply shown_false_notin in E.
Qed.

Lemma handleNewProducer_tidy env producerId socketId answers pg :
  tidy pg →
  tidy (Page.exec (handleNewProducer env producerId socketId answers) pg).1.
Proof.
  intros Ht. unfold handleNewProducer.
  pose proof (consumeStream_tidy env producerId socketId answers pg Ht) as Hc.
  unfold Page.exec in *. unfold mbind at 1, PageM_bind at 1.
  unfold consumedProducersRef_has, Page.gets. cbn beta iota.
  destruct (bool_decide _); [done|].
  destruct (negb (isInitialized env) || _ || _).
  - unfold_page. simpl. destruct Ht as (Hs & Hq & Hr).
    split_and!; simpl; [done| |done].
    destruct (queued producerId (pendingProducers pg)) eqn:E; [done|].
    rewrite fmap_app. apply NoDup_app. split_and!; [done| |apply NoDup_singleton].
    intros x Hx ->%list_elem_of_singleton. by apply queued_false_notin in E.
  - by destruct (consumeStream env producerId socketId answers pg) as [[? ?] ?].
Qed.

Lemma handleProducerClosed_tidy producerId pg :
  tidy pg → tidy (Page.exec (handleProducerClosed producerId) pg).1.
Proof.
  intros (Hs & Hq & Hr).
  destruct (handleProducerClosed_run producerId pg)
    as (refs & closes & -> & Hwf & _).
  split_and!; simpl; [by apply NoDup_fmap_filter..|by apply Hwf].
Qed.

Lemma on_consumer_event_tidy producerId consumerId pg :
  tidy pg → tidy (Page.exec (on_consumer_event producerId consumerId) pg).1.
Proof.
  intros (Hs & Hq & Hr). unfold on_consumer_event. unfold_page. simpl.
  split_and!; simpl; [by apply NoDup_fmap_filter|done|].
  by apply JsMapFacts.wf_delete.
Qed.

Lemma consume_each_run env allProducers answers : ∀ n pg,
  ∃ pg' l,
    consume_each env allProducers answers n pg = (Normal (), pg', l)
    ∧ (tidy pg → tidy pg').
Proof.
  induction allProducers as [|[producerId socketId] rest IH]; intros n pg.
  - by exists pg, [].
  - cbn [consume_each]. unfold mbind at 1, PageM_bind at 1.
    unfold consumedProducersRef_has, Page.gets. cbn beta iota.
    destruct (bool_decide (producerId ∈ consumedProducersRef pg)).
    + destruct (IH (S n) pg) as (pg' & l & Hrun & Ht).
      unfold_page. rewrite Hrun. by exists pg', l.
    + unfold mbind, PageM_bind. rewrite consumeStream_normal.
      set (pg1 := (Page.exec (consumeStream env producerId socketId (answers n))
                     pg).1).
      destruct (IH (S n) pg1) as (pg' & l & Hrun & Ht).
      rewrite Hrun. eexists pg', _. split; [done|].
      intros Hpg. by apply Ht, consumeStream_tidy.
Qed.

Lemma step_tidy ev pg : tidy pg → tidy (Page.step ev pg).1.
Proof.
  intros Ht. destruct ev as [env p s a|p|env existing a|p c]; cbn [Page.step].
  - by apply handleNewProducer_tidy.
  - by apply handleProducerClosed_tidy.
  - unfold processExistingProducers.
    destruct (negb (isInitialized env) || _ || _ || _); [done|].
    unfold Page.exec, Page.try_catch, mbind, PageM_bind.
    unfold emitWithAck, Page.perform. cbn beta iota.
    destruct (consume_each_run env (existing ++ pendingProducers pg) a 0 pg)
      as (pg' & l & -> & Htidy).
    unfold setPendingProducers, modify. simpl.
    destruct (Htidy Ht) as (Hs & _ & Hr). split_and!; simpl; [done| |done].
    apply NoDup_nil_2.
  - by apply on_consumer_event_tidy.
Qed.

(** Whatever events reach the page, in whatever order, and whatever the
    server and the engine answer: no producer is ever on display twice, no
    producer is queued twice, and [consumersRef] holds one consumer per
    id. *)
Theorem page_stays_tidy evs : tidy (Page.run evs Page.initial).1.
Proof.
  assert (∀ pg, tidy pg → tidy (Page.run evs pg).1) as Hrun.
  { induction evs as [|ev evs IH]; intros pg Ht; [done|].
    cbn [Page.run]. pose proof (step_tidy ev pg Ht) as Hstep.
    destruct (Page.step ev pg) as [pg1 l1]. specialize (IH pg1 Hstep).
    by destruct (Page.run evs pg1). }
  apply Hrun. split_and!; apply NoDup_nil_2.
Qed.

(** ** [handleNewProducer] *)

Lemma handleNewProducer_spec env producerId socketId answers pg :
  Page.exec (handleNewProducer env producerId socketId answers) pg
  = if bool_decide (producerId ∈ consumedProducersRef pg) then (pg, [])
    else if isInitialized env && device env && consumerTransport env
    then Page.exec (consumeStream env producerId socketId answers) pg
    else ({| pendingProducers :=
               if queued producerId (pendingProducers pg)
               then pendingProducers pg
               else pendingProducers pg ++ [(producerId, socketId)];
             remoteStreams := remoteStreams pg;
             consumersRef := consumersRef pg;
             consumedProducersRef := consumedProducersRef pg |}, []).
Proof.
  unfold handleNewProducer, Page.exec. unfold mbind at 1, PageM_bind at 1.
  unfold consumedProducersRef_has, Page.gets. cbn beta iota.
  destruct (bool_decide _); [done|].
  destruct (isInitialized env), (device env), (consumerTransport env);
    simpl; try done;
    by destruct (consumeStream env producerId socketId answers pg) as [[? ?] ?].
Qed.

(** An announcement of a producer that is already marked as consumed is
    ignored.  While the page is not yet initialised, or lacks device or
    receive transport, an announced producer is put at the end of the queue
    and nothing is sent to the server; announcing it again, from whatever
    socket, does not queue it a second time. *)
Theorem new_producer_queued_once env producerId socketId again answers pg :
  let r := Page.exec (handleNewProducer env producerId socketId answers) pg in
  (producerId ∈ consumedProducersRef pg → r = (pg, []))
  ∧ (producerId ∉ consumedProducersRef pg →
     isInitialized env && device env && consumerTransport env = false →
     r.2 = []
     ∧ pendingProducers r.1
       = (if queued producerId (pendingProducers pg) then pendingProducers pg
          else pendingProducers pg ++ [(producerId, socketId)])
     ∧ queued producerId (pendingProducers r.1) = true
     ∧ remoteStreams r.1 = remoteStreams pg
     ∧ consumersRef r.1 = consumersRef pg
     ∧ consumedProducersRef r.1 = consumedProducersRef pg
     ∧ Page.exec (handleNewProducer env producerId again answers) r.1
       = (r.1, [])).
Proof.
  cbv zeta. rewrite handleNewProducer_spec. split.
  - intros Hin. by rewrite bool_decide_eq_true_2.
  - intros Hnot Hready. rewrite bool_decide_eq_false_2, Hready by done.
    assert (queued producerId
              (if queued producerId (pendingProducers pg)
               then pendingProducers pg
               else pendingProducers pg ++ [(producerId, socketId)]) = true)
      as Hq.
    { destruct (queued producerId (pendingProducers pg)) eqn:E; [done|].
      unfold queued. rewrite existsb_app. simpl.
      by rewrite bool_decide_eq_true_2, orb_true_r. }
    split_and!; try done.
    rewrite handleNewProducer_spec. cbn [fst consumedProducersRef pendingProducers].
    rewrite bool_decide_eq_false_2, Hready, Hq by done.
    by destruct (queued producerId (pendingProducers pg)).
Qed.

Lemma new_producer_queued_once_witness :
  Page.exec
    (handleNewProducer
       {| isInitialized := false; device := true; consumerTransport := true;
          socket := true |}
       "p1" "B"
       {| device_canConsume := Resolves true;
          consumerOptions := Success;
          transport_consume := Rejects "";
          resumeResult := Success |})
    Page.example
  = (Page.example, []).
Proof.
  destruct (new_producer_queued_once
              {| isInitialized := false; device := true;
                 consumerTransport := true; socket := true |}
              "p1" "A" "B"
              {| device_canConsume := Resolves true;
                 consumerOptions := Success;
                 transport_consume := Rejects "";
                 resumeResult := Success |}
              {| pendingProducers := [];
                 remoteStreams := remoteStreams Page.example;
                 consumersRef := consumersRef Page.example;
                 consumedProducersRef := consumedProducersRef Page.example |})
    as [_ H].
  destruct H as (_ & _ & _ & _ & _ & _ & H).
  - vm_compute. discriminate.
  - reflexivity.
  - exact H.
Defined.

(** ** A device without [canConsume] *)

Lemma consumeStream_throwing env producerId socketId answers pg :
  canConsume_throws answers →
  Page.exec (consumeStream env producerId socketId answers) pg = (pg, []).
Proof.
  intros [m Hm]. rewrite consumeStream_spec, Hm.
  destruct (bool_decide (producerId ∈ consumedProducersRef pg)) eqn:E; [done|].
  destruct (negb (can_consume env)); [done|].
  apply bool_decide_eq_false in E. by rewrite unmarked_id.
Qed.

Lemma consume_each_throwing env allProducers answers : ∀ n pg,
  (∀ k, canConsume_throws (answers k)) →
  consume_each env allProducers answers n pg = (Normal (), pg, []).
Proof.
  induction allProducers as [|[producerId socketId] rest IH]; intros n pg Hthrows;
    [done|].
  cbn [consume_each]. unfold mbind at 1, PageM_bind at 1.
  unfold consumedProducersRef_has, Page.gets. cbn beta iota.
  destruct (bool_decide (producerId ∈ consumedProducersRef pg)).
  - unfold_page. by rewrite IH.
  - unfold mbind, PageM_bind. rewrite consumeStream_normal.
    rewrite consumeStream_throwing by done. simpl. by rewrite IH.
Qed.

(** With [mediasoup-client]'s [Device], whose [canConsume] is missing, a
    consume attempt is over before it asks anything of the server: the
    [TypeError] is caught, the mark set for the attempt is removed again,
    and the page is exactly as it was.  So a producer announced to a page
    that is ready is neither consumed nor queued. *)
Theorem consume_stops_at_canConsume env producerId socketId answers pg :
  canConsume_throws answers →
  consumeStream env producerId socketId answers pg = (Normal (), pg, [])
  ∧ (isInitialized env && device env && consumerTransport env = true →
     Page.exec (handleNewProducer env producerId socketId answers) pg
     = (pg, [])).
Proof.
  intros Hthrows. split.
  - rewrite consumeStream_normal. by rewrite consumeStream_throwing.
  - intros Hready. rewrite handleNewProducer_spec, Hready.
    rewrite consumeStream_throwing by done. by destruct (bool_decide _).
Qed.

Lemma consume_stops_at_canConsume_witness :
  Page.exec
    (handleNewProducer Page.all_set "p1" "A"
       {| device_canConsume := Rejects "device.canConsume is not a function";
          consumerOptions := Consumed "c1" "p1" "video" "rtp";
          transport_consume := Resolves Scenario.c1;
          resumeResult := Success |})
    Page.example
  = (Page.example, []).
Proof.
  apply (consume_stops_at_canConsume Page.all_set "p1" "A"
           {| device_canConsume := Rejects "device.canConsume is not a function";
              consumerOptions := Consumed "c1" "p1" "video" "rtp";
              transport_consume := Resolves Scenario.c1;
              resumeResult := Success |} Page.example).
  - by eexists.
  - reflexivity.
Defined.


(** A page without remote stream, consumer and mark stays so. *)
Lemma step_blank ev pg :
  with_library_device ev →
  remoteStreams pg = [] → consumersRef pg = [] → consumedProducersRef pg = ∅ →
  let r := Page.step ev pg in
  remoteStreams r.1 = [] ∧ consumersRef r.1 = []
  ∧ consumedProducersRef r.1 = ∅
  ∧ Forall (λ e, e = EmitWithAck getProducers_request) r.2.
Proof.
  destruct pg as [q rs cs ms]. simpl. intros Hdev -> -> ->.
  destruct ev as [env p s a|p|env existing a|p c]; cbn [Page.step].
  - rewrite handleNewProducer_spec. simpl.
    destruct (isInitialized env && device env && consumerTransport env).
    + by rewrite consumeStream_throwing.
    + done.
  - unfold handleProducerClosed. unfold_page. simpl.
    split_and!; [done|done| |done]. apply set_eq. intros x.
    rewrite elem_of_difference. split; [by intros [? _]|by intros ?%elem_of_empty].
  - unfold processExistingProducers.
    destruct (negb (isInitialized env) || _ || _ || _); [done|].
    unfold Page.exec, Page.try_catch, mbind, PageM_bind.
    unfold emitWithAck, Page.perform. cbn beta iota.
    rewrite consume_each_throwing by done.
    unfold setPendingProducers, modify. simpl. split_and!; try done.
    by repeat constructor.
  - unfold on_consumer_event. unfold_page. simpl.
    split_and!; [done|done| |done]. apply set_eq. intros x.
    rewrite elem_of_difference. split; [by intros [? _]|by intros ?%elem_of_empty].
Qed.

(** With [mediasoup-client]'s [Device] the page never gets to show a remote
    stream: whatever producers are announced, listed or closed, in whatever
    order, it holds no remote stream, no consumer and no mark, and all it
    ever asks of the server is the list of producers; it sends no consume
    and no resumeConsumer request. *)
Theorem page_never_consumes evs :
  Forall with_library_device evs →
  let r := Page.run evs Page.initial in
  remoteStreams r.1 = [] ∧ consumersRef r.1 = []
  ∧ consumedProducersRef r.1 = ∅
  ∧ Forall (λ e, e = EmitWithAck getProducers_request) r.2.
Proof.
  intros Hdev. cbv zeta.
  assert (∀ pg, remoteStreams pg = [] → consumersRef pg = [] →
                consumedProducersRef pg = ∅ →
                remoteStreams (Page.run evs pg).1 = []
                ∧ consumersRef (Page.run evs pg).1 = []
                ∧ consumedProducersRef (Page.run evs pg).1 = ∅
                ∧ Forall (λ e, e = EmitWithAck getProducers_request)
                    (Page.run evs pg).2) as Hrun; [|by apply Hrun].
  induction Hdev as [|ev evs Hev _ IH]; intros pg Hs Hc Hm; [done|].
  cbn [Page.run].
  destruct (step_blank ev pg Hev Hs Hc Hm) as (Hs1 & Hc1 & Hm1 & Hl1).
  destruct (Page.step ev pg) as [pg1 l1]. simpl in *.
  destruct (IH pg1 Hs1 Hc1 Hm1) as (Hs2 & Hc2 & Hm2 & Hl2).
  destruct (Page.run evs pg1) as [pg2 l2]. simpl in *.
  split_and!; try done. by apply Forall_app_2.
Qed.

Lemma page_never_consumes_witness :
  let missing :=
    {| device_canConsume := Rejects "device.canConsume is not a function";
       consumerOptions := Consumed "c1" "p1" "video" "rtp";
       transport_consume := Resolves Scenario.c1;
       resumeResult := Success |} in
  let r :=
    Page.run
      [NewProducer {| isInitialized := false; device := true;
                      consumerTransport := true; socket := true |}
                   "p1" "A" missing;
       ExistingProducers Page.all_set [("p2", "A")] (λ _, missing);
       NewProducer Page.all_set "p3" "A" missing]
      Page.initial in
  remoteStreams r.1 = [] ∧ consumersRef r.1 = []
  ∧ consumedProducersRef r.1 = ∅
  ∧ Forall (λ e, e = EmitWithAck getProducers_request) r.2.
Proof.
  intros missing.
  apply (page_never_consumes
           [NewProducer {| isInitialized := false; device := true;
                           consumerTransport := true; socket := true |}
                        "p1" "A" missing;
            ExistingProducers Page.all_set [("p2", "A")] (λ _, missing);
            NewProducer Page.all_set "p3" "A" missing]).
  repeat constructor; simpl; try intros _; by eexists.
Defined.

(** ** Catching up with the producers that already exist *)

(** The marks after an attempt that was made. *)
Lemma consumeStream_marked env producerId socketId answers pg :
  producerId ∉ consumedProducersRef pg →
  can_consume env = true →
  let marks :=
    consumedProducersRef
      (Page.exec (consumeStream env producerId socketId answers) pg).1 in
  ((∃ consumer, goes_through answers consumer)
   ∧ marks = consumedProducersRef pg ∪ {[producerId]})
  ∨ ((∀ consumer, ¬ goes_through answers consumer)
     ∧ marks = consumedProducersRef pg).
Proof.
  intros Hnot Henv. cbv zeta. rewrite consumeStream_spec.
  rewrite bool_decide_eq_false_2, Henv by done. simpl. unfold goes_through.
  destruct (device_canConsume answers) as [[|]|m].
  - destruct (ack_error (consumerOptions answers)) as [e|].
    { right. rewrite unmarked_id by done. split; [|done].
      by intros c (_ & ? & _). }
    destruct (transport_consume answers) as [c|m].
    + cbv zeta. destruct (ack_error (resumeResult answers)) as [e|].
      * right. split; [by intros c' (_ & _ & _ & ?)|].
        simpl. by rewrite add_delete_fresh.
      * left. split; [by exists c|done].
    + right. rewrite unmarked_id by done. split; [|done].
      by intros c (_ & _ & ? & _).
  - right. rewrite unmarked_id by done. split; [|done]. by intros c (? & _).
  - right. rewrite unmarked_id by done. split; [|done]. by intros c (? & _).
Qed.

Lemma consume_each_marks env allProducers answers : ∀ n pg,
  can_consume env = true →
  ∃ pg' l,
    consume_each env allProducers answers n pg = (Normal (), pg', l)
    ∧ pendingProducers pg' = pendingProducers pg
    ∧ ∀ producerId,
        producerId ∈ consumedProducersRef pg'
        ↔ producerId ∈ consumedProducersRef pg
          ∨ ∃ k p consumer,
              allProducers !! k = Some p ∧ p.1 = producerId
              ∧ goes_through (answers (n + k)) consumer.
Proof.
  induction allProducers as [|[producerId socketId] rest IH];
    intros n pg Henv.
  - exists pg, []. split_and!; try done. intros x. split; [by left|].
    by intros [?|(k & p & c & ? & _)].
  - cbn [consume_each]. unfold mbind at 1, PageM_bind at 1.
    unfold consumedProducersRef_has, Page.gets. cbn beta iota.
    destruct (decide (producerId ∈ consumedProducersRef pg)) as [Hin|Hnot].
    + rewrite bool_decide_eq_true_2 by done.
      destruct (IH (S n) pg Henv) as (pg' & l & Hrun & Hq & Hmarks).
      unfold_page. rewrite Hrun. exists pg', l. split_and!; try done.
      intros x. rewrite Hmarks. split.
      * intros [?|(k & p & c & Hk & Hp & Hgo)]; [by left|]. right.
        exists (S k), p, c. split_and!; try done.
        by replace (n + S k) with (S n + k) by lia.
      * intros [?|(k & p & c & Hk & Hp & Hgo)]; [by left|].
        destruct k as [|k].
        -- injection Hk as <-. simpl in Hp. subst x. by left.
        -- right. exists k, p, c. split_and!; try done.
           by replace (S n + k) with (n + S k) by lia.
    + rewrite bool_decide_eq_false_2 by done.
      unfold mbind, PageM_bind. rewrite consumeStream_normal.
      pose proof (consumeStream_marked env producerId socketId (answers n) pg
                    Hnot Henv) as Hone. cbv zeta in Hone.
      assert (pendingProducers
                (Page.exec (consumeStream env producerId socketId (answers n))
                   pg).1 = pendingProducers pg) as Hq1.
      { rewrite consumeStream_spec.
        rewrite bool_decide_eq_false_2 by done.
        destruct (negb _); [done|].
        destruct (device_canConsume (answers n)) as [[|]|m]; try done.
        destruct (ack_error (consumerOptions (answers n))); [done|].
        destruct (transport_consume (answers n)) as [c|m]; [|done]. cbv zeta.
        by destruct (ack_error (resumeResult (answers n))). }
      set (pg1 := (Page.exec (consumeStream env producerId socketId (answers n))
                     pg).1) in *.
      destruct (IH (S n) pg1 Henv) as (pg' & l & Hrun & Hq & Hmarks).
      rewrite Hrun. eexists pg', _. split_and!; [done|congruence|].
      intros x. rewrite Hmarks. split.
      * intros [Hx|(k & p & c & Hk & Hp & Hgo)].
        -- destruct Hone as [[[c Hc] Hm]|[_ Hm]]; rewrite Hm in Hx.
           ++ apply elem_of_union in Hx as [?|Hx]; [by left|].
              apply elem_of_singleton in Hx as ->.
              right. exists 0, (producerId, socketId), c.
              by rewrite Nat.add_0_r.
           ++ by left.
        -- right. exists (S k), p, c. split_and!; try done.
           by replace (n + S k) with (S n + k) by lia.
      * intros [Hx|(k & p & c & Hk & Hp & Hgo)].
        -- left. destruct Hone as [[_ Hm]|[_ Hm]]; rewrite Hm; [|done].
           apply elem_of_union. by left.
        -- destruct k as [|k].
           ++ injection Hk as <-. simpl in Hp. subst x.
              rewrite Nat.add_0_r in Hgo. left.
              destruct Hone as [[_ Hm]|[Hno _]]; [|by destruct (Hno c)].
              rewrite Hm. apply elem_of_union. right.
              by apply elem_of_singleton.
           ++ right. exists k, p, c. split_and!; try done.
              by replace (S n + k) with (n + S k) by lia.
Qed.

(** [processExistingProducers] does nothing until the page is initialised
    and has socket, device and receive transport.  Then it asks the server
    for the producers first and empties the queue at the end, and in
    between it tries every producer of the answer and of the queue it
    closed over, one after the other, skipping those that are marked when
    their turn comes: a producer is marked afterwards exactly when it was
    marked before or one of its entries met an attempt that goes through.
    A failed attempt stops neither the loop nor the emptying of the queue;
    with a device whose [canConsume] throws, every attempt fails, so the
    queued producers are dropped and none is consumed. *)
Theorem existing_producers_consumed env pending existingProducers answers pg :
  let allProducers := existingProducers ++ pending in
  let r := Page.exec
             (processExistingProducers env pending existingProducers answers)
             pg in
  let ready := isInitialized env && socket env && device env
               && consumerTransport env in
  (ready = false → r = (pg, []))
  ∧ (ready = true →
     pendingProducers r.1 = []
     ∧ (∃ l, r.2 = EmitWithAck getProducers_request :: l)
     ∧ (∀ producerId,
          producerId ∈ consumedProducersRef r.1
          ↔ producerId ∈ consumedProducersRef pg
            ∨ ∃ k p consumer,
                allProducers !! k = Some p ∧ p.1 = producerId
                ∧ goes_through (answers k) consumer)
     ∧ ((∀ n, canConsume_throws (answers n)) →
        r = ({| pendingProducers := [];
                remoteStreams := remoteStreams pg;
                consumersRef := consumersRef pg;
                consumedProducersRef := consumedProducersRef pg |},
             [EmitWithAck getProducers_request]))).
Proof.
  cbv zeta. unfold processExistingProducers.
  destruct env as [i d c s]. cbn [isInitialized socket device consumerTransport].
  split.
  - intros Hready. destruct i, s, d, c; done.
  - intros Hready. destruct i, s, d, c; try done. simpl.
    unfold Page.exec, Page.try_catch, mbind, PageM_bind.
    unfold emitWithAck, Page.perform. cbn beta iota.
    match goal with
    | |- context [consume_each ?env ?all answers 0 pg] =>
        destruct (consume_each_marks env all answers 0 pg eq_refl)
          as (pg' & l & Hrun & _ & Hmarks);
        pose proof (consume_each_throwing env all answers 0 pg) as Hthrows
    end.
    rewrite Hrun in *.
    unfold setPendingProducers, modify. simpl.
    split_and!; [done | by eexists | exact Hmarks |].
    intros Hdev. specialize (Hthrows Hdev). by injection Hthrows as -> ->.
Qed.

Lemma existing_producers_consumed_witness :
  let missing :=
    {| device_canConsume := Rejects "device.canConsume is not a function";
       consumerOptions := Consumed "c1" "p1" "video" "rtp";
       transport_consume := Resolves Scenario.c1;
       resumeResult := Success |} in
  Page.exec
    (processExistingProducers Page.all_set [("p1", "A")] [("p2", "B")]
       (λ _, missing))
    Page.example
  = ({| pendingProducers := [];
        remoteStreams := remoteStreams Page.example;
        consumersRef := consumersRef Page.example;
        consumedProducersRef := consumedProducersRef Page.example |},
     [EmitWithAck getProducers_request]).
Proof.
  intros missing.
  destruct (existing_producers_consumed Page.all_set [("p1", "A")]
              [("p2", "B")] (λ _, missing) Page.example) as [_ H].
  destruct (H eq_refl) as (_ & _ & _ & Hdev).
  apply Hdev. intros _. by eexists.
Defined.
End PageFacts.

(** * The page and the server together *)

Lemma elem_of_closures_for recipient producerId log :
  producerId ∈ closures_for recipient log
  ↔ Emit recipient (producerClosed producerId) ∈ log.
Proof.
  unfold closures_for. rewrite list_elem_of_omap. split.
  - intros (a & Hin & Ha). destruct a as [| | | | | | |r [|p]|]; try done.
    destruct (decide (r = recipient)) as [->|]; [|done]. by injection Ha as ->.
  - intros Hin. eexists. split; [done|]. simpl. by rewrite decide_True.
Qed.

Lemma elem_of_teardown_log_emit r event socketId st :
  Emit r event ∈ teardown_log socketId st
  ↔ r ∈ recipients socketId st
    ∧ ∃ producerId data,
        (producerId, data) ∈ producers st ∧ pd_socketId data = socketId
        ∧ event = producerClosed producerId.
Proof.
  unfold teardown_log, transports_teardown_log, producers_teardown_log,
    consumers_teardown_log.
  rewrite !elem_of_app, !list_elem_of_bind. split.
  - intros [H|[H|[([k data] & H & Hin)|([k data] & H & _)]]].
    + destruct (transports st !! _); [|by apply elem_of_nil in H].
      apply elem_of_cons in H as [?|H]; [done|].
      by apply list_elem_of_singleton in H.
    + destruct (transports st !! _); [|by apply elem_of_nil in H].
      apply elem_of_cons in H as [?|H]; [done|].
      by apply list_elem_of_singleton in H.
    + simpl in H. destruct (decide _) as [Hown|]; [|by apply elem_of_nil in H].
      apply elem_of_cons in H as [?|H]; [done|].
      apply elem_of_cons in H as [?|H]; [done|].
      apply list_elem_of_fmap in H as (r' & [= -> ->] & Hr).
      split; [done|]. by exists k, data.
    + simpl in H. destruct (decide _); [|by apply elem_of_nil in H].
      apply elem_of_cons in H as [?|H]; [done|].
      by apply list_elem_of_singleton in H.
  - intros (Hr & k & data & Hin & Hown & ->). do 2 right. left.
    exists (k, data). split; [|done]. simpl. rewrite decide_True by done.
    do 2 right. apply list_elem_of_fmap. by exists r.
Qed.

Lemma run_closed_absent ids : ∀ pg id,
  JsMap.get id (Page.consumersRef pg) = None →
  JsMap.get id
    (Page.consumersRef (Page.run (Page.ProducerClosed <$> ids) pg).1) = None.
Proof.
  induction ids as [|producerId ids IH]; intros pg id Hnone; [done|].
  rewrite fmap_cons. cbn [Page.run Page.step].
  destruct (PageFacts.handleProducerClosed_run producerId pg)
    as (refs & closes & -> & _ & Habs & _).
  match goal with
  | |- context [Page.run _ ?pg1] =>
      specialize (IH pg1 id (Habs id Hnone));
      by destruct (Page.run (Page.ProducerClosed <$> ids) pg1)
  end.
Qed.

Lemma filter_notin_nil {A} (f : A → string) (l : list A) :
  filter (λ a, f a ∉ []) l = l.
Proof.
  induction l as [|a l IH]; [done|].
  rewrite filter_cons, decide_True by apply not_elem_of_nil. by rewrite IH.
Qed.

Lemma run_closed ids : ∀ pg,
  let pg' := (Page.run (Page.ProducerClosed <$> ids) pg).1 in
  Page.consumedProducersRef pg' = Page.consumedProducersRef pg ∖ list_to_set ids
  ∧ Page.pendingProducers pg'
    = filter (λ p, p.1 ∉ ids) (Page.pendingProducers pg)
  ∧ Page.remoteStreams pg'
    = filter (λ s, Page.rs_producerId s ∉ ids) (Page.remoteStreams pg)
  ∧ ∀ s, s ∈ Page.remoteStreams pg → Page.rs_producerId s ∈ ids →
         JsMap.get (Page.rs_id s) (Page.consumersRef pg') = None.
Proof.
  induction ids as [|producerId ids IH]; intros pg; cbv zeta.
  - simpl. split_and!.
    + apply set_eq. intros x. rewrite elem_of_difference.
      split; [|by intros [? _]]. intros ?. split; [done|].
      apply not_elem_of_empty.
    + symmetry. apply (filter_notin_nil fst).
    + symmetry. apply (filter_notin_nil Page.rs_producerId).
    + by intros s _ ?%elem_of_nil.
  - rewrite fmap_cons. cbn [Page.run Page.step].
    destruct (PageFacts.handleProducerClosed_run producerId pg)
      as (refs & closes & Hrun & _ & _ & Hgone & _).
    rewrite Hrun.
    match goal with
    | |- context [Page.run _ ?pg1] =>
        specialize (IH pg1) as (Hm & Hq & Hs & Hc);
        pose proof (run_closed_absent ids pg1) as Habs;
        destruct (Page.run (Page.ProducerClosed <$> ids) pg1) as [pg2 l2]
    end.
    cbn [fst snd Page.consumedProducersRef Page.pendingProducers
           Page.remoteStreams Page.consumersRef] in *.
    split_and!.
    + rewrite Hm. apply set_eq. intros x.
      rewrite !elem_of_difference, elem_of_list_to_set, elem_of_singleton,
        elem_of_list_to_set, elem_of_cons. tauto.
    + rewrite Hq, list_filter_filter. apply list_filter_iff. intros p.
      rewrite elem_of_cons. tauto.
    + rewrite Hs, list_filter_filter. apply list_filter_iff. intros s.
      rewrite elem_of_cons. tauto.
    + intros s Hin [Heq|Hids]%elem_of_cons.
      * apply Habs. by apply Hgone.
      * destruct (decide (Page.rs_producerId s = producerId)) as [Heq|Hne].
        -- apply Habs. by apply Hgone.
        -- apply Hc; [|done]. by apply list_elem_of_filter.
Qed.

(** When a peer leaves, the producerClosed notifications that the server
    sends to another connected peer name exactly the producers the departed
    peer owned, and a page that handles them forgets exactly those: their
    marks, their queue entries and their streams are gone, with the
    consumers recorded under the streams' ids, and everything that belongs
    to other producers is as it was. *)
Theorem departure_reaches_page socketId recipient st pg :
  wf_server st → connected recipient st = true → recipient ≠ socketId →
  let closed := closures_for recipient (exec (on_disconnect socketId) st).2 in
  let pg' := (Page.run (Page.ProducerClosed <$> closed) pg).1 in
  (∀ producerId,
     producerId ∈ closed
     ↔ ∃ data, JsMap.get producerId (producers st) = Some data
               ∧ pd_socketId data = socketId)
  ∧ Page.consumedProducersRef pg'
    = Page.consumedProducersRef pg ∖ list_to_set closed
  ∧ Page.pendingProducers pg'
    = filter (λ p, p.1 ∉ closed) (Page.pendingProducers pg)
  ∧ Page.remoteStreams pg'
    = filter (λ s, Page.rs_producerId s ∉ closed) (Page.remoteStreams pg)
  ∧ (∀ s, s ∈ Page.remoteStreams pg → Page.rs_producerId s ∈ closed →
          JsMap.get (Page.rs_id s) (Page.consumersRef pg') = None).
Proof.
  intros [Hp Hc] Hconn Hne. cbv zeta. rewrite on_disconnect_spec by done.
  simpl. split; [|apply run_closed].
  intros producerId.
  rewrite elem_of_closures_for, elem_of_teardown_log_emit, elem_of_recipients.
  unfold connected in Hconn. apply bool_decide_eq_true in Hconn. split.
  - intros (_ & k & data & Hin & Hown & [= ->]). exists data.
    split; [|done]. by apply JsMapFacts.elem_get.
  - intros (data & Hget & Hown). split; [done|]. exists producerId, data.
    split_and!; try done. by apply JsMapFacts.get_Some_elem.
Qed.

Lemma departure_reaches_page_witness :
  Page.pendingProducers
    (Page.run (Page.ProducerClosed
                 <$> closures_for "B" (step (Disconnect "A") Scenario.live).2)
       Page.example).1
  = [].
Proof.
  destruct (departure_reaches_page "A" "B"
              (with_sockets (delete "A") Scenario.live) Page.example)
    as (_ & _ & H & _).
  - apply (reachable_wf Scenario.live). exists Scenario.session. reflexivity.
  - vm_compute. reflexivity.
  - discriminate.
  - exact H.
Defined.
